(** * tinyalloc: a first-fit arena allocator (tinyalloc.c / tinyalloc.h)

    Shallow embedding of the allocator over a flat, byte-addressed memory.
    Pointers, [size_t] and [uintptr_t] values are integers in [0, 2^w) where
    [w = 8 * sizeof(void* )]; every C operation on them is written with its
    wrap-around.  [NULL] is the address [0].  The [arena_t] record is owned
    by the host and is modelled as a Rocq record; block headers live inside
    the byte memory and are read and written field by field (words are laid
    out little endian).  The two [while] loops take a fuel argument and
    return [None] when it runs out; the lock and unlock calls are empty in
    the source and are left out. *)

From Stdlib Require Import ZArith List Lia Bool.
Import ListNotations.
Local Open Scope Z_scope.

(** ** Target platform

    [WORDSIZE] is [sizeof(void* )]: a power of two ([2 ^ word_log2] bytes). *)

Class Platform := { word_log2 : nat }.

Section Model.
Context {pf : Platform}.

(** [#define WORDSIZE (sizeof(void* ))] *)
Definition WORDSIZE : Z := 2 ^ Z.of_nat word_log2.
(** [#define ALIGN_SIZE ((int) (WORDSIZE))] *)
Definition ALIGN_SIZE : Z := WORDSIZE.
(** [#define HEADER_LENGHT (4 * WORDSIZE)] *)
Definition HEADER_LENGHT : Z := 4 * WORDSIZE.
(** [#define PADDING_SIZE (ALIGN_SIZE)] *)
Definition PADDING_SIZE : Z := ALIGN_SIZE.

(** Number of values of [size_t] / [uintptr_t]: [SIZE_MAX + 1]. *)
Definition modulus : Z := 2 ^ (8 * WORDSIZE).
Definition SIZE_MAX : Z := modulus - 1.
(** Unsigned wrap-around of a [size_t] / [uintptr_t] result. *)
Definition wrap (z : Z) : Z := z mod modulus.

(** ** Byte memory *)

(** A memory maps every byte address to the byte stored there. *)
Definition mem : Type := Z -> Z.

(** Byte number [i] (little endian) of the word [v]. *)
Definition byte_of (v i : Z) : Z := (v / 256 ^ i) mod 256.

Fixpoint load_bytes (m : mem) (a : Z) (n : nat) : Z :=
  match n with
  | O => 0
  | S k => m a mod 256 + 256 * load_bytes m (a + 1) k
  end.

(** Read of one [WORDSIZE]-byte object at address [a]. *)
Definition load (m : mem) (a : Z) : Z := load_bytes m a (Z.to_nat WORDSIZE).

(** Write of one [WORDSIZE]-byte object at address [a]. *)
Definition store (m : mem) (a v : Z) : mem :=
  fun x => if (a <=? x) && (x <? a + WORDSIZE) then byte_of v (x - a) else m x.

(** [memcpy(dst, src, n)].  C leaves overlapping ranges undefined; the model
    reads every source byte from the memory before the call. *)
Definition memcpy (m : mem) (dst src n : Z) : mem :=
  fun x => if (dst <=? x) && (x <? dst + n) then m (src + (x - dst)) else m x.

(** ** Data model *)

(** [arena_t] *)
Record arena_t := mk_arena {
  start_addr : Z;
  arena_size : Z;
  head : Z;
  tail : Z
}.

(** [arena_info_t] *)
Record arena_info_t := mk_arena_info {
  total_size : Z;
  used_size : Z;
  allocated_size : Z;
  fragmentation_bytes : Z;
  allocated_blocks : Z
}.

Definition set_head (a : arena_t) (p : Z) : arena_t :=
  mk_arena (start_addr a) (arena_size a) p (tail a).
Definition set_tail (a : arena_t) (p : Z) : arena_t :=
  mk_arena (start_addr a) (arena_size a) (head a) p.

(** [union allocator_header]: the fields [canary], [size], [prev], [next]
    at offsets [0], [WORDSIZE], [2 * WORDSIZE], [3 * WORDSIZE]. *)
Definition hdr_canary (m : mem) (h : Z) : Z := load m h.
Definition hdr_size (m : mem) (h : Z) : Z := load m (h + WORDSIZE).
Definition hdr_prev (m : mem) (h : Z) : Z := load m (h + 2 * WORDSIZE).
Definition hdr_next (m : mem) (h : Z) : Z := load m (h + 3 * WORDSIZE).

Definition set_canary (m : mem) (h v : Z) : mem := store m h v.
Definition set_size (m : mem) (h v : Z) : mem := store m (h + WORDSIZE) v.
Definition set_prev (m : mem) (h v : Z) : mem := store m (h + 2 * WORDSIZE) v.
Definition set_next (m : mem) (h v : Z) : mem := store m (h + 3 * WORDSIZE) v.

(** ** The allocator *)

(** [(size + (PADDING_SIZE - 1) & ~(PADDING_SIZE - 1))]: in C the sum binds
    tighter than [&]; [~(PADDING_SIZE - 1)] is an [int] that is converted to
    [size_t] for the conjunction. *)
Definition next_padding_size (size : Z) : Z :=
  Z.land (wrap (size + (PADDING_SIZE - 1))) (wrap (Z.lnot (PADDING_SIZE - 1))).

Definition arena_init (a : arena_t) : arena_t :=
  mk_arena (start_addr a) (arena_size a) 0 0.

Definition arena_destroy (a : arena_t) : arena_t :=
  mk_arena 0 0 0 0.

Definition compute_canary (m : mem) (header_ptr : Z) : Z :=
  Z.lxor (Z.lxor (hdr_size m header_ptr) (hdr_prev m header_ptr))
         (hdr_next m header_ptr).

Definition pointer_end_block (m : mem) (header_ptr : Z) : Z :=
  wrap (header_ptr + HEADER_LENGHT + hdr_size m header_ptr).

Definition available_block_space (a : arena_t) (m : mem) (header_ptr : Z) : Z :=
  if hdr_next m header_ptr =? 0
  then wrap (wrap (start_addr a + arena_size a) - pointer_end_block m header_ptr)
  else wrap (hdr_next m header_ptr - pointer_end_block m header_ptr).

Definition ptr_to_header_ptr (ptr : Z) : Z := wrap (ptr - HEADER_LENGHT).

Definition compute_block_size (padded_size : Z) : Z :=
  wrap (padded_size + HEADER_LENGHT).

Definition header_to_dataptr (header_t : Z) : Z := wrap (header_t + HEADER_LENGHT).

(** The [while(block)] loop of [arena_info]; it yields the statistics and the
    last block visited.  [None]: the fuel ran out before the list ended. *)
Fixpoint arena_info_loop (fuel : nat) (a : arena_t) (m : mem)
    (block last : Z) (i : arena_info_t) : option (arena_info_t * Z) :=
  if block =? 0 then Some (i, last) else
  match fuel with
  | O => None
  | S fuel' =>
      let i1 := mk_arena_info (total_size i) (used_size i)
                  (wrap (allocated_size i + wrap (hdr_size m block + HEADER_LENGHT)))
                  (fragmentation_bytes i)
                  (wrap (allocated_blocks i + 1)) in
      let i2 := if hdr_next m block =? 0 then i1 else
                  mk_arena_info (total_size i1) (used_size i1) (allocated_size i1)
                    (wrap (fragmentation_bytes i1 + available_block_space a m block))
                    (allocated_blocks i1) in
      arena_info_loop fuel' a m (hdr_next m block) block i2
  end.

Definition arena_info (fuel : nat) (a : arena_t) (m : mem) : option arena_info_t :=
  let i0 := mk_arena_info (arena_size a) 0 0 0 0 in
  if head a =? 0 then Some i0 else
  match arena_info_loop fuel a m (head a) 0 i0 with
  | None => None
  | Some (i, last) =>
      Some (mk_arena_info (total_size i)
              (wrap (wrap (last + HEADER_LENGHT + hdr_size m last) - start_addr a))
              (allocated_size i) (fragmentation_bytes i) (allocated_blocks i))
  end.

(** The [while(actual->next)] search of [a_malloc]; it yields the value of
    [actual] when the loop is left (the locals [prev] and [is_contiguous] are
    written but never read afterwards).  [None]: the fuel ran out. *)
Fixpoint first_fit (fuel : nat) (a : arena_t) (m : mem)
    (actual block_size : Z) : option Z :=
  if hdr_next m actual =? 0 then Some actual else
  if block_size <=? available_block_space a m actual then Some actual else
  match fuel with
  | O => None
  | S fuel' => first_fit fuel' a m (hdr_next m actual) block_size
  end.

(** [a_malloc] returns the pointer ([0] for [NULL]), the arena and the memory. *)
Definition a_malloc (fuel : nat) (a : arena_t) (m : mem) (size : Z)
    : option (Z * arena_t * mem) :=
  let padded_size := next_padding_size size in
  let block_size := compute_block_size padded_size in
  let actual := head a in
  if (start_addr a <? actual)
     && (block_size <=? wrap (actual - start_addr a))
  then
    let newblock := start_addr a in
    let m1 := set_size m newblock padded_size in
    let m2 := set_prev m1 newblock 0 in
    let m3 := set_next m2 newblock (head a) in
    let m4 := set_canary m3 newblock (compute_canary m3 newblock) in
    Some (header_to_dataptr newblock, set_head a newblock, m4)
  else if actual =? 0 then
    if arena_size a <? block_size then Some (0, a, m) else
    let newblock := start_addr a in
    let m1 := set_size m newblock padded_size in
    let m2 := set_prev m1 newblock 0 in
    let m3 := set_next m2 newblock 0 in
    let m4 := set_canary m3 newblock (compute_canary m3 newblock) in
    Some (header_to_dataptr newblock, set_tail (set_head a newblock) newblock, m4)
  else
    match first_fit fuel a m actual block_size with
    | None => None
    | Some actual =>
        let newblock := pointer_end_block m actual in
        let arena_end_ptr := wrap (start_addr a + arena_size a) in
        if arena_end_ptr <? wrap (newblock + padded_size) then Some (0, a, m) else
        let m1 := set_size m newblock padded_size in
        let m2 := set_prev m1 newblock actual in
        let m3 := set_next m2 newblock (hdr_next m2 actual) in
        let m4 := set_canary m3 newblock (compute_canary m3 newblock) in
        let m5 := set_next m4 actual newblock in
        let m6 := set_canary m5 actual (compute_canary m5 actual) in
        if hdr_next m6 newblock =? 0 then
          Some (header_to_dataptr newblock, set_tail a newblock, m6)
        else
          let next_ptr := hdr_next m6 newblock in
          let m7 := set_prev m6 next_ptr newblock in
          let m8 := set_canary m7 next_ptr (compute_canary m7 next_ptr) in
          Some (header_to_dataptr newblock, a, m8)
    end.

Definition a_free (a : arena_t) (m : mem) (ptr : Z) : arena_t * mem :=
  if ptr =? 0 then (a, m) else
  let header_ptr := ptr_to_header_ptr ptr in
  let '(a1, m1) :=
    if hdr_prev m header_ptr =? 0
    then (set_head a (hdr_next m header_ptr), m)
    else (a, set_next m (hdr_prev m header_ptr) (hdr_next m header_ptr)) in
  if hdr_next m1 header_ptr =? 0
  then (set_tail a1 (hdr_prev m1 header_ptr), m1)
  else (a1, set_prev m1 (hdr_next m1 header_ptr) (hdr_prev m1 header_ptr)).

Definition a_realloc (fuel : nat) (a : arena_t) (m : mem) (ptr size : Z)
    : option (Z * arena_t * mem) :=
  if ptr =? 0 then a_malloc fuel a m size else
  let header_ptr := ptr_to_header_ptr ptr in
  let newsize_padded := next_padding_size size in
  let actual_size := hdr_size m header_ptr in
  if newsize_padded <=? actual_size then
    let m1 := set_size m header_ptr newsize_padded in
    let m2 := set_canary m1 header_ptr (compute_canary m1 header_ptr) in
    Some (header_to_dataptr header_ptr, a, m2)
  else
    let available_to_next := available_block_space a m header_ptr in
    let required := wrap (newsize_padded - actual_size) in
    if required <=? available_to_next then
      let m1 := set_size m header_ptr newsize_padded in
      let m2 := set_canary m1 header_ptr (compute_canary m1 header_ptr) in
      Some (header_to_dataptr header_ptr, a, m2)
    else
      match a_malloc fuel a m newsize_padded with
      | None => None
      | Some (new_block, a1, m1) =>
          if new_block =? 0 then Some (0, a1, m1) else
          let m2 := memcpy m1 new_block ptr actual_size in
          let '(a3, m3) := a_free a1 m2 ptr in
          Some (new_block, a3, m3)
      end.

End Model.


(** * Vocabulary of the specification *)

Section Vocabulary.
Context {pf : Platform}.

(** The specification's [initialize(region_start, region_size)]. *)
Definition spec_initialize (region_start region_size : Z) : arena_t :=
  mk_arena region_start region_size 0 0.

(** [chain m p l]: following [next] from [p] visits exactly the headers [l]
    and then reaches [NULL]. *)
Fixpoint chain (m : mem) (p : Z) (l : list Z) : Prop :=
  match l with
  | [] => p = 0
  | h :: t => p = h /\ h <> 0 /\ chain m (hdr_next m h) t
  end.

(** First address after the data of the block at [h]. *)
Definition block_end (m : mem) (h : Z) : Z := h + HEADER_LENGHT + hdr_size m h.

(** [ordered m lo l hi]: the blocks [l] lie in [lo, hi] in increasing address
    order and no block overlaps the next one. *)
Fixpoint ordered (m : mem) (lo : Z) (l : list Z) (hi : Z) : Prop :=
  match l with
  | [] => lo <= hi
  | h :: t => lo <= h /\ ordered m (block_end m h) t hi
  end.

Definition Zsum (l : list Z) : Z := fold_right Z.add 0 l.

Definition footprint (m : mem) (h : Z) : Z := hdr_size m h + HEADER_LENGHT.

(** Gap between the end of [h] and its successor; [0] for the last block. *)
Definition gap_after (m : mem) (h : Z) : Z :=
  if hdr_next m h =? 0 then 0 else hdr_next m h - block_end m h.

(** The statistics as the specification words them, over the header list. *)
Definition spec_stats (a : arena_t) (m : mem) (l : list Z) : arena_info_t :=
  mk_arena_info
    (arena_size a)
    (match l with [] => 0 | _ => block_end m (last l 0) - start_addr a end)
    (Zsum (map (footprint m) l))
    (Zsum (map (gap_after m) l))
    (Z.of_nat (length l)).

(** [prev_linked m q l]: every header of [l] has its predecessor in [l] as
    [prev]; the first one has [q]. *)
Fixpoint prev_linked (m : mem) (q : Z) (l : list Z) : Prop :=
  match l with
  | [] => True
  | h :: t => hdr_prev m h = q /\ prev_linked m h t
  end.

(** Invariants 1 to 3 of the specification for the list [l] of live headers:
    the region is addressable, [l] is the [next]-chain from [head], it is
    address-ordered without overlap inside the region, and [prev] mirrors
    [next]. *)
Definition well_formed (a : arena_t) (m : mem) (l : list Z) : Prop :=
  0 < start_addr a /\ 0 <= arena_size a /\
  start_addr a + arena_size a < modulus /\
  chain m (head a) l /\
  ordered m (start_addr a) l (start_addr a + arena_size a) /\
  prev_linked m 0 l.

(** The block of [np] data bytes with its header at [nb] overlaps no block
    of [l]. *)
Definition fresh_block (m : mem) (l : list Z) (nb np : Z) : Prop :=
  forall h, In h l -> nb + HEADER_LENGHT + np <= h \/ block_end m h <= nb.

(** [m1] differs from [m] only inside the header at [nb] and inside the
    headers of [l]; there the sizes are kept and a link either is kept or
    points to [nb]. *)
Definition header_frame (m m1 : mem) (l : list Z) (nb : Z) : Prop :=
  (forall x, x < nb \/ nb + HEADER_LENGHT <= x ->
             (forall h, In h l -> x < h \/ h + HEADER_LENGHT <= x) ->
             m1 x = m x) /\
  (forall h, In h l ->
     hdr_size m1 h = hdr_size m h /\
     (hdr_prev m1 h = hdr_prev m h \/ hdr_prev m1 h = nb) /\
     (hdr_next m1 h = hdr_next m h \/ hdr_next m1 h = nb)).

(** What a successful [a_malloc] of [np] padded bytes returning [q]
    guarantees on a well-formed arena. *)
Definition malloc_post (a : arena_t) (m : mem) (l : list Z) (np q : Z)
    (m1 : mem) : Prop :=
  HEADER_LENGHT <= q /\ q + np < modulus /\
  start_addr a <= q - HEADER_LENGHT /\
  fresh_block m l (q - HEADER_LENGHT) np /\
  header_frame m m1 l (q - HEADER_LENGHT).

(** Where [a_malloc] has linked the new header [nb]: in front of the list
    (the old head is left as it was), or behind a block [actual] of [l],
    whose successor, if any, gets [nb] as [prev]. *)
Definition malloc_links (a : arena_t) (m : mem) (l : list Z) (nb : Z)
    (a1 : arena_t) (m1 : mem) : Prop :=
  (head a1 = nb /\ hdr_next m1 nb = head a /\ nb + HEADER_LENGHT <= head a /\
   forall x, In x l ->
     hdr_next m1 x = hdr_next m x /\ hdr_prev m1 x = hdr_prev m x)
  \/
  (exists actual,
     In actual l /\ nb = block_end m actual /\ head a1 = head a /\
     hdr_next m1 nb = hdr_next m actual /\ hdr_next m1 actual = nb /\
     (forall x, In x l -> x <> actual -> hdr_next m1 x = hdr_next m x) /\
     (forall x, In x l ->
        hdr_prev m1 x = if x =? hdr_next m actual then nb else hdr_prev m x)).

(** Number of addresses of [S] at or above [p]. *)
Definition count_from (S : list Z) (p : Z) : nat :=
  length (filter (fun y => p <=? y) S).

(** The header rewritten by an in-place resize. *)
Definition resized (m : mem) (h np : Z) : mem :=
  set_canary (set_size m h np) h (compute_canary (set_size m h np) h).

(** ** Vocabulary for the effect of the operations on the list *)

(** The four stores with which [a_malloc] writes a new header at [nb]. *)
Definition new_header (m : mem) (nb np prev next : Z) : mem :=
  let m3 := set_next (set_prev (set_size m nb np) nb prev) nb next in
  set_canary m3 nb (compute_canary m3 nb).

(** The memory after [a_malloc] has linked a new block of [np] bytes behind
    the block [actual]. *)
Definition linked_behind (m : mem) (actual np : Z) : mem :=
  let nb := block_end m actual in
  let N := hdr_next m actual in
  let m4 := new_header m nb np actual N in
  let m5 := set_next m4 actual nb in
  let m6 := set_canary m5 actual (compute_canary m5 actual) in
  if N =? 0 then m6 else
  let m7 := set_prev m6 N nb in
  set_canary m7 N (compute_canary m7 N).

(** [l] with the header [nb] put in at its place in address order. *)
Fixpoint insert_addr (nb : Z) (l : list Z) : list Z :=
  match l with
  | [] => [nb]
  | x :: t => if nb <? x then nb :: x :: t else x :: insert_addr nb t
  end.

(** Where a successful [a_malloc] has put the header [nb]: directly behind
    the block [P] and in front of the block [N] ([0] when there is none),
    and what it has written.  In front of the list ([P = 0]) the old head is
    left as it was. *)
Definition placed (a : arena_t) (m : mem) (l : list Z) (np nb P N : Z)
    (a1 : arena_t) (m1 : mem) : Prop :=
  0 < nb /\ start_addr a <= nb /\
  nb + np <= start_addr a + arena_size a /\
  (P = 0 -> nb = start_addr a /\ N = head a /\ head a1 = nb) /\
  (P <> 0 -> In P l /\ nb = block_end m P /\ N = hdr_next m P /\
             head a1 = head a) /\
  (N <> 0 -> In N l /\ nb + HEADER_LENGHT + np <= N) /\
  (forall h, In h l -> (h = P \/ block_end m h <= P) \/ (N <> 0 /\ N <= h)) /\
  tail a1 = (if N =? 0 then nb else tail a) /\
  start_addr a1 = start_addr a /\ arena_size a1 = arena_size a /\
  hdr_size m1 nb = np /\ hdr_prev m1 nb = P /\ hdr_next m1 nb = N /\
  hdr_canary m1 nb = compute_canary m1 nb /\
  (forall h, In h l ->
     hdr_size m1 h = hdr_size m h /\
     hdr_next m1 h = (if h =? P then nb else hdr_next m h) /\
     hdr_prev m1 h = (if negb (P =? 0) && (h =? N) then nb else hdr_prev m h) /\
     (hdr_canary m h = compute_canary m h ->
      hdr_canary m1 h = compute_canary m1 h)) /\
  (forall x, x < nb \/ nb + HEADER_LENGHT <= x ->
             (forall h, In h l -> x < h \/ h + HEADER_LENGHT <= x) ->
             m1 x = m x).

(** Some gap of the arena takes a block of [np] data bytes, as [a_malloc]
    measures it: the gap in front of the first block or a gap between two
    blocks takes header and data, the space behind the last block takes the
    data. *)
Definition room (a : arena_t) (m : mem) (l : list Z) (np : Z) : Prop :=
  match l with
  | [] => np + HEADER_LENGHT <= arena_size a
  | _ => start_addr a + np + HEADER_LENGHT <= head a \/
         exists x, In x l /\
           (if hdr_next m x =? 0 then np else np + HEADER_LENGHT)
           <= available_block_space a m x
  end.

(** The memory left by [a_free] of the block with header [h]. *)
Definition unlinked (m : mem) (h : Z) : mem :=
  let P := hdr_prev m h in
  let N := hdr_next m h in
  let m1 := if P =? 0 then m else set_next m P N in
  if N =? 0 then m1 else set_prev m1 N P.

(** The region starts on a word boundary, and so does every live header;
    every size is a multiple of the word size. *)
Definition aligned (a : arena_t) (m : mem) (l : list Z) : Prop :=
  start_addr a mod WORDSIZE = 0 /\
  forall h, In h l -> h mod WORDSIZE = 0 /\ hdr_size m h mod WORDSIZE = 0.

End Vocabulary.

(** * A 64-bit platform and concrete arenas *)

Definition lp64 : Platform := {| word_log2 := 3 |}.

Section Scenario.
#[local] Existing Instance lp64.

Definition returned (r : option (Z * arena_t * mem)) : option Z :=
  match r with Some (p, _, _) => Some p | None => None end.

Definition arena_after (r : option (Z * arena_t * mem)) (a : arena_t) : arena_t :=
  match r with Some (_, a', _) => a' | None => a end.

Definition mem_after (r : option (Z * arena_t * mem)) (m : mem) : mem :=
  match r with Some (_, _, m') => m' | None => m end.

Definition mem0 : mem := fun _ => 0.
Definition arena0 : arena_t := arena_init (mk_arena 4096 1024 0 0).

Definition call_A := a_malloc 0 arena0 mem0 8.
Definition arena_A := arena_after call_A arena0.
Definition mem_A := mem_after call_A mem0.
Definition call_B := a_malloc 1 arena_A mem_A 8.
Definition arena_AB := arena_after call_B arena_A.
Definition mem_AB := mem_after call_B mem_A.
Definition call_C := a_malloc 2 arena_AB mem_AB 64.
Definition arena_ABC := arena_after call_C arena_AB.
Definition mem_ABC := mem_after call_C mem_AB.
Definition arena_BC := fst (a_free arena_ABC mem_ABC 4128).
Definition mem_BC := snd (a_free arena_ABC mem_ABC 4128).
Definition call_D := a_malloc 2 arena_BC mem_BC 8.
Definition arena_DBC := arena_after call_D arena_BC.
Definition mem_DBC := mem_after call_D mem_BC.

Definition call_big := a_malloc 0 arena0 mem0 960.
Definition arena_big := arena_after call_big arena0.
Definition mem_big := mem_after call_big mem0.

Definition mem_BC_data : mem := store mem_BC 4240 170.
Definition call_reloc := a_realloc 2 arena_BC mem_BC_data 4208 (SIZE_MAX - 15).

(** A block [L] of [64] bytes and two blocks [M], [N] of [8] bytes; after
    [a_free] of [L] the blocks [M] (header [4192]) and [N] (header [4232])
    lie behind a leading gap of [96] bytes.  Then [M] is resized to [16]
    bytes, and [8] bytes are requested. *)
Definition call_L := a_malloc 0 arena0 mem0 64.
Definition arena_L := arena_after call_L arena0.
Definition mem_L := mem_after call_L mem0.
Definition call_M := a_malloc 1 arena_L mem_L 8.
Definition arena_LM := arena_after call_M arena_L.
Definition mem_LM := mem_after call_M mem_L.
Definition call_N := a_malloc 2 arena_LM mem_LM 8.
Definition arena_LMN := arena_after call_N arena_LM.
Definition mem_LMN := mem_after call_N mem_LM.
Definition arena_MN := fst (a_free arena_LMN mem_LMN 4128).
Definition mem_MN := snd (a_free arena_LMN mem_LMN 4128).
Definition call_move := a_realloc 2 arena_MN mem_MN 4224 16.
Definition arena_moved := arena_after call_move arena_MN.
Definition mem_moved := mem_after call_move mem_MN.
Definition call_again := a_malloc 1 arena_moved mem_moved 8.

(** The arena with the blocks [A] and [C] left after [a_free] of [B]. *)
Definition arena_AC := fst (a_free arena_ABC mem_ABC 4168).
Definition mem_AC := snd (a_free arena_ABC mem_ABC 4168).

End Scenario.

(** * Arithmetic of the platform *)

Section Facts.
Context {pf : Platform}.

Lemma WORDSIZE_pos : 0 < WORDSIZE.
Proof. unfold WORDSIZE. apply Z.pow_pos_nonneg; lia. Qed.

Lemma modulus_pos : 0 < modulus.
Proof.
  unfold modulus. apply Z.pow_pos_nonneg; [lia|].
  pose proof WORDSIZE_pos; lia.
Qed.

Lemma modulus_256 : modulus = 256 ^ WORDSIZE.
Proof.
  unfold modulus. change 256 with (2 ^ 8).
  rewrite <- Z.pow_mul_r; [reflexivity | lia | pose proof WORDSIZE_pos; lia].
Qed.

Lemma HEADER_LENGHT_pos : 0 < HEADER_LENGHT.
Proof. unfold HEADER_LENGHT. pose proof WORDSIZE_pos; lia. Qed.

Lemma HEADER_LENGHT_lt_modulus : HEADER_LENGHT < modulus.
Proof.
  unfold HEADER_LENGHT, modulus. pose proof WORDSIZE_pos.
  assert (Hp : 8 * WORDSIZE = 2 + (8 * WORDSIZE - 2)) by lia.
  rewrite Hp, Z.pow_add_r by lia. change (2 ^ 2) with 4.
  assert (WORDSIZE < 2 ^ (8 * WORDSIZE - 2)); [|nia].
  apply Z.le_lt_trans with (8 * WORDSIZE - 2); [lia|].
  apply Z.pow_gt_lin_r; lia.
Qed.

Lemma wrap_range z : 0 <= wrap z < modulus.
Proof. unfold wrap. apply Z.mod_pos_bound, modulus_pos. Qed.

Lemma wrap_small z : 0 <= z < modulus -> wrap z = z.
Proof. unfold wrap. apply Z.mod_small. Qed.

Lemma wrap_0 : wrap 0 = 0.
Proof. apply wrap_small. pose proof modulus_pos; lia. Qed.

(** ** Loads and stores *)

Lemma load_bytes_range m a n : 0 <= load_bytes m a n < 256 ^ Z.of_nat n.
Proof.
  revert a; induction n as [|n IH]; intros a.
  - simpl; lia.
  - rewrite Nat2Z.inj_succ, Z.pow_succ_r by lia. cbn [load_bytes].
    specialize (IH (a + 1)).
    pose proof (Z.mod_pos_bound (m a) 256 ltac:(lia)). nia.
Qed.

Lemma load_range m a : 0 <= load m a < modulus.
Proof.
  unfold load. rewrite modulus_256.
  pose proof (load_bytes_range m a (Z.to_nat WORDSIZE)) as H.
  rewrite Z2Nat.id in H by (pose proof WORDSIZE_pos; lia). exact H.
Qed.

Lemma load_bytes_ext m m' a n :
  (forall x, a <= x < a + Z.of_nat n -> m' x = m x) ->
  load_bytes m' a n = load_bytes m a n.
Proof.
  revert a; induction n as [|n IH]; intros a H; [reflexivity|].
  cbn [load_bytes]. rewrite H by lia. rewrite IH; [reflexivity|].
  intros x Hx. apply H. lia.
Qed.

Lemma load_ext m m' a :
  (forall x, a <= x < a + WORDSIZE -> m' x = m x) -> load m' a = load m a.
Proof.
  intros H. unfold load. apply load_bytes_ext. intros x Hx. apply H.
  rewrite Z2Nat.id in Hx by (pose proof WORDSIZE_pos; lia). exact Hx.
Qed.

Lemma load_bytes_store m a v n : forall k,
  0 <= k -> k + Z.of_nat n <= WORDSIZE ->
  load_bytes (store m a v) (a + k) n = (v / 256 ^ k) mod 256 ^ Z.of_nat n.
Proof.
  induction n as [|n IH]; intros k Hk Hn.
  - simpl. now rewrite Z.mod_1_r.
  - cbn [load_bytes]. rewrite Nat2Z.inj_succ, Z.pow_succ_r by lia.
    replace (a + k + 1) with (a + (k + 1)) by lia.
    rewrite IH by lia.
    unfold store at 1.
    replace ((a <=? a + k) && (a + k <? a + WORDSIZE)) with true
      by (symmetry; apply andb_true_iff; split; [apply Z.leb_le | apply Z.ltb_lt]; lia).
    unfold byte_of. replace (a + k - a) with k by lia.
    rewrite Z.mod_mod by lia.
    rewrite Z.rem_mul_r by (try apply Z.pow_pos_nonneg; lia).
    rewrite Z.pow_add_r, Z.pow_1_r by lia.
    rewrite Z.div_div by (try apply Z.pow_pos_nonneg; lia).
    reflexivity.
Qed.

Lemma load_store_same m a v : load (store m a v) a = wrap v.
Proof.
  unfold load. pose proof WORDSIZE_pos.
  pose proof (load_bytes_store m a v (Z.to_nat WORDSIZE) 0) as H0.
  rewrite Z.add_0_r, Z.pow_0_r, Z.div_1_r, Z2Nat.id in H0 by lia.
  rewrite H0 by lia. unfold wrap. now rewrite modulus_256.
Qed.

Lemma load_store_other m a v b :
  b + WORDSIZE <= a \/ a + WORDSIZE <= b -> load (store m a v) b = load m b.
Proof.
  intros H. apply load_ext. intros x Hx. unfold store.
  destruct (Z.leb_spec a x), (Z.ltb_spec x (a + WORDSIZE)); simpl; try reflexivity; lia.
Qed.

Lemma store_outside m a v x :
  x < a \/ a + WORDSIZE <= x -> store m a v x = m x.
Proof.
  intros H. unfold store.
  destruct (Z.leb_spec a x), (Z.ltb_spec x (a + WORDSIZE)); simpl; try reflexivity; lia.
Qed.

Lemma memcpy_inside m dst src n i :
  0 <= i < n -> memcpy m dst src n (dst + i) = m (src + i).
Proof.
  intros H. unfold memcpy.
  destruct (Z.leb_spec dst (dst + i)), (Z.ltb_spec (dst + i) (dst + n)); simpl; try lia.
  f_equal; lia.
Qed.

Lemma memcpy_outside m dst src n x :
  x < dst \/ dst + n <= x -> memcpy m dst src n x = m x.
Proof.
  intros H. unfold memcpy.
  destruct (Z.leb_spec dst x), (Z.ltb_spec x (dst + n)); simpl; try reflexivity; lia.
Qed.

(** ** Padding *)

Lemma next_padding_size_eq size :
  next_padding_size size
  = WORDSIZE * (wrap (size + (WORDSIZE - 1)) / WORDSIZE).
Proof.
  unfold next_padding_size, PADDING_SIZE, ALIGN_SIZE.
  pose proof WORDSIZE_pos as HW.
  set (x := wrap (size + (WORDSIZE - 1))).
  assert (Hx : 0 <= x < modulus) by apply wrap_range.
  rewrite Z.lnot_pred.
  unfold wrap at 1, modulus. rewrite <- Z.land_ones by lia.
  rewrite (Z.land_comm (- WORDSIZE)), Z.land_assoc.
  rewrite Z.land_ones by lia. fold modulus.
  rewrite (Z.mod_small x) by exact Hx.
  rewrite <- Z.lnot_pred, <- Z.ldiff_land.
  unfold WORDSIZE at 1.
  replace (2 ^ Z.of_nat word_log2 - 1) with (Z.ones (Z.of_nat word_log2))
    by (rewrite Z.ones_equiv; lia).
  rewrite Z.ldiff_ones_r by lia.
  rewrite Z.shiftr_div_pow2, Z.shiftl_mul_pow2 by lia.
  fold WORDSIZE. lia.
Qed.

Lemma next_padding_size_range size :
  0 <= next_padding_size size <= modulus - WORDSIZE.
Proof.
  rewrite next_padding_size_eq. pose proof WORDSIZE_pos as HW.
  pose proof (wrap_range (size + (WORDSIZE - 1))) as Hx.
  set (x := wrap _) in *.
  assert (Hm : modulus = WORDSIZE * (modulus / WORDSIZE)).
  { apply Z.div_exact; [lia|]. unfold modulus, WORDSIZE.
    set (k := Z.of_nat word_log2).
    assert (k < 2 ^ k) by (apply Z.pow_gt_lin_r; lia).
    replace (8 * 2 ^ k) with (k + (8 * 2 ^ k - k)) by lia.
    rewrite Z.pow_add_r, Z.mul_comm by lia.
    apply Z.mod_mul. apply Z.pow_nonzero; lia. }
  assert (x / WORDSIZE < modulus / WORDSIZE).
  { apply Z.div_lt_upper_bound; lia. }
  pose proof (Z.div_pos x WORDSIZE). nia.
Qed.

Lemma next_padding_size_multiple n :
  0 <= WORDSIZE * n <= modulus - WORDSIZE ->
  next_padding_size (WORDSIZE * n) = WORDSIZE * n.
Proof.
  intros H. rewrite next_padding_size_eq. pose proof WORDSIZE_pos as HW.
  rewrite wrap_small by lia. f_equal.
  rewrite (Z.mul_comm WORDSIZE n), Z.div_add_l by lia.
  rewrite Z.div_small; lia.
Qed.

Lemma next_padding_size_idem size :
  next_padding_size (next_padding_size size) = next_padding_size size.
Proof.
  pose proof (next_padding_size_range size) as H.
  rewrite (next_padding_size_eq size) in *.
  apply next_padding_size_multiple. exact H.
Qed.

Lemma next_padding_size_0 : next_padding_size 0 = 0.
Proof.
  pose proof (next_padding_size_multiple 0) as H.
  rewrite Z.mul_0_r in H. apply H.
  pose proof WORDSIZE_pos. pose proof HEADER_LENGHT_lt_modulus.
  unfold HEADER_LENGHT in *. lia.
Qed.

End Facts.

(** * Proof automation for header fields *)

Ltac fields :=
  unfold hdr_canary, hdr_size, hdr_prev, hdr_next,
         set_canary, set_size, set_prev, set_next, HEADER_LENGHT in *.

Ltac mem_simpl :=
  repeat first
    [ rewrite load_store_same
    | rewrite load_store_other by lia
    | rewrite store_outside by lia
    | rewrite memcpy_outside by lia ].

(** * Headers, canaries and pointer conversions *)

Section Headers.
Context {pf : Platform}.

Lemma lxor_range a b n :
  0 <= n -> 0 <= a < 2 ^ n -> 0 <= b < 2 ^ n -> 0 <= Z.lxor a b < 2 ^ n.
Proof.
  intros Hn Ha Hb.
  assert (H0 : 0 <= Z.lxor a b) by (apply Z.lxor_nonneg; lia).
  split; [exact H0|].
  destruct (Z.eq_dec (Z.lxor a b) 0) as [E|E]; [rewrite E; lia|].
  assert (Hn0 : 0 < n).
  { destruct (Z.eq_dec n 0) as [->|]; [|lia].
    change (2 ^ 0) with 1 in *. assert (a = 0) by lia. assert (b = 0) by lia.
    subst. now rewrite Z.lxor_0_l in E. }
  assert (Hl : forall c, 0 <= c < 2 ^ n -> Z.log2 c < n).
  { intros c Hc. destruct (Z.eq_dec c 0) as [->|]; [simpl; lia|].
    apply Z.log2_lt_pow2; lia. }
  apply Z.log2_lt_pow2; [lia|].
  eapply Z.le_lt_trans; [apply Z.log2_lxor; lia|].
  apply Z.max_lub_lt; apply Hl; assumption.
Qed.

Lemma hdr_size_nonneg m h : 0 <= hdr_size m h < modulus.
Proof. apply load_range. Qed.

Lemma compute_canary_range m h : 0 <= compute_canary m h < modulus.
Proof.
  unfold compute_canary, hdr_size, hdr_prev, hdr_next.
  pose proof WORDSIZE_pos.
  repeat apply lxor_range; try apply load_range; lia.
Qed.

Lemma dataptr_of_header ptr :
  0 <= ptr < modulus -> header_to_dataptr (ptr_to_header_ptr ptr) = ptr.
Proof.
  intros H. unfold header_to_dataptr, ptr_to_header_ptr, wrap.
  rewrite Z.add_mod_idemp_l by (pose proof modulus_pos; lia).
  replace (ptr - HEADER_LENGHT + HEADER_LENGHT) with ptr by lia.
  now apply Z.mod_small.
Qed.

Lemma ptr_to_header_ptr_eq ptr :
  HEADER_LENGHT <= ptr < modulus -> ptr_to_header_ptr ptr = ptr - HEADER_LENGHT.
Proof.
  intros H. apply wrap_small. pose proof HEADER_LENGHT_pos. lia.
Qed.

Lemma wrap_compute_canary m h : wrap (compute_canary m h) = compute_canary m h.
Proof. apply wrap_small, compute_canary_range. Qed.

Lemma resized_spec m h np :
  0 <= np < modulus ->
  hdr_size (resized m h np) h = np /\
  hdr_canary (resized m h np) h = compute_canary (resized m h np) h /\
  hdr_prev (resized m h np) h = hdr_prev m h /\
  hdr_next (resized m h np) h = hdr_next m h /\
  (forall x, x < h \/ h + 2 * WORDSIZE <= x -> resized m h np x = m x).
Proof.
  intros Hnp. pose proof WORDSIZE_pos as HW.
  unfold resized.
  pose proof (wrap_compute_canary (set_size m h np) h) as Hc.
  assert (Hs : compute_canary (set_size m h np) h
               = Z.lxor (Z.lxor np (hdr_prev m h)) (hdr_next m h)).
  { unfold compute_canary. fields. mem_simpl. now rewrite wrap_small by lia. }
  rewrite Hs in *. clear Hs.
  set (c := Z.lxor _ _) in *.
  unfold compute_canary. fields. mem_simpl.
  rewrite Hc, wrap_small by lia.
  repeat split; try reflexivity. intros x Hx. mem_simpl. reflexivity.
Qed.

Lemma a_realloc_keeps_block fuel a m ptr size :
  HEADER_LENGHT <= ptr < modulus ->
  next_padding_size size <= hdr_size m (ptr - HEADER_LENGHT) \/
  next_padding_size size - hdr_size m (ptr - HEADER_LENGHT)
    <= available_block_space a m (ptr - HEADER_LENGHT) ->
  a_realloc fuel a m ptr size
  = Some (ptr, a, resized m (ptr - HEADER_LENGHT) (next_padding_size size)).
Proof.
  intros Hp Hc. unfold a_realloc. pose proof HEADER_LENGHT_pos as HH.
  destruct (Z.eqb_spec ptr 0); [lia|].
  rewrite dataptr_of_header by lia. rewrite ptr_to_header_ptr_eq by lia.
  set (h := ptr - HEADER_LENGHT) in *. set (np := next_padding_size size) in *.
  destruct (Z.leb_spec np (hdr_size m h)); [reflexivity|].
  pose proof (next_padding_size_range size). pose proof (load_range m (h + WORDSIZE)).
  pose proof WORDSIZE_pos.
  rewrite wrap_small by (unfold hdr_size in *; fold np in H0; lia).
  destruct (Z.leb_spec (np - hdr_size m h) (available_block_space a m h)); [reflexivity|].
  lia.
Qed.

End Headers.

(** * Well-formed header lists *)

Section Lists.
Context {pf : Platform}.

Lemma block_end_ge m h : h + HEADER_LENGHT <= block_end m h.
Proof. unfold block_end. pose proof (hdr_size_nonneg m h). lia. Qed.

Lemma ordered_le m l : forall lo hi, ordered m lo l hi -> lo <= hi.
Proof.
  induction l as [|x t IH]; simpl; intros lo hi Ho; [exact Ho|].
  destruct Ho as (Hlo & Ho). apply IH in Ho.
  pose proof (block_end_ge m x). pose proof HEADER_LENGHT_pos. lia.
Qed.

Lemma ordered_bounds m l : forall lo hi h,
  ordered m lo l hi -> In h l -> lo <= h /\ block_end m h <= hi.
Proof.
  induction l as [|x t IH]; intros lo hi h Ho Hin; [contradiction|].
  destruct Ho as (Hlo & Ho). pose proof (block_end_ge m x). pose proof HEADER_LENGHT_pos.
  destruct Hin as [->|Hin].
  - split; [lia|]. now apply ordered_le in Ho.
  - destruct (IH _ _ h Ho Hin). lia.
Qed.

Lemma chain_nonzero m l : forall p h, chain m p l -> In h l -> h <> 0.
Proof.
  induction l as [|x t IH]; intros p h Hc Hin; [contradiction|].
  destruct Hc as (_ & Hx & Hc). destruct Hin as [->|Hin]; [exact Hx|].
  eapply IH; eassumption.
Qed.

(** Two distinct blocks of an ordered list do not overlap. *)
Lemma ordered_disjoint m l : forall lo hi h h',
  ordered m lo l hi -> In h l -> In h' l ->
  h = h' \/ block_end m h <= h' \/ block_end m h' <= h.
Proof.
  induction l as [|x t IH]; intros lo hi h h' Ho Hh Hh'; [contradiction|].
  destruct Ho as (Hlo & Ho).
  destruct Hh as [->|Hh], Hh' as [->|Hh'].
  - now left.
  - right; left. now destruct (ordered_bounds _ _ _ _ _ Ho Hh').
  - right; right. now destruct (ordered_bounds _ _ _ _ _ Ho Hh).
  - eapply IH; eassumption.
Qed.

(** The successor of a block is in the list, after the block's end. *)
Lemma chain_next_in m l : forall p lo hi h,
  chain m p l -> ordered m lo l hi -> In h l ->
  hdr_next m h = 0 \/
  (In (hdr_next m h) l /\ block_end m h <= hdr_next m h).
Proof.
  induction l as [|x t IH]; intros p lo hi h Hc Ho Hin; [contradiction|].
  destruct Hc as (_ & Hx & Hc). destruct Ho as (Hlo & Ho).
  destruct Hin as [->|Hin].
  - destruct t as [|y t]; [left; exact Hc|]. right.
    destruct Hc as (E & _). destruct Ho as (Hy & _).
    rewrite E. split; [right; now left | exact Hy].
  - destruct (IH _ _ _ h Hc Ho Hin) as [E|(I & L)]; [now left|].
    right. split; [now right | exact L].
Qed.

(** The predecessor recorded in a block is in the list, before the block. *)
Lemma prev_linked_in m l : forall q lo hi h,
  prev_linked m q l -> ordered m lo l hi -> In h l ->
  hdr_prev m h = q \/
  (In (hdr_prev m h) l /\ block_end m (hdr_prev m h) <= h).
Proof.
  induction l as [|x t IH]; intros q lo hi h Hp Ho Hin; [contradiction|].
  destruct Hp as (Hq & Hp). destruct Ho as (Hlo & Ho).
  destruct Hin as [->|Hin]; [now left|]. right.
  destruct (IH _ _ _ h Hp Ho Hin) as [E|(I & L)].
  - rewrite E. split; [now left|]. now destruct (ordered_bounds _ _ _ _ _ Ho Hin).
  - split; [now right | exact L].
Qed.

(** ** Chains through a set of headers *)

Lemma filter_ge_le (S : list Z) p p' :
  p <= p' ->
  (count_from S p' <= count_from S p)%nat.
Proof.
  unfold count_from.
  intros Hp. induction S as [|y S IH]; [simpl; lia|]. simpl.
  destruct (Z.leb_spec p' y), (Z.leb_spec p y); simpl; lia.
Qed.

Lemma filter_ge_lt (S : list Z) p p' :
  p < p' -> In p S ->
  (count_from S p' < count_from S p)%nat.
Proof.
  intros Hp. induction S as [|y S IH]; [contradiction|].
  unfold count_from in *. intros [->|Hin]; simpl.
  - pose proof (filter_ge_le S p p' ltac:(lia)). unfold count_from in *.
    destruct (Z.leb_spec p' p), (Z.leb_spec p p); simpl; lia.
  - specialize (IH Hin).
    destruct (Z.leb_spec p' y), (Z.leb_spec p y); simpl; lia.
Qed.

(** If the headers satisfying [Q] are finitely many and [next] leads from
    each of them to [NULL] or to a higher one that satisfies [Q], then the
    walk from any of them is a chain inside [Q]. *)
Lemma chain_exists m (S : list Z) (Q : Z -> Prop) :
  (forall x, Q x ->
     In x S /\ x <> 0 /\
     (hdr_next m x = 0 \/ (Q (hdr_next m x) /\ x < hdr_next m x))) ->
  forall p, p = 0 \/ Q p -> exists l, chain m p l /\ forall x, In x l -> Q x.
Proof.
  intros HQ.
  assert (H : forall n p,
            (count_from S p <= n)%nat -> p = 0 \/ Q p ->
            exists l, chain m p l /\ forall x, In x l -> Q x).
  { induction n as [|n IH]; intros p Hn [->|Hp].
    - exists []. split; [reflexivity | intros ? []].
    - destruct (HQ p Hp) as (Hin & _ & _).
      assert (Hf : In p (filter (fun y => p <=? y) S)).
      { apply filter_In. split; [exact Hin | apply Z.leb_le; lia]. }
      unfold count_from in Hn.
      destruct (filter (fun y => p <=? y) S); [contradiction | simpl in Hn; lia].
    - exists []. split; [reflexivity | intros ? []].
    - destruct (HQ p Hp) as (Hin & Hp0 & [Hnx|(Hq & Hlt)]).
      + exists [p]. split; [simpl; auto | intros x [->|[]]; exact Hp].
      + destruct (IH (hdr_next m p)) as (l & Hc & Hall); [|now right|].
        * pose proof (filter_ge_lt S p (hdr_next m p) Hlt Hin). lia.
        * exists (p :: l). split; [simpl; auto|].
          intros x [->|Hx]; [exact Hp | now apply Hall]. }
  intros p Hp. now apply (H (count_from S p)).
Qed.

(** ** Links of a well-formed list *)

Lemma chain_head_in m l p h : chain m p l -> In h l -> In p l.
Proof. destruct l; [contradiction|]. intros (-> & _) _. now left. Qed.

(** A block with [prev = NULL] is the head. *)
Lemma prev_null_head m l : forall p lo hi h,
  chain m p l -> ordered m lo l hi -> prev_linked m 0 l ->
  In h l -> hdr_prev m h = 0 -> h = p.
Proof.
  intros p lo hi h Hc Ho Hp Hin H0.
  destruct l as [|x t]; [contradiction|].
  destruct Hc as (-> & Hx & Hc). destruct Hp as (_ & Hp). destruct Ho as (_ & Ho).
  destruct Hin as [->|Hin]; [reflexivity|].
  destruct (prev_linked_in _ _ _ _ _ _ Hp Ho Hin) as [E|(I & _)].
  - congruence.
  - rewrite H0 in I. destruct (chain_nonzero m t _ 0 Hc I eq_refl).
Qed.

(** The successor of a block records the block as its [prev]. *)
Lemma next_prev m l : forall p q x,
  chain m p l -> prev_linked m q l -> In x l -> hdr_next m x <> 0 ->
  hdr_prev m (hdr_next m x) = x.
Proof.
  induction l as [|y t IH]; intros p q x Hc Hp Hin Hn; [contradiction|].
  destruct Hc as (-> & Hy & Hc). destruct Hp as (_ & Hp).
  destruct Hin as [->|Hin]; [|eapply IH; eassumption].
  destruct t as [|z t]; [simpl in Hc; contradiction|].
  destruct Hc as (-> & _). now destruct Hp.
Qed.


(** A chain survives any change of the memory that keeps the [next] fields
    of its headers. *)
Lemma chain_frame m m' l : forall p,
  (forall x, In x l -> hdr_next m' x = hdr_next m x) ->
  chain m p l -> chain m' p l.
Proof.
  induction l as [|y t IH]; intros p Hn Hc; [exact Hc|].
  destruct Hc as (-> & Hy & Hc). simpl. split; [reflexivity|]. split; [exact Hy|].
  rewrite Hn by now left. apply IH; [|exact Hc].
  intros x Hx. apply Hn. now right.
Qed.

(** A block that is not the head is the successor of its [prev]. *)
Lemma prev_next m l : forall p q h,
  chain m p l -> prev_linked m q l -> In h l -> h <> p ->
  In (hdr_prev m h) l /\ hdr_next m (hdr_prev m h) = h.
Proof.
  induction l as [|y t IH]; intros p q h Hc Hp Hin Hne; [contradiction|].
  destruct Hc as (-> & Hy & Hc). destruct Hp as (_ & Hp).
  destruct Hin as [->|Hin]; [contradiction|].
  destruct t as [|z t]; [contradiction|].
  pose proof Hc as (Ez & _). pose proof Hp as (Ey & _).
  destruct (Z.eq_dec h z) as [->|Hz].
  - rewrite Ey. split; [now left | exact Ez].
  - destruct (IH _ _ h Hc Hp Hin) as (I & E); [congruence|].
    split; [now right | exact E].
Qed.

(** Bypassing [h] in every [next] field takes [h] out of the chain. *)
Lemma chain_remove m m' h N : h <> 0 -> forall l p lo hi,
  chain m p l -> ordered m lo l hi ->
  (forall x, In x l -> x <> h ->
     hdr_next m' x = if hdr_next m x =? h then N else hdr_next m x) ->
  (In h l -> hdr_next m h = N) ->
  chain m' (if p =? h then N else p) (remove Z.eq_dec h l).
Proof.
  intros Hh0. induction l as [|y t IH]; intros p lo hi Hc Ho Hn HN.
  - simpl in Hc. subst p. destruct (Z.eqb_spec 0 h); [congruence | reflexivity].
  - destruct Hc as (-> & Hy & Hc). destruct Ho as (Hlo & Ho).
    pose proof (block_end_ge m y) as Hbe. pose proof HEADER_LENGHT_pos as HH.
    cbn [remove]. destruct (Z.eq_dec h y) as [->|Hne].
    + rewrite Z.eqb_refl. rewrite <- (HN (or_introl eq_refl)).
      assert (Hlater : forall x, In x t -> y < x).
      { intros x Hx. destruct (ordered_bounds _ _ _ _ _ Ho Hx). lia. }
      rewrite notin_remove by (intros Hx; specialize (Hlater _ Hx); lia).
      apply (chain_frame m); [|exact Hc].
      intros x Hx. specialize (Hlater x Hx). rewrite Hn; [|now right|lia].
      destruct (Z.eqb_spec (hdr_next m x) y) as [E|E]; [|reflexivity].
      destruct (chain_next_in _ _ _ _ _ _ Hc Ho Hx) as [?|(_ & L)]; [congruence|].
      pose proof (block_end_ge m x). lia.
    + destruct (Z.eqb_spec y h) as [?|_]; [congruence|].
      simpl. split; [reflexivity|]. split; [exact Hy|].
      rewrite Hn; [|now left|congruence].
      apply (IH _ (block_end m y) hi Hc Ho).
      * intros x Hx. apply Hn. now right.
      * intros Hin. apply HN. now right.
Qed.

End Lists.

(** * Introspection *)

Section Introspection.
Context {pf : Platform}.

Lemma wrap_add_l x y : wrap (wrap x + y) = wrap (x + y).
Proof. unfold wrap. apply Z.add_mod_idemp_l. pose proof modulus_pos; lia. Qed.

Lemma wrap_add_r x y : wrap (x + wrap y) = wrap (x + y).
Proof. unfold wrap. apply Z.add_mod_idemp_r. pose proof modulus_pos; lia. Qed.

Lemma wrap_sub_l x y : wrap (wrap x - y) = wrap (x - y).
Proof. unfold wrap. apply Zminus_mod_idemp_l. Qed.

Lemma wrap_sub_r x y : wrap (x - wrap y) = wrap (x - y).
Proof. unfold wrap. apply Zminus_mod_idemp_r. Qed.

Lemma wrap_decomp x : wrap x = x - (x / modulus) * modulus.
Proof. unfold wrap. rewrite Z.mod_eq by (pose proof modulus_pos; lia). lia. Qed.

Lemma wrap_congr x y k : x = y + k * modulus -> wrap x = wrap y.
Proof. intros ->. unfold wrap. apply Z_mod_plus_full. Qed.

Lemma last_cons (h : Z) t d : last (h :: t) d = last t h.
Proof.
  revert h d; induction t as [|x t IH]; intros h d; [reflexivity|].
  change (last (h :: x :: t) d) with (last (x :: t) d).
  now rewrite (IH x d), (IH x h).
Qed.

Lemma pointer_end_block_wrap m h : pointer_end_block m h = wrap (block_end m h).
Proof. reflexivity. Qed.

Lemma available_block_space_next a m h :
  hdr_next m h <> 0 ->
  available_block_space a m h = wrap (gap_after m h).
Proof.
  intros Hn. unfold available_block_space, gap_after.
  destruct (Z.eqb_spec (hdr_next m h) 0); [contradiction|].
  now rewrite pointer_end_block_wrap, wrap_sub_r.
Qed.

(** The loop, for any chain: every counter is the wrapped sum. *)
Lemma arena_info_loop_chain a m l : forall fuel block lst i,
  chain m block l -> (length l <= fuel)%nat ->
  wrap (allocated_size i) = allocated_size i ->
  wrap (fragmentation_bytes i) = fragmentation_bytes i ->
  wrap (allocated_blocks i) = allocated_blocks i ->
  arena_info_loop fuel a m block lst i
  = Some (mk_arena_info (total_size i) (used_size i)
            (wrap (allocated_size i + Zsum (map (footprint m) l)))
            (wrap (fragmentation_bytes i + Zsum (map (gap_after m) l)))
            (wrap (allocated_blocks i + Z.of_nat (length l))),
          last l lst).
Proof.
  induction l as [|h t IH]; intros fuel block lst i Hc Hf Ha Hg Hb.
  - simpl in Hc. subst block. destruct fuel; simpl; rewrite !Z.add_0_r, Ha, Hg, Hb;
      now destruct i.
  - destruct Hc as (-> & Hh & Hc). destruct fuel as [|fuel]; [simpl in Hf; lia|].
    cbn [arena_info_loop]. destruct (Z.eqb_spec h 0); [contradiction|].
    rewrite (IH fuel (hdr_next m h) h); [| exact Hc | simpl in Hf; lia | | | ].
    + rewrite last_cons. f_equal. f_equal.
      destruct (Z.eqb_spec (hdr_next m h) 0) as [E|E]; cbn [map Zsum fold_right length
        total_size used_size allocated_size fragmentation_bytes allocated_blocks];
        fold (Zsum (map (footprint m) t)); fold (Zsum (map (gap_after m) t)).
      * f_equal.
        -- rewrite wrap_add_l.
           apply wrap_congr with (k := - ((hdr_size m h + HEADER_LENGHT) / modulus)).
           rewrite wrap_decomp. unfold footprint. lia.
        -- unfold gap_after at 2. rewrite E. simpl. reflexivity.
        -- rewrite wrap_add_l. f_equal. lia.
      * f_equal.
        -- rewrite wrap_add_l.
           apply wrap_congr with (k := - ((hdr_size m h + HEADER_LENGHT) / modulus)).
           rewrite wrap_decomp. unfold footprint. lia.
        -- rewrite available_block_space_next by assumption.
           rewrite wrap_add_l.
           apply wrap_congr with (k := - (gap_after m h / modulus)).
           rewrite wrap_decomp. lia.
        -- rewrite wrap_add_l. f_equal. lia.
    + destruct (hdr_next m h =? 0); cbn; unfold wrap; apply Z.mod_mod; pose proof modulus_pos; lia.
    + destruct (hdr_next m h =? 0); cbn; [exact Hg|]. unfold wrap; apply Z.mod_mod; pose proof modulus_pos; lia.
    + destruct (hdr_next m h =? 0); cbn; unfold wrap; apply Z.mod_mod; pose proof modulus_pos; lia.
Qed.

(** Telescoping: footprints and gaps add up to the span of the list. *)
Lemma ordered_span m : forall l p lo hi,
  chain m p l -> ordered m lo l hi -> l <> [] ->
  lo <= p /\
  block_end m (last l 0) <= hi /\
  Zsum (map (footprint m) l) + Zsum (map (gap_after m) l)
    = block_end m (last l 0) - p /\
  0 <= Zsum (map (gap_after m) l) /\
  Z.of_nat (length l) <= Zsum (map (footprint m) l).
Proof.
  induction l as [|h t IH]; intros p lo hi Hc Ho Hne; [contradiction|].
  destruct Hc as (-> & Hh & Hc). destruct Ho as (Hlo & Ho).
  pose proof (load_range m (h + WORDSIZE)) as Hs. fold (hdr_size m h) in Hs.
  pose proof HEADER_LENGHT_pos as HH.
  rewrite last_cons. cbn [map Zsum fold_right length].
  fold (Zsum (map (footprint m) t)); fold (Zsum (map (gap_after m) t)).
  destruct t as [|h' t].
  - simpl in Hc, Ho. simpl. unfold gap_after, footprint, block_end in *.
    rewrite Hc. simpl. lia.
  - specialize (IH (hdr_next m h) (block_end m h) hi Hc Ho ltac:(discriminate)).
    rewrite last_cons in IH. rewrite last_cons.
    destruct IH as (I1 & I2 & I3 & I4 & I5).
    destruct Hc as (Hn & Hh' & _).
    assert (G : gap_after m h = hdr_next m h - block_end m h).
    { unfold gap_after. destruct (Z.eqb_spec (hdr_next m h) 0); congruence. }
    rewrite G, Nat2Z.inj_succ.
    set (F := Zsum (map (footprint m) (h' :: t))) in *.
    set (G' := Zsum (map (gap_after m) (h' :: t))) in *.
    set (E := block_end m (last t h')) in *.
    unfold footprint, block_end in *. lia.
Qed.


(** In an ordered list the last header is the one at the highest address. *)
Lemma ordered_last_highest m l : forall lo hi h,
  ordered m lo l hi -> In h l -> h <= last l 0.
Proof.
  induction l as [|x t IH]; intros lo hi h Ho Hin; [contradiction|].
  destruct Ho as (Hlo & Ho). rewrite last_cons.
  pose proof (hdr_size_nonneg m x) as Hs. pose proof HEADER_LENGHT_pos as HH.
  destruct t as [|y t]; [destruct Hin as [->|[]]; simpl; lia|].
  rewrite (last_cons y t x), <- (last_cons y t 0).
  destruct Hin as [->|Hin]; [|now apply (IH _ _ _ Ho)].
  specialize (IH _ _ y Ho (or_introl eq_refl)).
  destruct Ho as (Hy & _). unfold block_end in Hy. lia.
Qed.

(** C6: for an arena whose header list [l] is address-ordered and does not run
    past the address space, [arena_info] terminates and returns
    [allocated_blocks] = the number of headers, [allocated_size] = the sum of
    [size + HEADER_LENGHT] over the headers, [fragmentation_bytes] = the sum,
    over the headers that have a successor, of the gap up to that successor,
    and [used_size] = the distance from [start_addr] to the end of the last
    header, which is the one at the highest address ([0] for the empty list).
    [arena_info] takes the arena and the memory as arguments and yields only
    the statistics: it has no way to change either. *)
Theorem arena_info_stats fuel a m l hi :
  0 <= start_addr a -> hi < modulus ->
  chain m (head a) l -> ordered m (start_addr a) l hi ->
  (length l <= fuel)%nat ->
  arena_info fuel a m = Some (spec_stats a m l) /\
  (forall h, In h l -> h <= last l 0).
Proof.
  intros Hst Hhi Hc Ho Hf. split; [|intros h; now apply (ordered_last_highest m l (start_addr a) hi)].
  unfold arena_info, spec_stats.
  destruct l as [|h t].
  - simpl in Hc. rewrite Hc. reflexivity.
  - pose proof Hc as (Hh & Hh0 & _).
    destruct (Z.eqb_spec (head a) 0); [congruence|].
    rewrite (arena_info_loop_chain a m (h :: t)); cbn [allocated_size
      fragmentation_bytes allocated_blocks total_size used_size];
      try assumption; try apply wrap_0.
    destruct (ordered_span m (h :: t) (head a) (start_addr a) hi Hc Ho
                ltac:(discriminate)) as (I1 & I2 & I3 & I4 & I5).
    set (F := Zsum (map (footprint m) (h :: t))) in *.
    set (G := Zsum (map (gap_after m) (h :: t))) in *.
    set (L := Z.of_nat (length (h :: t))) in *.
    assert (HL : 0 < L) by (unfold L; simpl length; lia).
    rewrite !Z.add_0_l.
    change (wrap (last (h :: t) 0 + HEADER_LENGHT + hdr_size m (last (h :: t) 0)))
      with (wrap (block_end m (last (h :: t) 0))).
    rewrite wrap_sub_l.
    set (E := block_end m (last (h :: t) 0)) in *.
    rewrite !wrap_small by lia. reflexivity.
Qed.

End Introspection.

(** * Initialisation, resize in place, padding *)

Section Operations.
Context {pf : Platform}.

(** C4 (amended): [arena_init] takes no bounds.  It empties the list
    ([head = tail = NULL]) and leaves [start_addr] and [arena_size] as the
    host set them; it is a total function, so it cannot fail.  With the
    bounds already in place the result is the specification's
    [initialize]. *)
Theorem arena_init_empties_list a :
  head (arena_init a) = 0 /\ tail (arena_init a) = 0 /\
  start_addr (arena_init a) = start_addr a /\
  arena_size (arena_init a) = arena_size a /\
  arena_init a = spec_initialize (start_addr a) (arena_size a).
Proof. repeat split. Qed.

(** C9: [a_realloc(arena, ptr, 0)] on a block pointer returns the same
    non-null [ptr]; the arena is unchanged, the header keeps its links and
    has its [size] set to [0], and an address-ordered list that holds the
    block is still the chain from [head]: the block is neither released nor
    is [NULL] returned. *)
Theorem a_realloc_zero_keeps_block fuel a m ptr :
  HEADER_LENGHT <= ptr < modulus ->
  exists m',
    a_realloc fuel a m ptr 0 = Some (ptr, a, m') /\
    ptr <> 0 /\
    hdr_size m' (ptr - HEADER_LENGHT) = 0 /\
    hdr_prev m' (ptr - HEADER_LENGHT) = hdr_prev m (ptr - HEADER_LENGHT) /\
    hdr_next m' (ptr - HEADER_LENGHT) = hdr_next m (ptr - HEADER_LENGHT) /\
    (forall x, x < ptr - HEADER_LENGHT \/ ptr - HEADER_LENGHT + 2 * WORDSIZE <= x ->
               m' x = m x) /\
    (forall l lo hi,
        chain m (head a) l -> ordered m lo l hi -> In (ptr - HEADER_LENGHT) l ->
        chain m' (head a) l).
Proof.
  intros Hp. pose proof HEADER_LENGHT_pos as HH. pose proof WORDSIZE_pos as HW.
  pose proof (load_range m (ptr - HEADER_LENGHT + WORDSIZE)) as Hs.
  eexists. split.
  - apply a_realloc_keeps_block; [assumption|]. left.
    rewrite next_padding_size_0. apply Hs.
  - rewrite next_padding_size_0.
    destruct (resized_spec m (ptr - HEADER_LENGHT) 0) as (H1 & H2 & H3 & H4 & H5);
      [pose proof modulus_pos; lia|].
    split; [lia|]. split; [exact H1|]. split; [exact H3|]. split; [exact H4|].
    split; [exact H5|].
    intros l lo hi Hc Ho Hin. apply (chain_frame m); [|exact Hc].
    intros x Hx.
    destruct (ordered_disjoint _ _ _ _ _ _ Ho Hx Hin) as [->|[Hd|Hd]];
      [exact H4| |]; unfold hdr_next; apply load_ext; intros y Hy; apply H5;
      pose proof (block_end_ge m x); pose proof (block_end_ge m (ptr - HEADER_LENGHT));
      unfold HEADER_LENGHT in *; lia.
Qed.

(** C10: the padding is computed modulo [2^w].  For every request above
    [SIZE_MAX - (WORDSIZE - 1)] the padded size wraps to [0], which is below
    the request; [a_malloc] then behaves as for a request of [0] bytes, so on
    an empty arena with room for one header it returns a non-null pointer to
    a block of size [0]. *)
Theorem next_padding_size_wraps_around size :
  SIZE_MAX - (WORDSIZE - 1) < size <= SIZE_MAX ->
  next_padding_size size = 0 /\
  next_padding_size size < size /\
  (forall fuel a m, a_malloc fuel a m size = a_malloc fuel a m 0) /\
  (forall fuel a m,
      head a = 0 -> 0 < start_addr a ->
      start_addr a + HEADER_LENGHT < modulus ->
      HEADER_LENGHT <= arena_size a ->
      exists a' m',
        a_malloc fuel a m size = Some (start_addr a + HEADER_LENGHT, a', m') /\
        start_addr a + HEADER_LENGHT <> 0 /\
        head a' = start_addr a /\
        hdr_size m' (start_addr a) = 0).
Proof.
  intros Hs. pose proof WORDSIZE_pos as HW. pose proof modulus_pos as HM.
  unfold SIZE_MAX in Hs.
  pose proof HEADER_LENGHT_lt_modulus as HHM. pose proof HEADER_LENGHT_pos as HH.
  unfold HEADER_LENGHT in HHM.
  assert (H0 : next_padding_size size = 0).
  { rewrite next_padding_size_eq. unfold wrap.
    replace (size + (WORDSIZE - 1)) with ((size + (WORDSIZE - 1) - modulus) + 1 * modulus) by lia.
    rewrite Z.mod_add by lia. rewrite Z.mod_small by lia.
    rewrite Z.div_small by lia. lia. }
  split; [exact H0|]. split; [lia|].
  assert (Hm : forall fuel a m, a_malloc fuel a m size = a_malloc fuel a m 0).
  { intros. unfold a_malloc. now rewrite H0, next_padding_size_0. }
  split; [exact Hm|].
  intros fuel a m Hh Hst Hend Hsz. rewrite Hm.
  unfold a_malloc. rewrite next_padding_size_0, Hh.
  unfold compute_block_size, header_to_dataptr. rewrite Z.add_0_l.
  rewrite (wrap_small HEADER_LENGHT), (wrap_small (_ + _)) by lia.
  destruct (Z.ltb_spec (start_addr a) 0); [lia|]. cbn [andb Z.eqb].
  destruct (Z.ltb_spec (arena_size a) HEADER_LENGHT); [lia|].
  do 2 eexists. split; [reflexivity|]. split; [lia|]. split; [reflexivity|].
  fields. mem_simpl. apply wrap_0.
Qed.

End Operations.

(** * Allocation on a well-formed arena *)

Section Allocation.
Context {pf : Platform}.

(** The search of [a_malloc] on an ordered chain: it stops at a block of
    the list; every other block lies before it or from its successor on. *)
Lemma first_fit_ordered a m bs l : forall fuel p lo hi,
  chain m p l -> ordered m lo l hi -> l <> [] -> (length l <= S fuel)%nat ->
  exists actual,
    first_fit fuel a m p bs = Some actual /\ In actual l /\
    (forall h', In h' l ->
       h' = actual \/ block_end m h' <= actual \/
       (hdr_next m actual <> 0 /\ hdr_next m actual <= h')) /\
    (hdr_next m actual <> 0 -> bs <= available_block_space a m actual).
Proof.
  induction l as [|x t IH]; intros fuel p lo hi Hc Ho Hne Hf; [contradiction|].
  destruct Hc as (-> & Hx & Hc). destruct Ho as (Hlo & Ho).
  destruct t as [|y t].
  - simpl in Hc. exists x. destruct fuel; cbn [first_fit]; rewrite Hc; simpl.
    all: repeat split; auto; try congruence; intros h' [->|[]]; now left.
  - pose proof Hc as (E & Hy & _).
    assert (Hn : hdr_next m x <> 0) by congruence.
    assert (Hrest : forall h', In h' (x :: y :: t) ->
              h' = x \/ block_end m h' <= x \/
              (hdr_next m x <> 0 /\ hdr_next m x <= h')).
    { intros h' [->|Hin]; [now left|]. right; right. split; [exact Hn|].
      rewrite E. destruct Ho as (_ & Ho).
      destruct Hin as [->|Hin]; [lia|].
      destruct (ordered_bounds _ _ _ _ _ Ho Hin). pose proof (block_end_ge m y).
      pose proof HEADER_LENGHT_pos. lia. }
    destruct (Z.leb_spec bs (available_block_space a m x)) as [Hge|Hlt].
    + exists x. destruct fuel; cbn [first_fit];
        destruct (Z.eqb_spec (hdr_next m x) 0); try contradiction;
        destruct (Z.leb_spec bs (available_block_space a m x)); try lia;
        (repeat split; [now left | exact Hrest | auto]).
    + destruct fuel as [|fuel]; [simpl in Hf; lia|].
      destruct (IH fuel (hdr_next m x) (block_end m x) hi Hc Ho ltac:(discriminate)
                  ltac:(simpl in Hf |- *; lia)) as (act & Hff & Hin & Hoth & Hav).
      exists act. cbn [first_fit].
      destruct (Z.eqb_spec (hdr_next m x) 0); try contradiction.
      destruct (Z.leb_spec bs (available_block_space a m x)); try lia.
      repeat split; [exact Hff | now right | | exact Hav].
      intros h' [->|Hin']; [|now apply Hoth].
      right; left. now destruct (ordered_bounds _ _ _ _ _ Ho Hin).
Qed.


Lemma a_malloc_leading_post a m l np c :
  well_formed a m l -> 0 <= np ->
  start_addr a + arena_size a + np + HEADER_LENGHT < modulus ->
  start_addr a + HEADER_LENGHT + np <= head a -> l <> [] ->
  malloc_post a m l np (start_addr a + HEADER_LENGHT)
    (set_canary
       (set_next (set_prev (set_size m (start_addr a) np) (start_addr a) 0)
          (start_addr a) (head a)) (start_addr a) c).
Proof.
  intros (Hst & Hsz & Hend & Hc & Ho & Hp) Hnp Hnw Hgap Hne.
  pose proof WORDSIZE_pos as HW. pose proof HEADER_LENGHT_pos as HH.
  destruct l as [|h0 t]; [contradiction|]. pose proof Hc as (Hh0 & _).
  assert (Hall : forall h, In h (h0 :: t) -> head a <= h).
  { intros h [->|Hin]; [lia|]. destruct Ho as (_ & Ho).
    destruct (ordered_bounds _ _ _ _ _ Ho Hin). pose proof (block_end_ge m h0). lia. }
  unfold malloc_post. replace (start_addr a + HEADER_LENGHT - HEADER_LENGHT)
    with (start_addr a) by lia.
  split; [lia|]. split; [lia|]. split; [lia|]. split.
  - intros h Hin. left. specialize (Hall h Hin). lia.
  - split.
    + intros x Hx _. fields. mem_simpl. reflexivity.
    + intros h Hin. specialize (Hall h Hin). fields. mem_simpl. auto.
Qed.


Lemma a_malloc_insert_post a m l np actual c1 c2 c3 :
  well_formed a m l -> 0 <= np ->
  start_addr a + arena_size a + np + HEADER_LENGHT < modulus ->
  In actual l ->
  (forall h', In h' l ->
     h' = actual \/ block_end m h' <= actual \/
     (hdr_next m actual <> 0 /\ hdr_next m actual <= h')) ->
  (hdr_next m actual <> 0 ->
   block_end m actual + HEADER_LENGHT + np <= hdr_next m actual) ->
  let nb := block_end m actual in
  let N := hdr_next m actual in
  let m4 := set_canary (set_next (set_prev (set_size m nb np) nb actual) nb N) nb c1 in
  let m6 := set_canary (set_next m4 actual nb) actual c2 in
  malloc_post a m l np (nb + HEADER_LENGHT)
    (if N =? 0 then m6 else set_canary (set_prev m6 N nb) N c3).
Proof.
  intros (Hst & Hsz & Hend & Hc & Ho & Hp) Hnp Hnw Hact Hoth Hgap nb N m4 m6.
  pose proof WORDSIZE_pos as HW. pose proof HEADER_LENGHT_pos as HH.
  destruct (ordered_bounds _ _ _ _ _ Ho Hact) as (Hlo & Hhi). fold nb in Hhi.
  pose proof (block_end_ge m actual) as Hbe. fold nb in Hbe.
  assert (HN : N = 0 \/ (In N l /\ nb <= N)).
  { apply (chain_next_in _ _ _ _ _ _ Hc Ho Hact). }
  unfold malloc_post. replace (nb + HEADER_LENGHT - HEADER_LENGHT) with nb by lia.
  split; [lia|]. split; [lia|]. split; [lia|].
  assert (Hfresh : fresh_block m l nb np).
  { intros h Hin. destruct (Hoth h Hin) as [->|[Hb|(Hn & Hle)]].
    - right. unfold nb. lia.
    - right. lia.
    - left. specialize (Hgap Hn). fold nb in Hgap. lia. }
  split; [exact Hfresh|].
  assert (Hdis : forall h, In h l ->
            (nb + HEADER_LENGHT <= h \/ h + HEADER_LENGHT <= nb) /\
            (h = actual \/ h + HEADER_LENGHT <= actual \/ actual + HEADER_LENGHT <= h) /\
            (N = 0 \/ h = N \/ h + HEADER_LENGHT <= N \/ N + HEADER_LENGHT <= h)).
  { intros h Hin. pose proof (block_end_ge m h). split; [|split].
    - destruct (Hfresh h Hin); lia.
    - destruct (ordered_disjoint _ _ _ _ _ _ Ho Hin Hact) as [?|[?|?]]; [auto|lia|].
      right; right. lia.
    - destruct HN as [?|(HNin & _)]; [now left|]. right.
      pose proof (block_end_ge m N).
      destruct (ordered_disjoint _ _ _ _ _ _ Ho Hin HNin) as [?|[?|?]]; [auto|lia|lia]. }
  assert (HactN : N = 0 \/ actual + HEADER_LENGHT <= N) by (destruct HN; lia).
  split.
  - intros x Hx Hxl. pose proof (Hxl actual Hact) as Hxa.
    destruct (Z.eqb_spec N 0) as [E|E].
    + subst m6 m4. fields. mem_simpl. reflexivity.
    + destruct HN as [?|(HNin & _)]; [contradiction|]. pose proof (Hxl N HNin) as HxN.
      subst m6 m4. fields. mem_simpl. reflexivity.
  - intros h Hin. destruct (Hdis h Hin) as (D1 & D2 & D3).
    destruct (Z.eqb_spec N 0) as [E|E].
    + subst m6 m4. fields.
      destruct D2 as [->|D2].
      * mem_simpl. rewrite wrap_small by (unfold nb, block_end in *; lia). auto.
      * mem_simpl. auto.
    + destruct HactN as [?|HaN]; [contradiction|].
      destruct D3 as [?|D3]; [contradiction|].
      subst m6 m4. fields.
      destruct D2 as [->|D2].
      * destruct D3 as [D3|D3]; [lia|]. mem_simpl.
        rewrite wrap_small by (unfold nb, block_end in *; lia). auto.
      * destruct D3 as [->|D3].
        -- mem_simpl. rewrite wrap_small by (unfold nb, block_end in *; lia). auto.
        -- mem_simpl. auto.
Qed.


Lemma a_malloc_leading_links a m l np c :
  well_formed a m l -> 0 <= np ->
  start_addr a + arena_size a + np + HEADER_LENGHT < modulus ->
  start_addr a + HEADER_LENGHT + np <= head a -> l <> [] ->
  malloc_links a m l (start_addr a) (set_head a (start_addr a))
    (set_canary
       (set_next (set_prev (set_size m (start_addr a) np) (start_addr a) 0)
          (start_addr a) (head a)) (start_addr a) c).
Proof.
  intros (Hst & Hsz & Hend & Hc & Ho & Hp) Hnp Hnw Hgap Hne.
  pose proof WORDSIZE_pos as HW. pose proof HEADER_LENGHT_pos as HH.
  destruct l as [|h0 t]; [contradiction|]. pose proof Hc as (Hh0 & _).
  assert (Hall : forall h, In h (h0 :: t) -> head a <= h).
  { intros h [->|Hin]; [lia|]. destruct Ho as (_ & Ho).
    destruct (ordered_bounds _ _ _ _ _ Ho Hin). pose proof (block_end_ge m h0). lia. }
  assert (Hhr : 0 <= head a < modulus).
  { destruct (ordered_bounds _ _ _ _ _ Ho (or_introl eq_refl)).
    pose proof (block_end_ge m h0). lia. }
  left. split; [reflexivity|]. split; [|split; [lia|]].
  - fields. mem_simpl. apply wrap_small. exact Hhr.
  - intros x Hin. specialize (Hall x Hin). fields. mem_simpl. auto.
Qed.

Lemma a_malloc_insert_links a m l np actual c1 c2 c3 :
  well_formed a m l -> 0 <= np ->
  start_addr a + arena_size a + np + HEADER_LENGHT < modulus ->
  In actual l ->
  (forall h', In h' l ->
     h' = actual \/ block_end m h' <= actual \/
     (hdr_next m actual <> 0 /\ hdr_next m actual <= h')) ->
  (hdr_next m actual <> 0 ->
   block_end m actual + HEADER_LENGHT + np <= hdr_next m actual) ->
  let nb := block_end m actual in
  let N := hdr_next m actual in
  let m4 := set_canary (set_next (set_prev (set_size m nb np) nb actual) nb N) nb c1 in
  let m6 := set_canary (set_next m4 actual nb) actual c2 in
  forall a1, head a1 = head a ->
  malloc_links a m l nb a1
    (if N =? 0 then m6 else set_canary (set_prev m6 N nb) N c3).
Proof.
  intros (Hst & Hsz & Hend & Hc & Ho & Hp) Hnp Hnw Hact Hoth Hgap nb N m4 m6 a1 Ha1.
  pose proof WORDSIZE_pos as HW. pose proof HEADER_LENGHT_pos as HH.
  destruct (ordered_bounds _ _ _ _ _ Ho Hact) as (Hlo & Hhi). fold nb in Hhi.
  pose proof (block_end_ge m actual) as Hbe. fold nb in Hbe.
  pose proof (load_range m (actual + 3 * WORDSIZE)) as HNr.
  fold (hdr_next m actual) in HNr. fold N in HNr.
  assert (HN : N = 0 \/ (In N l /\ nb <= N)).
  { apply (chain_next_in _ _ _ _ _ _ Hc Ho Hact). }
  assert (Hfresh : forall h, In h l ->
            nb + HEADER_LENGHT + np <= h \/ block_end m h <= nb).
  { intros h Hin. destruct (Hoth h Hin) as [->|[Hb|(Hn & Hle)]].
    - right. unfold nb. lia.
    - right. lia.
    - left. specialize (Hgap Hn). fold nb in Hgap. lia. }
  assert (Hdis : forall h, In h l ->
            (nb + HEADER_LENGHT <= h \/ h + HEADER_LENGHT <= nb) /\
            (h = actual \/ h + HEADER_LENGHT <= actual \/ actual + HEADER_LENGHT <= h) /\
            (N = 0 \/ h = N \/ h + HEADER_LENGHT <= N \/ N + HEADER_LENGHT <= h)).
  { intros h Hin. pose proof (block_end_ge m h). split; [|split].
    - destruct (Hfresh h Hin); lia.
    - destruct (ordered_disjoint _ _ _ _ _ _ Ho Hin Hact) as [?|[?|?]]; [auto|lia|].
      right; right. lia.
    - destruct HN as [?|(HNin & _)]; [now left|]. right.
      pose proof (block_end_ge m N).
      destruct (ordered_disjoint _ _ _ _ _ _ Ho Hin HNin) as [?|[?|?]]; [auto|lia|lia]. }
  assert (HactN : N = 0 \/ actual + HEADER_LENGHT <= N) by (destruct HN; lia).
  assert (HnbN : N = 0 \/ nb + HEADER_LENGHT <= N).
  { destruct (Z.eq_dec N 0) as [?|Hn]; [now left|]. right.
    specialize (Hgap Hn). fold nb in Hgap. lia. }
  assert (Hnbr : 0 <= nb < modulus) by lia.
  right. exists actual. split; [exact Hact|]. split; [reflexivity|].
  split; [exact Ha1|].
  destruct (Z.eqb_spec N 0) as [E|E].
  - (* last block *)
    split; [|split].
    + subst m6 m4. fields. mem_simpl. apply wrap_small. exact HNr.
    + subst m6 m4. fields. mem_simpl. apply wrap_small. exact Hnbr.
    + split.
      * intros x Hin Hx. destruct (Hdis x Hin) as (D1 & D2 & _).
        destruct D2 as [?|D2]; [contradiction|].
        subst m6 m4. fields. mem_simpl. reflexivity.
      * intros x Hin. destruct (Hdis x Hin) as (D1 & D2 & _).
        assert (Hx0 : x <> 0) by (eapply chain_nonzero; eassumption).
        fold N. destruct (Z.eqb_spec x N) as [?|_]; [congruence|].
        subst m6 m4. fields. destruct D2 as [->|D2]; mem_simpl; reflexivity.
  - destruct HactN as [?|HaN]; [contradiction|].
    destruct HnbN as [?|HbN]; [contradiction|].
    split; [|split].
    + subst m6 m4. fields. mem_simpl. apply wrap_small. exact HNr.
    + subst m6 m4. fields. mem_simpl. apply wrap_small. exact Hnbr.
    + split.
      * intros x Hin Hx. destruct (Hdis x Hin) as (D1 & D2 & D3).
        destruct D2 as [?|D2]; [contradiction|].
        destruct D3 as [?|D3]; [contradiction|].
        subst m6 m4. fields. destruct D3 as [->|D3]; mem_simpl; reflexivity.
      * intros x Hin. destruct (Hdis x Hin) as (D1 & D2 & D3).
        destruct D3 as [?|D3]; [contradiction|].
        fold N. destruct (Z.eqb_spec x N) as [->|Hx].
        -- subst m6 m4. fields. mem_simpl. apply wrap_small. exact Hnbr.
        -- destruct D3 as [?|D3]; [contradiction|].
           subst m6 m4. fields. destruct D2 as [->|D2]; mem_simpl; reflexivity.
Qed.

Lemma a_malloc_well_formed fuel a m l size :
  well_formed a m l -> l <> [] -> (length l <= fuel)%nat ->
  start_addr a + arena_size a + next_padding_size size + HEADER_LENGHT < modulus ->
  exists q a1 m1,
    a_malloc fuel a m size = Some (q, a1, m1) /\
    (q = 0 -> a1 = a /\ m1 = m) /\
    (q <> 0 -> malloc_post a m l (next_padding_size size) q m1 /\
               malloc_links a m l (q - HEADER_LENGHT) a1 m1).
Proof.
  intros Hwf Hne Hf Hnw. pose proof Hwf as (Hst & Hsz & Hend & Hc & Ho & Hp).
  pose proof WORDSIZE_pos as HW. pose proof HEADER_LENGHT_pos as HH.
  pose proof (next_padding_size_range size) as Hnp.
  set (np := next_padding_size size) in *.
  unfold a_malloc. fold np. unfold compute_block_size, header_to_dataptr.
  rewrite (wrap_small (np + HEADER_LENGHT)) by lia.
  assert (Hh : In (head a) l /\ head a <> 0).
  { destruct l as [|h0 t]; [contradiction|]. destruct Hc as (-> & ? & _).
    split; [now left | assumption]. }
  destruct Hh as (Hhin & Hh0).
  destruct (ordered_bounds _ _ _ _ _ Ho Hhin) as (Hhlo & Hhhi).
  pose proof (block_end_ge m (head a)) as Hhbe.
  rewrite (wrap_small (head a - start_addr a)) by lia.
  destruct ((start_addr a <? head a)
            && (np + HEADER_LENGHT <=? head a - start_addr a)) eqn:Hlead.
  - (* leading gap *)
    apply andb_true_iff in Hlead. destruct Hlead as (Hlt & Hfit).
    apply Z.ltb_lt in Hlt. apply Z.leb_le in Hfit.
    rewrite wrap_small by lia. do 3 eexists. split; [reflexivity|].
    split; [intros; lia|]. intros _.
    replace (start_addr a + HEADER_LENGHT - HEADER_LENGHT) with (start_addr a) by lia.
    split; [apply a_malloc_leading_post | apply a_malloc_leading_links];
      try assumption; lia.
  - (* search from the head *)
    clear Hlead.
    destruct (Z.eqb_spec (head a) 0); [contradiction|].
    destruct (first_fit_ordered a m (np + HEADER_LENGHT) l fuel (head a) _ _ Hc Ho Hne
                ltac:(lia)) as (actual & Hff & Hact & Hoth & Hav).
    rewrite Hff.
    destruct (ordered_bounds _ _ _ _ _ Ho Hact) as (Halo & Hahi).
    pose proof (block_end_ge m actual) as Habe.
    assert (Hpe : pointer_end_block m actual = block_end m actual).
    { rewrite pointer_end_block_wrap. apply wrap_small. lia. }
    rewrite Hpe. rewrite (wrap_small (start_addr a + arena_size a)) by lia.
    rewrite (wrap_small (block_end m actual + np)) by lia.
    destruct (Z.ltb_spec (start_addr a + arena_size a) (block_end m actual + np)).
    { do 3 eexists. split; [reflexivity|]. split; [auto|]. intros Hq; now elim Hq. }
    rewrite (wrap_small (block_end m actual + HEADER_LENGHT)) by lia.
    assert (HN2 : hdr_next (set_prev (set_size m (block_end m actual) np)
                              (block_end m actual) actual) actual
                  = hdr_next m actual).
    { fields. mem_simpl. reflexivity. }
    rewrite HN2.
    assert (Hgap : hdr_next m actual <> 0 ->
                   block_end m actual + HEADER_LENGHT + np <= hdr_next m actual).
    { intros Hn. specialize (Hav Hn).
      destruct (chain_next_in _ _ _ _ _ _ Hc Ho Hact) as [?|(HNin & HNle)];
        [contradiction|].
      destruct (ordered_bounds _ _ _ _ _ Ho HNin) as (_ & HNhi).
      pose proof (block_end_ge m (hdr_next m actual)).
      rewrite available_block_space_next in Hav by assumption.
      unfold gap_after in Hav. destruct (Z.eqb_spec (hdr_next m actual) 0);
        [contradiction|].
      rewrite wrap_small in Hav by lia. lia. }
    match goal with
    | |- context [hdr_next ?mm (block_end m actual) =? 0] =>
        assert (HN6 : hdr_next mm (block_end m actual) = hdr_next m actual)
    end.
    { pose proof (load_range m (actual + 3 * WORDSIZE)) as Hr.
      generalize (compute_canary
        (set_next (set_prev (set_size m (block_end m actual) np)
           (block_end m actual) actual) (block_end m actual) (hdr_next m actual))
        (block_end m actual)). intros c1.
      match goal with |- context [set_canary ?mm actual ?c] =>
        generalize c end. intros c2.
      fields. mem_simpl. apply wrap_small. exact Hr. }
    rewrite HN6. clear HN6 HN2.
    match goal with
    | |- context [set_canary ?m7 (hdr_next m actual) ?c3] =>
      match m7 with
      | set_prev (set_canary ?m5 actual ?c2) _ _ =>
        match m5 with
        | set_next (set_canary _ _ ?c1) _ _ =>
            pose proof (a_malloc_insert_post a m l np actual c1 c2 c3
                          Hwf ltac:(lia) Hnw Hact Hoth Hgap) as Hpost;
            pose proof (a_malloc_insert_links a m l np actual c1 c2 c3
                          Hwf ltac:(lia) Hnw Hact Hoth Hgap) as Hlinks
        end
      end
    end.
    cbv zeta in Hpost, Hlinks.
    assert (Hnb : block_end m actual + HEADER_LENGHT - HEADER_LENGHT
                  = block_end m actual) by lia.
    destruct (Z.eqb_spec (hdr_next m actual) 0) as [E|E];
      (do 3 eexists; split; [reflexivity|]; split; [intros; lia|]; intros _;
       split; [exact Hpost | rewrite Hnb; apply Hlinks; reflexivity]).
Qed.



(** For a block that ends before its successor, or before the end of the
    region when it is the last one, [available_block_space] is the gap
    behind it. *)
Lemma available_block_space_gap a m h :
  0 <= h -> 0 <= start_addr a -> start_addr a + arena_size a < modulus ->
  block_end m h <= (if hdr_next m h =? 0 then start_addr a + arena_size a
                    else hdr_next m h) ->
  available_block_space a m h
  = (if hdr_next m h =? 0 then start_addr a + arena_size a else hdr_next m h)
    - block_end m h.
Proof.
  intros Hh Hst Hend Hle. pose proof (block_end_ge m h) as Hbe.
  pose proof HEADER_LENGHT_pos as HH.
  pose proof (load_range m (h + 3 * WORDSIZE)) as Hn. fold (hdr_next m h) in Hn.
  unfold available_block_space. rewrite pointer_end_block_wrap.
  destruct (Z.eqb_spec (hdr_next m h) 0).
  - rewrite wrap_sub_l, wrap_sub_r. apply wrap_small. lia.
  - rewrite wrap_sub_r. apply wrap_small. lia.
Qed.

(** The leading-gap branch of [a_malloc] writes the new header and nothing
    else: every byte outside it, the old head's header included, is left as
    it was. *)
Lemma leading_gap_writes_only_new_header fuel a m size :
  start_addr a < head a ->
  compute_block_size (next_padding_size size) <= wrap (head a - start_addr a) ->
  exists m',
    a_malloc fuel a m size
    = Some (header_to_dataptr (start_addr a), set_head a (start_addr a), m') /\
    forall x, x < start_addr a \/ start_addr a + HEADER_LENGHT <= x -> m' x = m x.
Proof.
  intros Hlt Hfit. unfold a_malloc. pose proof WORDSIZE_pos as HW.
  destruct (Z.ltb_spec (start_addr a) (head a)); [|lia].
  destruct (Z.leb_spec (compute_block_size (next_padding_size size))
              (wrap (head a - start_addr a))); [|lia].
  cbn [andb]. eexists. split; [reflexivity|].
  intros x Hx. fields. mem_simpl. reflexivity.
Qed.

End Allocation.

(** * Release *)

Section Release.
Context {pf : Platform}.

(** [a_free] writes at most the [next] field of the recorded predecessor and
    the [prev] field of the recorded successor. *)
Lemma a_free_frame a m ptr x :
  let h := ptr_to_header_ptr ptr in
  let P := hdr_prev m h in
  let N := hdr_next m h in
  (P <> 0 -> P + HEADER_LENGHT <= h \/ h + HEADER_LENGHT <= P) ->
  (P <> 0 -> x < P + 3 * WORDSIZE \/ P + 4 * WORDSIZE <= x) ->
  (N <> 0 -> x < N + 2 * WORDSIZE \/ N + 3 * WORDSIZE <= x) ->
  snd (a_free a m ptr) x = m x.
Proof.
  intros h P N Hsep HxP HxN. pose proof WORDSIZE_pos as HW.
  unfold a_free. destruct (Z.eqb_spec ptr 0); [reflexivity|].
  fold h. fold P. fold N.
  destruct (Z.eqb_spec P 0) as [HP|HP].
  - fold N. destruct (Z.eqb_spec N 0) as [HN|HN]; cbn [snd]; [reflexivity|].
    specialize (HxN HN). fields. mem_simpl. reflexivity.
  - specialize (Hsep HP). specialize (HxP HP).
    assert (HN1 : hdr_next (set_next m P N) h = N).
    { unfold N. fields. mem_simpl. reflexivity. }
    rewrite HN1.
    destruct (Z.eqb_spec N 0) as [HN|HN]; cbn [snd].
    + fields. mem_simpl. reflexivity.
    + specialize (HxN HN). fields. mem_simpl. reflexivity.
Qed.

(** The head and the [next] fields after [a_free]. *)
Lemma a_free_links a m ptr :
  ptr <> 0 ->
  let h := ptr_to_header_ptr ptr in
  let P := hdr_prev m h in
  let N := hdr_next m h in
  (P <> 0 -> P + HEADER_LENGHT <= h \/ h + HEADER_LENGHT <= P) ->
  head (fst (a_free a m ptr)) = (if P =? 0 then N else head a) /\
  forall x,
    (P <> 0 -> x = P \/ x + HEADER_LENGHT <= P \/ P + HEADER_LENGHT <= x) ->
    (N <> 0 -> x = N \/ x + HEADER_LENGHT <= N \/ N + HEADER_LENGHT <= x) ->
    hdr_next (snd (a_free a m ptr)) x
    = if negb (P =? 0) && (x =? P) then N else hdr_next m x.
Proof.
  intros Hptr h P N Hsep. pose proof WORDSIZE_pos as HW.
  pose proof (load_range m (h + 3 * WORDSIZE)) as HNr.
  fold (hdr_next m h) in HNr. fold N in HNr.
  unfold a_free. destruct (Z.eqb_spec ptr 0); [contradiction|].
  fold h. fold P. fold N.
  destruct (Z.eqb_spec P 0) as [HP|HP]; cbn [negb andb].
  - fold N. destruct (Z.eqb_spec N 0) as [HN|HN]; cbn [fst snd head set_head set_tail].
    + split; [reflexivity|]. reflexivity.
    + split; [reflexivity|]. intros x _ HxN. specialize (HxN HN).
      fields. destruct HxN as [->|HxN]; mem_simpl; reflexivity.
  - specialize (Hsep HP).
    assert (HN1 : hdr_next (set_next m P N) h = N).
    { unfold N. fields. mem_simpl. reflexivity. }
    rewrite HN1.
    destruct (Z.eqb_spec N 0) as [HN|HN]; cbn [fst snd head set_head set_tail].
    + split; [reflexivity|]. intros x HxP _. specialize (HxP HP).
      destruct (Z.eqb_spec x P) as [->|Hx].
      * fields. mem_simpl. apply wrap_small. exact HNr.
      * destruct HxP as [?|HxP]; [contradiction|]. fields. mem_simpl. reflexivity.
    + split; [reflexivity|]. intros x HxP HxN.
      specialize (HxP HP). specialize (HxN HN).
      destruct (Z.eqb_spec x P) as [->|Hx].
      * fields. destruct HxN as [HPN|HxN].
        -- rewrite <- HPN. mem_simpl. apply wrap_small. rewrite HPN. exact HNr.
        -- mem_simpl. apply wrap_small. exact HNr.
      * destruct HxP as [?|HxP]; [contradiction|].
        fields. destruct HxN as [->|HxN]; mem_simpl; reflexivity.
Qed.

(** On a well-formed arena [a_free] takes the block out of the list. *)
Lemma a_free_chain a m l ptr :
  well_formed a m l -> In (ptr - HEADER_LENGHT) l ->
  chain (snd (a_free a m ptr)) (head (fst (a_free a m ptr)))
        (remove Z.eq_dec (ptr - HEADER_LENGHT) l).
Proof.
  intros (Hst & Hsz & Hend & Hc & Ho & Hp) Hin.
  set (h := ptr - HEADER_LENGHT) in *.
  pose proof HEADER_LENGHT_pos as HH.
  destruct (ordered_bounds _ _ _ _ _ Ho Hin) as (Hhlo & Hhhi).
  pose proof (block_end_ge m h) as Hhbe.
  assert (Hptr : HEADER_LENGHT <= ptr < modulus) by (unfold h in *; lia).
  assert (Hh : ptr_to_header_ptr ptr = h) by (now apply ptr_to_header_ptr_eq).
  assert (Hh0 : h <> 0) by lia.
  pose proof (prev_linked_in _ _ _ _ _ _ Hp Ho Hin) as HPh.
  pose proof (chain_next_in _ _ _ _ _ _ Hc Ho Hin) as HNh.
  assert (Hdis : forall x y, In x l -> In y l ->
            x = y \/ x + HEADER_LENGHT <= y \/ y + HEADER_LENGHT <= x).
  { intros x y Hx Hy. pose proof (block_end_ge m x). pose proof (block_end_ge m y).
    destruct (ordered_disjoint _ _ _ _ _ _ Ho Hx Hy) as [?|[?|?]]; [auto|lia|lia]. }
  assert (Hfirst : hdr_prev m (head a) = 0 /\ In (head a) l).
  { destruct l as [|y t]; [contradiction|].
    destruct Hc as (Ey & _). destruct Hp as (Hy & _). split; [congruence|].
    left. congruence. }
  pose proof (a_free_links a m ptr ltac:(lia)) as Hfree.
  cbv zeta in Hfree. rewrite Hh in Hfree.
  destruct Hfree as (Hhead & Hnx).
  { intros HP0. destruct HPh as [?|(I & L)]; [contradiction|].
    pose proof (block_end_ge m (hdr_prev m h)). lia. }
  assert (Hhd : head (fst (a_free a m ptr))
                = if head a =? h then hdr_next m h else head a).
  { rewrite Hhead. destruct (Z.eqb_spec (hdr_prev m h) 0) as [E|E].
    - rewrite (prev_null_head m l _ _ _ h Hc Ho Hp Hin E), Z.eqb_refl. reflexivity.
    - destruct (Z.eqb_spec (head a) h) as [E'|E']; [|reflexivity].
      rewrite E' in Hfirst. destruct Hfirst. contradiction. }
  rewrite Hhd.
  apply (chain_remove m _ h (hdr_next m h) Hh0 l (head a) _ _ Hc Ho); [|reflexivity].
  intros x Hx Hxh. rewrite Hnx.
  - destruct (Z.eqb_spec (hdr_prev m h) 0) as [E|E]; cbn [negb andb].
    + destruct (Z.eqb_spec (hdr_next m x) h) as [E'|E']; [|reflexivity].
      rewrite <- E' in E. rewrite (next_prev m l _ 0 x Hc Hp Hx) in E; [|congruence].
      destruct (chain_nonzero m l _ x Hc Hx E).
    + destruct (Z.eqb_spec x (hdr_prev m h)) as [E1|E1],
               (Z.eqb_spec (hdr_next m x) h) as [E2|E2]; try reflexivity.
      * exfalso. apply E2. rewrite E1.
        apply (prev_next m l (head a) 0 h Hc Hp Hin).
        intros Eh. rewrite Eh in E. destruct Hfirst. contradiction.
      * exfalso. apply E1. rewrite <- E2.
        symmetry. apply (next_prev m l _ 0 x Hc Hp Hx). congruence.
  - intros HP0. destruct HPh as [?|(I & _)]; [contradiction|]. now apply Hdis.
  - intros HN0. destruct HNh as [?|(I & _)]; [contradiction|]. now apply Hdis.
Qed.

(** The fields written by [a_free]. *)
Lemma a_free_relinks a m ptr :
  HEADER_LENGHT <= ptr < modulus ->
  let h := ptr - HEADER_LENGHT in
  let P := hdr_prev m h in
  let N := hdr_next m h in
  (P <> 0 -> P + HEADER_LENGHT <= h) ->
  (N <> 0 -> h + HEADER_LENGHT <= N) ->
  let a' := fst (a_free a m ptr) in
  let m' := snd (a_free a m ptr) in
  (P <> 0 -> hdr_next m' P = N /\ head a' = head a) /\
  (P = 0 -> head a' = N) /\
  (N <> 0 -> hdr_prev m' N = P /\ tail a' = tail a) /\
  (N = 0 -> tail a' = P) /\
  start_addr a' = start_addr a /\ arena_size a' = arena_size a /\
  (forall x,
      ~ (P <> 0 /\ P + 3 * WORDSIZE <= x < P + 4 * WORDSIZE) ->
      ~ (N <> 0 /\ N + 2 * WORDSIZE <= x < N + 3 * WORDSIZE) ->
      m' x = m x).
Proof.
  intros Hp h P N HP HN. pose proof HEADER_LENGHT_pos as HH.
  pose proof WORDSIZE_pos as HW.
  pose proof (load_range m (h + 2 * WORDSIZE)) as HPr.
  pose proof (load_range m (h + 3 * WORDSIZE)) as HNr.
  unfold a_free. destruct (Z.eqb_spec ptr 0); [lia|].
  rewrite ptr_to_header_ptr_eq by lia. fold h. fold P. fold N.
  destruct (Z.eqb_spec P 0) as [HP0|HP0].
  - fold N. destruct (Z.eqb_spec N 0) as [HN0|HN0]; cbn [fst snd].
    + fold P. repeat split; try reflexivity; try lia.
    + fold P. specialize (HN HN0). unfold P, N in *. fields.
      mem_simpl. rewrite wrap_small by lia.
      repeat split; try reflexivity; try lia.
      intros x _ Hx. mem_simpl. reflexivity.
  - specialize (HP HP0).
    assert (HN1 : hdr_next (set_next m P N) h = N).
    { unfold P, N in *. fields. mem_simpl. reflexivity. }
    assert (HP1 : hdr_prev (set_next m P N) h = P).
    { unfold P, N in *. fields. mem_simpl. reflexivity. }
    rewrite HN1, HP1.
    destruct (Z.eqb_spec N 0) as [HN0|HN0]; cbn [fst snd].
    + unfold P, N in *. fields. mem_simpl. rewrite wrap_small by lia.
      repeat split; try reflexivity; try lia.
      intros x Hx _. mem_simpl. reflexivity.
    + specialize (HN HN0). unfold P, N in *. fields. mem_simpl.
      rewrite !wrap_small by lia.
      repeat split; try reflexivity; try lia.
      intros x Hx Hx'. mem_simpl. reflexivity.
Qed.

(** C8: [a_free] of [NULL] changes nothing.  For a block pointer whose
    recorded neighbours lie a header apart from it, [a_free] sets the [next]
    of the previous neighbour (or [head] when there is none) to the block's
    [next], and the [prev] of the next neighbour (or [tail] when there is
    none) to the block's [prev]; no other byte is written.  On a well-formed
    arena the chain from the new [head] is the list without the block. *)
Theorem a_free_unlinks a m :
  a_free a m 0 = (a, m) /\
  forall ptr,
    HEADER_LENGHT <= ptr < modulus ->
    let h := ptr - HEADER_LENGHT in
    let P := hdr_prev m h in
    let N := hdr_next m h in
    (P <> 0 -> P + HEADER_LENGHT <= h) ->
    (N <> 0 -> h + HEADER_LENGHT <= N) ->
    let a' := fst (a_free a m ptr) in
    let m' := snd (a_free a m ptr) in
    (P <> 0 -> hdr_next m' P = N /\ head a' = head a) /\
    (P = 0 -> head a' = N) /\
    (N <> 0 -> hdr_prev m' N = P /\ tail a' = tail a) /\
    (N = 0 -> tail a' = P) /\
    start_addr a' = start_addr a /\ arena_size a' = arena_size a /\
    (forall x,
        ~ (P <> 0 /\ P + 3 * WORDSIZE <= x < P + 4 * WORDSIZE) ->
        ~ (N <> 0 /\ N + 2 * WORDSIZE <= x < N + 3 * WORDSIZE) ->
        m' x = m x) /\
    (forall l, well_formed a m l -> In h l ->
               chain m' (head a') (remove Z.eq_dec h l)).
Proof.
  split; [reflexivity|].
  intros ptr Hp h P N HP HN a' m'.
  destruct (a_free_relinks a m ptr Hp HP HN) as (H1 & H2 & H3 & H4 & H5 & H6 & H7).
  repeat (split; [assumption|]).
  intros l Hwf Hin. now apply a_free_chain.
Qed.

End Release.

(** * Relocating resize *)

Section Relocation.
Context {pf : Platform}.

Lemma load_memcpy_other m dst src n b :
  b + WORDSIZE <= dst \/ dst + n <= b -> load (memcpy m dst src n) b = load m b.
Proof.
  intros H. apply load_ext. intros x Hx. apply memcpy_outside. lia.
Qed.

(** After the relocation the old block is no longer reachable from [head]. *)
Lemma relocate_unlinks a m l h np q a1 m1 :
  well_formed a m l -> In h l -> hdr_size m h < np ->
  malloc_post a m l np q m1 -> malloc_links a m l (q - HEADER_LENGHT) a1 m1 ->
  let ptr := h + HEADER_LENGHT in
  let st := a_free a1 (memcpy m1 q ptr (hdr_size m h)) ptr in
  exists l', chain (snd st) (head (fst st)) l' /\ ~ In h l'.
Proof.
  intros Hwf Hin Hgrow (HqH & Hqm & Hqs & Hfresh & Hframe & Hfields) Hlinks ptr st.
  pose proof Hwf as (Hst & Hsz & Hend & Hc & Ho & Hp).
  pose proof WORDSIZE_pos as HW. pose proof HEADER_LENGHT_pos as HH.
  set (nb := q - HEADER_LENGHT) in *.
  set (m2 := memcpy m1 q ptr (hdr_size m h)) in *.
  destruct (ordered_bounds _ _ _ _ _ Ho Hin) as (Hhlo & Hhhi).
  pose proof (block_end_ge m h) as Hhbe.
  pose proof (hdr_size_nonneg m h) as Hsr.
  assert (Hptr : HEADER_LENGHT <= ptr < modulus) by (unfold ptr; lia).
  assert (Hh : ptr_to_header_ptr ptr = h).
  { rewrite ptr_to_header_ptr_eq by exact Hptr. unfold ptr. lia. }
  (* the headers at hand: the new one and those of the list *)
  assert (Hl0 : forall x, In x l ->
            x <> 0 /\ x + HEADER_LENGHT <= block_end m x /\
            (nb + HEADER_LENGHT + np <= x \/ block_end m x <= nb)).
  { intros x Hx. split; [eapply chain_nonzero; eassumption|].
    split; [apply block_end_ge | apply Hfresh, Hx]. }
  assert (S1 : forall x y, (x = nb \/ In x l) -> (y = nb \/ In y l) ->
            x = y \/ x + HEADER_LENGHT <= y \/ y + HEADER_LENGHT <= x).
  { intros x y [->|Hx] [->|Hy].
    - now left.
    - destruct (Hl0 y Hy) as (_ & ? & ?). lia.
    - destruct (Hl0 x Hx) as (_ & ? & ?). lia.
    - destruct (Hl0 x Hx) as (_ & ? & _), (Hl0 y Hy) as (_ & ? & _).
      destruct (ordered_disjoint _ _ _ _ _ _ Ho Hx Hy) as [?|[?|?]]; [auto|lia|lia]. }
  assert (S2 : forall x, (x = nb \/ In x l) ->
            x <> 0 /\ (x + HEADER_LENGHT <= q \/ q + np <= x)).
  { intros x [->|Hx]; [unfold nb; lia|].
    destruct (Hl0 x Hx) as (? & ? & ?). unfold nb in *. split; [assumption | lia]. }
  assert (S3 : forall x, (x = nb \/ In x l) ->
            hdr_next m2 x = hdr_next m1 x /\ hdr_prev m2 x = hdr_prev m1 x).
  { intros x Hx. destruct (S2 x Hx) as (_ & Hd).
    unfold m2, hdr_next, hdr_prev.
    split; apply load_memcpy_other; unfold HEADER_LENGHT in *; lia. }
  assert (Hnbh : nb <> h).
  { destruct (Hl0 h Hin) as (_ & ? & ?). lia. }
  destruct (S3 h (or_intror Hin)) as (HN2 & HP2).
  pose proof (chain_next_in _ _ _ _ _ _ Hc Ho Hin) as HNh.
  pose proof (prev_linked_in _ _ _ _ _ _ Hp Ho Hin) as HPh.
  pose proof (a_free_links a1 m2 ptr ltac:(lia)) as Hfree.
  cbv zeta in Hfree. rewrite Hh in Hfree. fold st in Hfree.
  (* list facts used in all cases *)
  assert (Hnext : forall x, In x l ->
            hdr_next m x = 0 \/
            (In (hdr_next m x) l /\ x < hdr_next m x /\
             (hdr_next m x = h -> hdr_prev m h = x))).
  { intros x Hx. destruct (chain_next_in _ _ _ _ _ _ Hc Ho Hx) as [?|(I & L)]; [now left|].
    right. pose proof (block_end_ge m x). split; [exact I|]. split; [lia|].
    intros E. rewrite <- E. apply (next_prev m l _ 0 x Hc Hp Hx).
    intros E0. rewrite E0 in I. exact (chain_nonzero m l _ 0 Hc I eq_refl). }
  rewrite HP2, HN2 in Hfree.
  (* the general situation: the walk stays among the other headers *)
  assert (Hgen :
    (hdr_prev m1 h = 0 \/ ((hdr_prev m1 h = nb \/ In (hdr_prev m1 h) l) /\ hdr_prev m1 h < h)) ->
    (hdr_next m1 h = 0 \/ ((hdr_next m1 h = nb \/ In (hdr_next m1 h) l) /\ h < hdr_next m1 h)) ->
    (forall x, (x = nb \/ In x l) -> x <> h -> x <> hdr_prev m1 h ->
       hdr_next m1 x = 0 \/
       ((hdr_next m1 x = nb \/ In (hdr_next m1 x) l) /\ hdr_next m1 x <> h /\
        x < hdr_next m1 x)) ->
    (hdr_prev m1 h <> 0 -> (head a1 = nb \/ In (head a1) l) /\ head a1 <> h) ->
    exists l', chain (snd st) (head (fst st)) l' /\ ~ In h l').
  { intros GP GN Gx Ghd.
    destruct Hfree as (Hhead & Hnx).
    { intros HP0. destruct GP as [?|(I & L)]; [contradiction|].
      destruct (S1 _ _ I (or_intror Hin)) as [?|?]; lia. }
    destruct (chain_exists (snd st) (nb :: l)
                (fun x => (x = nb \/ In x l) /\ x <> h)) with (p := head (fst st))
      as (l' & Hc' & Hall).
    - intros x (Hx & Hxh). split; [destruct Hx as [->|Hx]; [now left | now right]|].
      split; [exact (proj1 (S2 x Hx))|].
      rewrite Hnx.
      + destruct (S3 x Hx) as (-> & _).
        destruct (Z.eqb_spec (hdr_prev m1 h) 0) as [HP0|HP0]; cbn [negb andb].
        * destruct (Gx x Hx Hxh) as [?|(I & E & L)]; [|now left|right; auto].
          rewrite HP0. exact (proj1 (S2 x Hx)).
        * destruct (Z.eqb_spec x (hdr_prev m1 h)) as [->|HxP].
          -- destruct GN as [?|(I & L)]; [now left|]. right.
             destruct GP as [?|(_ & LP)]; [contradiction|].
             split; [split; [exact I | lia] | lia].
          -- destruct (Gx x Hx Hxh HxP) as [?|(I & E & L)]; [now left | right; auto].
      + intros HP0. destruct GP as [?|(I & _)]; [contradiction|]. now apply S1.
      + intros HN0. destruct GN as [?|(I & _)]; [contradiction|]. now apply S1.
    - rewrite Hhead. destruct (Z.eqb_spec (hdr_prev m1 h) 0) as [HP0|HP0].
      + destruct GN as [?|(I & L)]; [now left|]. right. split; [exact I | lia].
      + right. exact (Ghd HP0).
    - exists l'. split; [exact Hc'|]. intros Hl'. now destruct (Hall h Hl'). }
  destruct Hlinks as [(Hh1 & Hnnb & Hnbhd & Hsame)|(actual & Hact & Hnb & Hh1 & Hnnb & Hnact & Hnoth & Hprev)].
  - (* the new block was placed in front of the list *)
    destruct (Hsame h Hin) as (HN1 & HP1).
    destruct (Z.eq_dec (hdr_prev m h) 0) as [HP0|HP0].
    + (* the old block is the old head: the walk starts behind it *)
      clear Hgen. rewrite HP1, HN1 in Hfree.
      destruct Hfree as (Hhead & Hnx); [intros; contradiction|].
      rewrite HP0 in Hhead, Hnx. cbn [Z.eqb negb andb] in Hhead, Hnx.
      destruct (chain_exists (snd st) l (fun x => In x l /\ x <> h)) with (p := head (fst st))
        as (l' & Hc' & Hall).
      * intros x (Hx & Hxh). split; [exact Hx|]. destruct (Hl0 x Hx) as (Hx0 & _).
        split; [exact Hx0|].
        rewrite Hnx;
          [|intros; contradiction
           |intros HN0; apply S1; [now right|];
            destruct HNh as [?|(I & _)]; [contradiction | now right]].
        destruct (S3 x (or_intror Hx)) as (-> & _).
        destruct (Hsame x Hx) as (-> & _).
        destruct (Hnext x Hx) as [?|(I & L & E)]; [now left|]. right.
        split; [|exact L]. split; [exact I|]. intros Eh. specialize (E Eh). congruence.
      * rewrite Hhead. destruct HNh as [?|(I & L)]; [now left|]. right.
        split; [exact I | lia].
      * exists l'. split; [exact Hc'|]. intros Hl'. now destruct (Hall h Hl').
    + (* the old block has a predecessor *)
      assert (Hhd : In (head a) l /\ head a <> h).
      { split; [eapply chain_head_in; eassumption|]. intros E.
        apply HP0. destruct l as [|y t]; [contradiction|].
        destruct Hc as (Ey & _). destruct Hp as (Hy & _). congruence. }
      apply Hgen.
      * rewrite HP1. destruct HPh as [?|(I & L)]; [contradiction|]. right.
        pose proof (block_end_ge m (hdr_prev m h)). split; [now right | lia].
      * rewrite HN1. destruct HNh as [?|(I & L)]; [now left|]. right.
        split; [now right | lia].
      * intros x [->|Hx] Hxh HxP.
        -- rewrite Hnnb. right. split; [right; apply Hhd|]. split; [apply Hhd | lia].
        -- destruct (Hsame x Hx) as (-> & _). rewrite HP1 in HxP.
           destruct (Hnext x Hx) as [?|(I & L & E)]; [now left|]. right.
           split; [now right|]. split; [|exact L]. intros Eh. specialize (E Eh). congruence.
      * intros _. rewrite Hh1. split; [now left | exact Hnbh].
  - (* the new block was linked behind [actual] *)
    set (Na := hdr_next m actual) in *.
    destruct (Hl0 actual Hact) as (Hact0 & Hactbe & _).
    assert (HNa : Na = 0 \/ (In Na l /\ nb < Na /\ (Na = h -> hdr_prev m h = actual))).
    { destruct (Hnext actual Hact) as [?|(I & L & E)]; [now left|]. right.
      fold Na in I, L, E. split; [exact I|]. split; [|exact E].
      destruct (Hl0 Na I) as (HNa0 & ? & ?).
      destruct (chain_next_in _ _ _ _ _ _ Hc Ho Hact) as [?|(_ & Lb)];
        [contradiction|].
      fold Na in Lb. lia. }
    assert (Hfirst : hdr_prev m (head a) = 0).
    { destruct l as [|y t]; [contradiction|].
      destruct Hc as (Ey & _). destruct Hp as (Hy & _). congruence. }
    pose proof (Hprev h Hin) as HP1. fold Na in HP1.
    apply Hgen.
    + rewrite HP1. destruct (Z.eqb_spec h Na) as [E|E].
      * right. split; [now left|]. destruct HNa as [?|(_ & L & _)]; lia.
      * destruct HPh as [?|(I & L)]; [now left|]. right.
        pose proof (block_end_ge m (hdr_prev m h)). split; [now right | lia].
    + destruct (Z.eq_dec h actual) as [E|E].
      * rewrite E, Hnact. right. split; [now left | lia].
      * rewrite (Hnoth h Hin E). destruct HNh as [?|(I & L)]; [now left|]. right.
        split; [now right | lia].
    + intros x [->|Hx] Hxh HxP.
      * rewrite Hnnb. fold Na. destruct HNa as [?|(I & L & E)]; [now left|]. right.
        split; [now right|]. split; [|exact L]. intros Eh.
        apply HxP. rewrite HP1. destruct (Z.eqb_spec h Na); congruence.
      * destruct (Z.eq_dec x actual) as [->|Hxa].
        -- rewrite Hnact. right. split; [now left|]. split; [exact Hnbh | lia].
        -- rewrite (Hnoth x Hx Hxa).
           destruct (Hnext x Hx) as [?|(I & L & E)]; [now left|]. right.
           split; [now right|]. split; [|exact L]. intros Eh. specialize (E Eh).
           rewrite HP1 in HxP. destruct (Z.eqb_spec h Na) as [EN|EN].
           ++ destruct HNa as [?|(_ & _ & Ea)]; [lia|].
              specialize (Ea (eq_sym EN)). congruence.
           ++ congruence.
    + intros HP0. rewrite Hh1. split; [right; eapply chain_head_in; eassumption|].
      intros Eh. rewrite <- Eh in *. rewrite HP1 in HP0.
      destruct (Z.eqb_spec (head a) Na) as [EN|EN]; [|congruence].
      destruct HNa as [?|(_ & _ & Ea)]; [lia|].
      specialize (Ea (eq_sym EN)). congruence.
Qed.



(** What holds of a relocating resize on a well-formed arena, for a live
    block (the padded new size exceeds the current size, and the gap behind
    the block is smaller than the additional bytes), when the request is
    small enough that no address computation wraps
    ([start_addr + arena_size + padded size + HEADER_LENGHT] stays below
    [2^w]): either the fresh allocation fails and [a_realloc] returns [NULL]
    with arena and memory unchanged, or it returns the non-null pointer [q]
    of a block that overlaps no block of the list, the first
    [min(old size, new size)] bytes at [q] are the old data, and the walk
    from the new [head] no longer meets the old header.  Nothing is said
    about the new header being met by that walk. *)
Lemma a_realloc_relocate fuel a m l ptr size :
  well_formed a m l -> In (ptr - HEADER_LENGHT) l -> (length l <= fuel)%nat ->
  let h := ptr - HEADER_LENGHT in
  let np := next_padding_size size in
  start_addr a + arena_size a + np + HEADER_LENGHT < modulus ->
  hdr_size m h < np ->
  available_block_space a m h < np - hdr_size m h ->
  (a_malloc fuel a m np = Some (0, a, m) /\
   a_realloc fuel a m ptr size = Some (0, a, m))
  \/
  (exists q a1 m1 a' m',
     a_malloc fuel a m np = Some (q, a1, m1) /\ q <> 0 /\
     a_realloc fuel a m ptr size = Some (q, a', m') /\
     (a', m') = a_free a1 (memcpy m1 q ptr (hdr_size m h)) ptr /\
     fresh_block m l (q - HEADER_LENGHT) np /\
     (forall i, 0 <= i < Z.min (hdr_size m h) size -> m' (q + i) = m (ptr + i)) /\
     (exists l', chain m' (head a') l' /\ ~ In h l')).
Proof.
  intros Hwf Hin Hf h np Hnw Hgrow Hnofit.
  pose proof Hwf as (Hst & Hsz & Hend & Hc & Ho & Hp).
  pose proof WORDSIZE_pos as HW. pose proof HEADER_LENGHT_pos as HH.
  fold h in Hin.
  destruct (ordered_bounds _ _ _ _ _ Ho Hin) as (Hhlo & Hhhi).
  pose proof (block_end_ge m h) as Hhbe.
  pose proof (hdr_size_nonneg m h) as Hsr.
  assert (Hptr : HEADER_LENGHT <= ptr < modulus) by (unfold h in *; lia).
  assert (Hne : l <> []) by (intros ->; contradiction).
  assert (Hidem : next_padding_size np = np) by apply next_padding_size_idem.
  destruct (a_malloc_well_formed fuel a m l np Hwf Hne Hf) as (q & a1 & m1 & Hm & Hq0 & Hq);
    [rewrite Hidem; exact Hnw|].
  rewrite Hidem in Hq.
  unfold a_realloc. destruct (Z.eqb_spec ptr 0); [lia|].
  rewrite ptr_to_header_ptr_eq by lia. fold h. fold np.
  destruct (Z.leb_spec np (hdr_size m h)); [lia|].
  pose proof (next_padding_size_range size) as Hnpr. fold np in Hnpr.
  rewrite (wrap_small (np - hdr_size m h)) by lia.
  destruct (Z.leb_spec (np - hdr_size m h) (available_block_space a m h)); [lia|].
  rewrite Hm.
  destruct (Z.eqb_spec q 0) as [E|E].
  - left. subst q. destruct (Hq0 eq_refl) as (-> & ->). auto.
  - right. destruct (Hq E) as (Hpost & Hlinks).
    pose proof (relocate_unlinks a m l h np q a1 m1 Hwf Hin Hgrow Hpost Hlinks)
      as Hunl.
    cbv zeta in Hunl. replace (h + HEADER_LENGHT) with ptr in Hunl by (unfold h; lia).
    destruct Hpost as (HqH & Hqm & Hqs & Hfresh & Hframe & Hfields).
    set (nb := q - HEADER_LENGHT) in *.
    set (m2 := memcpy m1 q ptr (hdr_size m h)).
    destruct (a_free a1 m2 ptr) as (a3, m3) eqn:Hfree.
    exists q, a1, m1, a3, m3.
    split; [reflexivity|]. split; [exact E|]. split; [reflexivity|].
    split; [symmetry; exact Hfree|]. split; [exact Hfresh|].
    split; [|unfold m2 in Hfree; rewrite Hfree in Hunl; exact Hunl].
    intros i Hi. assert (Hi' : 0 <= i < hdr_size m h) by lia. clear Hi.
    (* headers reachable through the links of the old block avoid the new data *)
    assert (Hhdr : forall s, s = nb \/ In s l ->
              s + HEADER_LENGHT <= q \/ q + np <= s).
    { intros s [->|Hs]; [unfold nb; lia|].
      pose proof (block_end_ge m s). destruct (Hfresh s Hs); unfold nb in *; lia. }
    assert (Hhq : h + HEADER_LENGHT <= q \/ q + np <= h) by (apply Hhdr; now right).
    destruct (Hfields h Hin) as (_ & HP1 & HN1).
    assert (HP2 : hdr_prev m2 h = hdr_prev m1 h).
    { unfold m2, hdr_prev. apply load_memcpy_other. unfold HEADER_LENGHT in *. lia. }
    assert (HN2 : hdr_next m2 h = hdr_next m1 h).
    { unfold m2, hdr_next. apply load_memcpy_other. unfold HEADER_LENGHT in *. lia. }
    assert (HPin : hdr_prev m2 h = 0 \/
              ((hdr_prev m2 h = nb \/ In (hdr_prev m2 h) l) /\
               (hdr_prev m2 h + HEADER_LENGHT <= h \/ h + HEADER_LENGHT <= hdr_prev m2 h))).
    { rewrite HP2. destruct HP1 as [->| ->].
      - destruct (prev_linked_in _ _ _ _ _ _ Hp Ho Hin) as [?|(I & L)]; [now left|].
        right. split; [now right|]. left. pose proof (block_end_ge m (hdr_prev m h)). lia.
      - right. split; [now left|]. pose proof (Hfresh h Hin). unfold nb in *. lia. }
    assert (HNin : hdr_next m2 h = 0 \/ hdr_next m2 h = nb \/ In (hdr_next m2 h) l).
    { rewrite HN2. destruct HN1 as [->| ->]; [|auto].
      destruct (chain_next_in _ _ _ _ _ _ Hc Ho Hin) as [?|(I & L)]; auto. }
    assert (Hm3 : m3 (q + i) = m2 (q + i)).
    { change m3 with (snd (a3, m3)). rewrite <- Hfree.
      apply a_free_frame; rewrite ptr_to_header_ptr_eq by lia; fold h.
      - intros HP0. destruct HPin as [?|(_ & ?)]; [contradiction | assumption].
      - intros HP0. destruct HPin as [?|(HPs & _)]; [contradiction|].
        specialize (Hhdr _ HPs). unfold HEADER_LENGHT in *. lia.
      - intros HN0. destruct HNin as [?|HNs]; [contradiction|].
        specialize (Hhdr _ HNs). unfold HEADER_LENGHT in *. lia. }
    rewrite Hm3. unfold m2. rewrite memcpy_inside by lia.
    apply Hframe.
    + destruct (Hfresh h Hin); unfold nb, h, block_end in *; lia.
    + intros s Hs. pose proof (block_end_ge m s).
      destruct (ordered_disjoint _ _ _ _ _ _ Ho Hs Hin) as [->|[?|?]];
        unfold h, block_end in *; lia.
Qed.

End Relocation.

(** * Where [a_malloc] places a block *)

Section Placement.
Context {pf : Platform}.

(** The search stops at the first block whose gap fits. *)
Lemma first_fit_first a m bs l : forall fuel p lo hi,
  chain m p l -> ordered m lo l hi -> l <> [] -> (length l <= S fuel)%nat ->
  exists actual,
    first_fit fuel a m p bs = Some actual /\
    forall x, In x l -> x < actual -> available_block_space a m x < bs.
Proof.
  induction l as [|x t IH]; intros fuel p lo hi Hc Ho Hne Hf; [contradiction|].
  destruct Hc as (-> & Hx & Hc). destruct Ho as (Hlo & Ho).
  pose proof (block_end_ge m x) as Hbe. pose proof HEADER_LENGHT_pos as HH.
  assert (Hlater : forall y, In y t -> x < y).
  { intros y Hy. destruct (ordered_bounds _ _ _ _ _ Ho Hy). lia. }
  destruct t as [|y t].
  - simpl in Hc. exists x. split.
    + destruct fuel; cbn [first_fit]; rewrite Hc; reflexivity.
    + intros z [->|[]]. lia.
  - pose proof Hc as (E & Hy & _).
    assert (Hn : hdr_next m x <> 0) by congruence.
    destruct (Z.leb_spec bs (available_block_space a m x)) as [Hge|Hlt].
    + exists x. split.
      * destruct fuel; cbn [first_fit];
          destruct (Z.eqb_spec (hdr_next m x) 0); try contradiction;
          destruct (Z.leb_spec bs (available_block_space a m x)); try lia; reflexivity.
      * intros z [->|Hz]; [lia|]. specialize (Hlater z Hz). lia.
    + destruct fuel as [|fuel]; [simpl in Hf; lia|].
      destruct (IH fuel (hdr_next m x) (block_end m x) hi Hc Ho ltac:(discriminate)
                  ltac:(simpl in Hf |- *; lia)) as (act & Hff & Hbefore).
      exists act. split.
      * cbn [first_fit].
        destruct (Z.eqb_spec (hdr_next m x) 0); try contradiction.
        destruct (Z.leb_spec bs (available_block_space a m x)); try lia. exact Hff.
      * intros z [->|Hz] Hza; [exact Hlt | now apply Hbefore].
Qed.


(** The outcomes of [a_malloc] on a well-formed arena, with the memory it
    leaves. *)
Lemma a_malloc_cases fuel a m l size :
  well_formed a m l -> (length l <= fuel)%nat ->
  start_addr a + arena_size a + next_padding_size size + HEADER_LENGHT < modulus ->
  let np := next_padding_size size in
  let bs := np + HEADER_LENGHT in
  (a_malloc fuel a m size = Some (0, a, m) /\
   (l = [] -> arena_size a < bs) /\
   (l <> [] -> head a - start_addr a < bs /\
               (forall x, In x l -> available_block_space a m x < bs) /\
               exists t, In t l /\ hdr_next m t = 0 /\
                         start_addr a + arena_size a < block_end m t + np))
  \/
  (l = [] /\ bs <= arena_size a /\
   a_malloc fuel a m size
   = Some (start_addr a + HEADER_LENGHT,
           set_tail (set_head a (start_addr a)) (start_addr a),
           new_header m (start_addr a) np 0 0))
  \/
  (l <> [] /\ start_addr a + bs <= head a /\
   a_malloc fuel a m size
   = Some (start_addr a + HEADER_LENGHT, set_head a (start_addr a),
           new_header m (start_addr a) np 0 (head a)))
  \/
  (exists actual,
     In actual l /\ head a - start_addr a < bs /\
     (forall x, In x l -> x < actual -> available_block_space a m x < bs) /\
     (forall h', In h' l ->
        h' = actual \/ block_end m h' <= actual \/
        (hdr_next m actual <> 0 /\ hdr_next m actual <= h')) /\
     (hdr_next m actual <> 0 -> block_end m actual + bs <= hdr_next m actual) /\
     block_end m actual + np <= start_addr a + arena_size a /\
     a_malloc fuel a m size
     = Some (block_end m actual + HEADER_LENGHT,
             (if hdr_next m actual =? 0 then set_tail a (block_end m actual) else a),
             linked_behind m actual np)).
Proof.
  intros Hwf Hf Hnw np bs. pose proof Hwf as (Hst & Hsz & Hend & Hc & Ho & Hp).
  pose proof WORDSIZE_pos as HW. pose proof HEADER_LENGHT_pos as HH.
  pose proof (next_padding_size_range size) as Hnp. fold np in Hnp, Hnw.
  unfold a_malloc. fold np. unfold compute_block_size, header_to_dataptr.
  rewrite (wrap_small (np + HEADER_LENGHT)) by lia. fold bs.
  destruct l as [|h0 t].
  - (* empty list *)
    simpl in Hc. rewrite Hc.
    destruct (Z.ltb_spec (start_addr a) 0); [lia|]. cbn [andb Z.eqb].
    destruct (Z.ltb_spec (arena_size a) bs).
    + left. split; [reflexivity|]. split; [auto|]. intros Hne; now elim Hne.
    + right; left. split; [reflexivity|]. split; [assumption|].
      rewrite wrap_small by (unfold bs in *; lia). reflexivity.
  - set (l := h0 :: t) in *.
    assert (Hne : l <> []) by discriminate.
    assert (Hh : In (head a) l /\ head a <> 0).
    { destruct Hc as (-> & ? & _). split; [now left | assumption]. }
    destruct Hh as (Hhin & Hh0).
    destruct (ordered_bounds _ _ _ _ _ Ho Hhin) as (Hhlo & Hhhi).
    pose proof (block_end_ge m (head a)) as Hhbe.
    rewrite (wrap_small (head a - start_addr a)) by lia.
    destruct ((start_addr a <? head a) && (bs <=? head a - start_addr a)) eqn:Hlead.
    + (* leading gap *)
      apply andb_true_iff in Hlead. destruct Hlead as (Hlt & Hfit).
      apply Z.ltb_lt in Hlt. apply Z.leb_le in Hfit.
      right; right; left. split; [exact Hne|]. split; [lia|].
      rewrite wrap_small by (unfold bs in *; lia). reflexivity.
    + (* search from the head *)
      assert (Hnolead : head a - start_addr a < bs).
      { apply andb_false_iff in Hlead. destruct Hlead as [E|E].
        - apply Z.ltb_ge in E. unfold bs. lia.
        - apply Z.leb_gt in E. exact E. }
      clear Hlead.
      destruct (Z.eqb_spec (head a) 0); [contradiction|].
      destruct (first_fit_ordered a m bs l fuel (head a) _ _ Hc Ho Hne
                  ltac:(lia)) as (actual & Hff & Hact & Hoth & Hav).
      destruct (first_fit_first a m bs l fuel (head a) _ _ Hc Ho Hne
                  ltac:(lia)) as (actual' & Hff' & Hbefore).
      rewrite Hff in Hff'. injection Hff' as <-.
      rewrite Hff.
      destruct (ordered_bounds _ _ _ _ _ Ho Hact) as (Halo & Hahi).
      pose proof (block_end_ge m actual) as Habe.
      assert (Hpe : pointer_end_block m actual = block_end m actual).
      { rewrite pointer_end_block_wrap. apply wrap_small. lia. }
      rewrite Hpe. rewrite (wrap_small (start_addr a + arena_size a)) by lia.
      rewrite (wrap_small (block_end m actual + np)) by lia.
      assert (Hgap : hdr_next m actual <> 0 ->
                     block_end m actual + bs <= hdr_next m actual).
      { intros Hn. specialize (Hav Hn).
        destruct (chain_next_in _ _ _ _ _ _ Hc Ho Hact) as [?|(HNin & HNle)];
          [contradiction|].
        destruct (ordered_bounds _ _ _ _ _ Ho HNin) as (_ & HNhi).
        pose proof (block_end_ge m (hdr_next m actual)).
        rewrite available_block_space_next in Hav by assumption.
        unfold gap_after in Hav. destruct (Z.eqb_spec (hdr_next m actual) 0);
          [contradiction|].
        rewrite wrap_small in Hav by lia. lia. }
      destruct (Z.ltb_spec (start_addr a + arena_size a) (block_end m actual + np))
        as [Hfull|Hroom].
      { left. split; [reflexivity|]. split; [intros E; discriminate E|]. intros _.
        split; [exact Hnolead|].
        assert (HN0 : hdr_next m actual = 0).
        { destruct (Z.eq_dec (hdr_next m actual) 0) as [E|E]; [exact E|].
          specialize (Hgap E).
          destruct (chain_next_in _ _ _ _ _ _ Hc Ho Hact) as [?|(HNin & _)];
            [contradiction|].
          destruct (ordered_bounds _ _ _ _ _ Ho HNin) as (HNlo & HNhi).
          pose proof (block_end_ge m (hdr_next m actual)). unfold bs in *. lia. }
        split; [|exists actual; auto].
        intros x Hx. destruct (Hoth x Hx) as [->|[Hb|(Hn & _)]]; [| |contradiction].
        - rewrite available_block_space_gap; rewrite ?HN0; simpl; unfold bs; lia.
        - apply Hbefore; [exact Hx|]. pose proof (block_end_ge m x). lia. }
      right; right; right. exists actual.
      split; [exact Hact|]. split; [exact Hnolead|]. split; [exact Hbefore|].
      split; [exact Hoth|]. split; [exact Hgap|]. split; [exact Hroom|].
      rewrite (wrap_small (block_end m actual + HEADER_LENGHT)) by lia.
      assert (HN2 : hdr_next (set_prev (set_size m (block_end m actual) np)
                                (block_end m actual) actual) actual
                    = hdr_next m actual).
      { fields. mem_simpl. reflexivity. }
      rewrite HN2.
      match goal with
      | |- context [hdr_next ?mm (block_end m actual) =? 0] =>
          assert (HN6 : hdr_next mm (block_end m actual) = hdr_next m actual)
      end.
      { pose proof (load_range m (actual + 3 * WORDSIZE)) as Hr.
        generalize (compute_canary
          (set_next (set_prev (set_size m (block_end m actual) np)
             (block_end m actual) actual) (block_end m actual) (hdr_next m actual))
          (block_end m actual)). intros c1.
        match goal with |- context [set_canary ?mm actual ?c] =>
          generalize c end. intros c2.
        fields. mem_simpl. apply wrap_small. exact Hr. }
      rewrite HN6. unfold linked_behind, new_header.
      destruct (hdr_next m actual =? 0); reflexivity.
Qed.


(** ** What the stores of [a_malloc] leave in memory *)

Lemma compute_canary_fields m m' h :
  hdr_size m' h = hdr_size m h -> hdr_prev m' h = hdr_prev m h ->
  hdr_next m' h = hdr_next m h -> compute_canary m' h = compute_canary m h.
Proof. unfold compute_canary. now intros -> -> ->. Qed.

Lemma new_header_spec m nb np p n :
  0 <= np < modulus -> 0 <= p < modulus -> 0 <= n < modulus ->
  hdr_size (new_header m nb np p n) nb = np /\
  hdr_prev (new_header m nb np p n) nb = p /\
  hdr_next (new_header m nb np p n) nb = n /\
  hdr_canary (new_header m nb np p n) nb
  = compute_canary (new_header m nb np p n) nb /\
  (forall x, x < nb \/ nb + HEADER_LENGHT <= x -> new_header m nb np p n x = m x).
Proof.
  intros Hnp Hp Hn. pose proof WORDSIZE_pos as HW.
  set (m3 := set_next (set_prev (set_size m nb np) nb p) nb n).
  assert (F3 : hdr_size m3 nb = np /\ hdr_prev m3 nb = p /\ hdr_next m3 nb = n).
  { unfold m3. fields. mem_simpl. rewrite !wrap_small by lia. auto. }
  destruct F3 as (F1 & F2 & F3).
  assert (F : hdr_size (new_header m nb np p n) nb = np /\
              hdr_prev (new_header m nb np p n) nb = p /\
              hdr_next (new_header m nb np p n) nb = n).
  { unfold new_header. fold m3. generalize (compute_canary m3 nb). intros c.
    rewrite <- F1, <- F2, <- F3. fields. mem_simpl. auto. }
  destruct F as (G1 & G2 & G3).
  split; [exact G1|]. split; [exact G2|]. split; [exact G3|]. split.
  - rewrite (compute_canary_fields m3 (new_header m nb np p n) nb) by congruence.
    unfold new_header. fold m3. unfold hdr_canary, set_canary.
    rewrite load_store_same. apply wrap_compute_canary.
  - intros x Hx. unfold new_header. fields. mem_simpl. reflexivity.
Qed.


(** A header whose bytes are the same in two memories reads the same. *)
Lemma header_ext m m' h :
  (forall x, h <= x < h + HEADER_LENGHT -> m' x = m x) ->
  hdr_canary m' h = hdr_canary m h /\ hdr_size m' h = hdr_size m h /\
  hdr_prev m' h = hdr_prev m h /\ hdr_next m' h = hdr_next m h /\
  compute_canary m' h = compute_canary m h.
Proof.
  intros H. pose proof WORDSIZE_pos as HW.
  assert (F : hdr_canary m' h = hdr_canary m h /\ hdr_size m' h = hdr_size m h /\
              hdr_prev m' h = hdr_prev m h /\ hdr_next m' h = hdr_next m h).
  { unfold hdr_canary, hdr_size, hdr_prev, hdr_next.
    repeat split; apply load_ext; intros x Hx; apply H;
      unfold HEADER_LENGHT; lia. }
  destruct F as (F0 & F1 & F2 & F3). repeat split; try assumption.
  now apply compute_canary_fields.
Qed.

Lemma set_next_canary_spec m h v :
  0 <= v < modulus ->
  let M := set_canary (set_next m h v) h (compute_canary (set_next m h v) h) in
  hdr_size M h = hdr_size m h /\ hdr_prev M h = hdr_prev m h /\
  hdr_next M h = v /\ hdr_canary M h = compute_canary M h /\
  (forall x, x < h \/ h + WORDSIZE <= x ->
             x < h + 3 * WORDSIZE \/ h + HEADER_LENGHT <= x -> M x = m x).
Proof.
  intros Hv M. pose proof WORDSIZE_pos as HW.
  assert (F : hdr_size M h = hdr_size m h /\ hdr_prev M h = hdr_prev m h /\
              hdr_next M h = v).
  { unfold M. generalize (compute_canary (set_next m h v) h). intros c.
    fields. mem_simpl. rewrite wrap_small by lia. auto. }
  assert (F' : hdr_size (set_next m h v) h = hdr_size m h /\
               hdr_prev (set_next m h v) h = hdr_prev m h /\
               hdr_next (set_next m h v) h = v).
  { fields. mem_simpl. rewrite wrap_small by lia. auto. }
  destruct F as (F1 & F2 & F3), F' as (G1 & G2 & G3).
  repeat split; try assumption.
  - rewrite (compute_canary_fields (set_next m h v) M h) by congruence.
    unfold M, hdr_canary, set_canary. rewrite load_store_same.
    apply wrap_compute_canary.
  - intros x Hx Hx'. unfold M. fields. mem_simpl. reflexivity.
Qed.

Lemma set_prev_canary_spec m h v :
  0 <= v < modulus ->
  let M := set_canary (set_prev m h v) h (compute_canary (set_prev m h v) h) in
  hdr_size M h = hdr_size m h /\ hdr_prev M h = v /\
  hdr_next M h = hdr_next m h /\ hdr_canary M h = compute_canary M h /\
  (forall x, x < h \/ h + WORDSIZE <= x ->
             x < h + 2 * WORDSIZE \/ h + 3 * WORDSIZE <= x -> M x = m x).
Proof.
  intros Hv M. pose proof WORDSIZE_pos as HW.
  assert (F : hdr_size M h = hdr_size m h /\ hdr_prev M h = v /\
              hdr_next M h = hdr_next m h).
  { unfold M. generalize (compute_canary (set_prev m h v) h). intros c.
    fields. mem_simpl. rewrite wrap_small by lia. auto. }
  assert (F' : hdr_size (set_prev m h v) h = hdr_size m h /\
               hdr_prev (set_prev m h v) h = v /\
               hdr_next (set_prev m h v) h = hdr_next m h).
  { fields. mem_simpl. rewrite wrap_small by lia. auto. }
  destruct F as (F1 & F2 & F3), F' as (G1 & G2 & G3).
  repeat split; try assumption.
  - rewrite (compute_canary_fields (set_prev m h v) M h) by congruence.
    unfold M, hdr_canary, set_canary. rewrite load_store_same.
    apply wrap_compute_canary.
  - intros x Hx Hx'. unfold M. fields. mem_simpl. reflexivity.
Qed.

(** The three headers touched when a block is linked behind [actual], and
    the bytes that are not touched. *)
Lemma linked_behind_spec m actual np :
  0 <= actual -> 0 <= np < modulus -> block_end m actual < modulus ->
  (hdr_next m actual = 0 \/
   block_end m actual + HEADER_LENGHT <= hdr_next m actual) ->
  let nb := block_end m actual in
  let N := hdr_next m actual in
  let M := linked_behind m actual np in
  (hdr_size M nb = np /\ hdr_prev M nb = actual /\ hdr_next M nb = N /\
   hdr_canary M nb = compute_canary M nb) /\
  (hdr_size M actual = hdr_size m actual /\
   hdr_prev M actual = hdr_prev m actual /\ hdr_next M actual = nb /\
   hdr_canary M actual = compute_canary M actual) /\
  (N <> 0 ->
   hdr_size M N = hdr_size m N /\ hdr_prev M N = nb /\
   hdr_next M N = hdr_next m N /\ hdr_canary M N = compute_canary M N) /\
  (forall x,
     x < nb \/ nb + HEADER_LENGHT <= x ->
     x < actual \/ actual + WORDSIZE <= x ->
     x < actual + 3 * WORDSIZE \/ actual + HEADER_LENGHT <= x ->
     (N = 0 \/
      ((x < N \/ N + WORDSIZE <= x) /\
       (x < N + 2 * WORDSIZE \/ N + 3 * WORDSIZE <= x))) ->
     M x = m x).
Proof.
  intros Ha Hnp Hnbm HN nb N M.
  pose proof WORDSIZE_pos as HW. pose proof HEADER_LENGHT_pos as HH.
  pose proof (block_end_ge m actual) as Hbe. fold nb in Hbe, Hnbm, HN.
  pose proof (load_range m (actual + 3 * WORDSIZE)) as HNr.
  fold (hdr_next m actual) in HNr. fold N in HNr, HN.
  assert (Hnbr : 0 <= nb < modulus) by lia.
  assert (Har : 0 <= actual < modulus) by lia.
  (* the new header *)
  set (m4 := new_header m nb np actual N).
  destruct (new_header_spec m nb np actual N Hnp Har HNr)
    as (A1 & A2 & A3 & A4 & A5). fold m4 in A1, A2, A3, A4, A5.
  (* the predecessor *)
  set (m6 := set_canary (set_next m4 actual nb) actual
               (compute_canary (set_next m4 actual nb) actual)).
  destruct (set_next_canary_spec m4 actual nb Hnbr) as (B1 & B2 & B3 & B4 & B5).
  fold m6 in B1, B2, B3, B4, B5.
  destruct (header_ext m m4 actual) as (_ & C1 & C2 & _ & _).
  { intros x Hx. apply A5. lia. }
  destruct (header_ext m4 m6 nb) as (D0 & D1 & D2 & D3 & D4).
  { intros x Hx. apply B5; unfold HEADER_LENGHT in *; lia. }
  assert (Hm6 : forall x,
            x < nb \/ nb + HEADER_LENGHT <= x ->
            x < actual \/ actual + WORDSIZE <= x ->
            x < actual + 3 * WORDSIZE \/ actual + HEADER_LENGHT <= x ->
            m6 x = m x).
  { intros x X1 X2 X3. rewrite B5 by assumption. now apply A5. }
  unfold M, linked_behind. fold nb. fold N. fold m4. fold m6.
  destruct (Z.eqb_spec N 0) as [E|E].
  - split; [repeat split; congruence|]. split; [repeat split; congruence|].
    split; [intros; contradiction|]. intros x X1 X2 X3 _. now apply Hm6.
  - destruct HN as [?|HN]; [contradiction|].
    set (m8 := set_canary (set_prev m6 N nb) N (compute_canary (set_prev m6 N nb) N)).
    destruct (set_prev_canary_spec m6 N nb Hnbr) as (E1 & E2 & E3 & E4 & E5).
    fold m8 in E1, E2, E3, E4, E5.
    destruct (header_ext m6 m8 nb) as (F0 & F1 & F2 & F3 & F4).
    { intros x Hx. apply E5; unfold HEADER_LENGHT in *; lia. }
    destruct (header_ext m6 m8 actual) as (G0 & G1 & G2 & G3 & G4).
    { intros x Hx. apply E5; unfold HEADER_LENGHT in *; lia. }
    destruct (header_ext m m6 N) as (_ & H1 & _ & H3 & _).
    { intros x Hx. apply Hm6; unfold HEADER_LENGHT in *; lia. }
    split; [repeat split; congruence|]. split; [repeat split; congruence|].
    split; [intros _; repeat split; congruence|].
    intros x X1 X2 X3 [?|(X4 & X5)]; [contradiction|].
    rewrite E5 by assumption. now apply Hm6.
Qed.


(** Every successful [a_malloc] on a well-formed arena is a placement. *)
Lemma a_malloc_placed fuel a m l size q a1 m1 :
  well_formed a m l -> (length l <= fuel)%nat ->
  start_addr a + arena_size a + next_padding_size size + HEADER_LENGHT < modulus ->
  a_malloc fuel a m size = Some (q, a1, m1) -> q <> 0 ->
  HEADER_LENGHT <= q /\
  exists P N, placed a m l (next_padding_size size) (q - HEADER_LENGHT) P N a1 m1.
Proof.
  intros Hwf Hf Hnw Hm Hq. pose proof Hwf as (Hst & Hsz & Hend & Hc & Ho & Hp).
  pose proof WORDSIZE_pos as HW. pose proof HEADER_LENGHT_pos as HH.
  pose proof (next_padding_size_range size) as Hnp.
  pose proof modulus_pos as HM.
  destruct (a_malloc_cases fuel a m l size Hwf Hf Hnw)
    as [(E & _)|[(El & Hfit & E)|[(Hne & Hfit & E)|(actual & Hact & _ & _ & Hoth & Hgap & Hroom & E)]]];
    cbv zeta in *; rewrite E in Hm; injection Hm as <- <- <-; clear E.
  - now elim Hq.
  - (* first block of an empty arena *)
    subst l. simpl in Hc.
    split; [lia|]. exists 0, 0.
    replace (start_addr a + HEADER_LENGHT - HEADER_LENGHT) with (start_addr a) by lia.
    destruct (new_header_spec m (start_addr a) (next_padding_size size) 0 0)
      as (A1 & A2 & A3 & A4 & A5); try lia.
    unfold placed. rewrite Hc. cbn [head tail set_head set_tail start_addr arena_size Z.eqb].
    repeat split; try assumption; try lia; try contradiction.
    intros x Hx _. now apply A5.
  - (* in front of the list *)
    assert (Hh : In (head a) l /\ head a <> 0).
    { destruct l as [|h0 t]; [contradiction|]. destruct Hc as (-> & ? & _).
      split; [now left | assumption]. }
    destruct Hh as (Hhin & Hh0).
    destruct (ordered_bounds _ _ _ _ _ Ho Hhin) as (Hhlo & Hhhi).
    pose proof (block_end_ge m (head a)) as Hhbe.
    assert (Hall : forall h, In h l -> head a <= h).
    { intros h Hin. destruct l as [|h0 t]; [contradiction|].
      destruct Hc as (-> & _). destruct Hin as [->|Hin]; [lia|].
      destruct Ho as (_ & Ho). destruct (ordered_bounds _ _ _ _ _ Ho Hin).
      pose proof (block_end_ge m h0). lia. }
    split; [lia|]. exists 0, (head a).
    replace (start_addr a + HEADER_LENGHT - HEADER_LENGHT) with (start_addr a) by lia.
    destruct (new_header_spec m (start_addr a) (next_padding_size size) 0 (head a))
      as (A1 & A2 & A3 & A4 & A5); try lia.
    unfold placed. cbn [head tail set_head set_tail start_addr arena_size Z.eqb negb andb].
    destruct (Z.eqb_spec (head a) 0); [contradiction|].
    split; [lia|]. split; [lia|]. split; [lia|].
    split; [auto|]. split; [intros X; now elim X|]. split; [intros _; split; [assumption|lia]|].
    split; [intros h Hin; right; split; [assumption | now apply Hall]|].
    split; [reflexivity|]. split; [reflexivity|]. split; [reflexivity|].
    split; [exact A1|]. split; [exact A2|]. split; [exact A3|]. split; [exact A4|].
    split; [|intros x Hx _; now apply A5].
    intros h Hin. specialize (Hall h Hin).
    assert (Hh0' : h <> 0) by lia.
    destruct (Z.eqb_spec h 0); [contradiction|].
    destruct (header_ext m (new_header m (start_addr a) (next_padding_size size) 0 (head a)) h)
      as (F0 & F1 & F2 & F3 & F4).
    { intros x Hx. apply A5. lia. }
    split; [|split; [|split]]; congruence.
  - (* behind [actual] *)
    destruct (ordered_bounds _ _ _ _ _ Ho Hact) as (Halo & Hahi).
    pose proof (block_end_ge m actual) as Habe.
    set (nb := block_end m actual) in *. set (N := hdr_next m actual) in *.
    assert (HN : N = 0 \/ (In N l /\ nb + HEADER_LENGHT + next_padding_size size <= N)).
    { destruct (Z.eq_dec N 0) as [?|Hn]; [now left|]. right.
      destruct (chain_next_in _ _ _ _ _ _ Hc Ho Hact) as [?|(HNin & _)];
        [contradiction|].
      split; [exact HNin|]. specialize (Hgap Hn). lia. }
    destruct (linked_behind_spec m actual (next_padding_size size))
      as (A & B & C & D); try lia.
    fold nb in A, B, C, D. fold N in A, B, C, D.
    destruct A as (A1 & A2 & A3 & A4), B as (B1 & B2 & B3 & B4).
    split; [lia|]. exists actual, N.
    replace (nb + HEADER_LENGHT - HEADER_LENGHT) with nb by lia.
    assert (Hdis : forall h, In h l ->
              (nb + HEADER_LENGHT <= h \/ h + HEADER_LENGHT <= nb) /\
              (h = actual \/ h + HEADER_LENGHT <= actual \/ actual + HEADER_LENGHT <= h) /\
              (N = 0 \/ h = N \/ h + HEADER_LENGHT <= N \/ N + HEADER_LENGHT <= h)).
    { intros h Hin. pose proof (block_end_ge m h). split; [|split].
      - destruct (Hoth h Hin) as [->|[?|(Hn & ?)]]; [lia|lia|].
        destruct HN as [?|(_ & ?)]; [contradiction | lia].
      - destruct (ordered_disjoint _ _ _ _ _ _ Ho Hin Hact) as [?|[?|?]]; [auto|lia|].
        right; right. lia.
      - destruct HN as [?|(HNin & _)]; [now left|]. right.
        pose proof (block_end_ge m N).
        destruct (ordered_disjoint _ _ _ _ _ _ Ho Hin HNin) as [?|[?|?]]; [auto|lia|lia]. }
    assert (Hact0 : actual <> 0) by lia.
    unfold placed.
    split; [lia|]. split; [lia|]. split; [exact Hroom|].
    split; [intros X; now elim Hact0|].
    split; [intros _; repeat split; try assumption; try reflexivity;
            destruct (N =? 0); reflexivity|].
    split; [intros Hn; destruct HN as [?|?]; [contradiction | assumption]|].
    split; [intros h Hin; destruct (Hoth h Hin) as [?|[?|?]]; tauto|].
    split; [destruct (N =? 0); reflexivity|].
    split; [destruct (N =? 0); reflexivity|].
    split; [destruct (N =? 0); reflexivity|].
    split; [exact A1|]. split; [exact A2|]. split; [exact A3|]. split; [exact A4|].
    destruct (Z.eqb_spec actual 0); [contradiction|]. cbn [negb andb].
    split.
    + intros h Hin. destruct (Hdis h Hin) as (D1 & D2 & D3).
      assert (Hh0 : h <> 0) by (eapply chain_nonzero; eassumption).
      destruct (Z.eqb_spec h actual) as [->|Hha].
      * destruct (Z.eqb_spec actual N) as [EN|_].
        { destruct HN as [?|(_ & ?)]; [congruence | lia]. }
        split; [|split; [|split]]; auto.
      * destruct D2 as [?|D2]; [contradiction|].
        destruct (Z.eqb_spec h N) as [->|HhN].
        -- destruct (C ltac:(congruence)) as (C1 & C2 & C3 & C4).
           split; [|split; [|split]]; auto.
        -- destruct (header_ext m (linked_behind m actual (next_padding_size size)) h)
             as (F0 & F1 & F2 & F3 & F4).
           { intros x Hx. apply D; unfold HEADER_LENGHT in *; lia. }
           split; [|split; [|split]]; congruence.
    + intros x Hx Hxl. pose proof (Hxl actual Hact) as Hxa.
      assert (HxN : N = 0 \/ (x < N \/ N + HEADER_LENGHT <= x)).
      { destruct HN as [?|(HNin & _)]; [now left|]. right. now apply Hxl. }
      apply D; unfold HEADER_LENGHT in *; lia.
Qed.

Lemma ordered_frame m m' l : forall lo lo' hi hi',
  (forall x, In x l -> hdr_size m' x = hdr_size m x) ->
  lo' <= lo -> hi <= hi' -> ordered m lo l hi -> ordered m' lo' l hi'.
Proof.
  induction l as [|x t IH]; intros lo lo' hi hi' Hs Hlo Hhi Ho; simpl in *.
  - lia.
  - destruct Ho as (Hx & Ho). split; [lia|].
    apply (IH (block_end m x) _ hi hi'); [| |exact Hhi|exact Ho].
    + intros y Hy. apply Hs. now right.
    + unfold block_end. rewrite (Hs x) by now left. lia.
Qed.

Lemma prev_linked_frame m m' l : forall q,
  (forall x, In x l -> hdr_prev m' x = hdr_prev m x) ->
  prev_linked m q l -> prev_linked m' q l.
Proof.
  induction l as [|x t IH]; intros q Hs Hp; simpl in *; [exact I|].
  destruct Hp as (Hx & Hp). split.
  - rewrite Hs by now left. exact Hx.
  - apply IH; [|exact Hp]. intros y Hy. apply Hs. now right.
Qed.

Lemma insert_addr_front nb l :
  (forall h, In h l -> nb < h) -> insert_addr nb l = nb :: l.
Proof.
  destruct l as [|x t]; intros H; [reflexivity|]. simpl.
  destruct (Z.ltb_spec nb x) as [_|Hge]; [reflexivity|].
  specialize (H x (or_introl eq_refl)). lia.
Qed.

Lemma In_insert_addr nb l x : In x (insert_addr nb l) <-> x = nb \/ In x l.
Proof.
  induction l as [|y t IH]; simpl.
  - intuition.
  - destruct (nb <? y); simpl; rewrite ?IH; intuition.
Qed.

Lemma length_insert_addr nb l : length (insert_addr nb l) = S (length l).
Proof.
  induction l as [|y t IH]; simpl; [reflexivity|].
  destruct (nb <? y); simpl; rewrite ?IH; reflexivity.
Qed.

(** Linking a header in front of a list. *)
Lemma insert_front m m1 nb np l p lo lo' hi hi' :
  chain m p l -> ordered m lo l hi ->
  nb <> 0 -> lo' <= nb -> hi <= hi' -> nb + HEADER_LENGHT + np <= hi' ->
  (forall h, In h l -> nb + HEADER_LENGHT + np <= h) ->
  hdr_size m1 nb = np -> hdr_next m1 nb = p ->
  (forall h, In h l -> hdr_size m1 h = hdr_size m h /\
                       hdr_next m1 h = hdr_next m h) ->
  chain m1 nb (nb :: l) /\ ordered m1 lo' (nb :: l) hi'.
Proof.
  intros Hc Ho Hnb Hlo Hhi Hend Hfar Hs Hn Hl. split.
  - simpl. split; [reflexivity|]. split; [exact Hnb|]. rewrite Hn.
    apply (chain_frame m); [|exact Hc]. intros x Hx. now apply Hl.
  - simpl. split; [exact Hlo|].
    assert (Hbe : block_end m1 nb = nb + HEADER_LENGHT + np).
    { unfold block_end. rewrite Hs. reflexivity. }
    rewrite Hbe. destruct l as [|x t].
    + simpl. exact Hend.
    + destruct Ho as (Hx & Ho). simpl. split; [apply Hfar; now left|].
      apply (ordered_frame m m1 t (block_end m x) _ hi); auto.
      * intros y Hy. apply Hl. now right.
      * unfold block_end. destruct (Hl x (or_introl eq_refl)) as (-> & _). lia.
Qed.

(** Linking a header behind the block [P] of a list. *)
Lemma insert_behind m m1 nb np P N hi hi' :
  0 <= np -> nb <> 0 -> nb = block_end m P -> N = hdr_next m P ->
  (N <> 0 -> nb + HEADER_LENGHT + np <= N) ->
  hi <= hi' -> nb + HEADER_LENGHT + np <= hi' ->
  hdr_size m1 nb = np -> hdr_prev m1 nb = P -> hdr_next m1 nb = N ->
  forall l p lo q,
    chain m p l -> ordered m lo l hi -> prev_linked m q l -> In P l ->
    (forall h, In h l ->
       hdr_size m1 h = hdr_size m h /\
       hdr_next m1 h = (if h =? P then nb else hdr_next m h) /\
       hdr_prev m1 h = (if h =? N then nb else hdr_prev m h)) ->
    chain m1 p (insert_addr nb l) /\
    ordered m1 lo (insert_addr nb l) hi' /\
    prev_linked m1 q (insert_addr nb l).
Proof.
  intros Hnp Hnb0 Hnb HN Hgap Hhi Hend Hs Hpv Hnx.
  pose proof HEADER_LENGHT_pos as HH.
  pose proof (block_end_ge m P) as HPbe.
  assert (Hbe1 : block_end m1 nb = nb + HEADER_LENGHT + np).
  { unfold block_end. rewrite Hs. reflexivity. }
  induction l as [|x t IH]; intros p lo q Hc Ho Hp HP Hl; [contradiction|].
  destruct Hc as (-> & Hx0 & Hc). destruct Ho as (Hlo & Ho).
  destruct Hp as (Hxq & Hp).
  pose proof (block_end_ge m x) as Hxbe.
  destruct (Hl x (or_introl eq_refl)) as (Sx & Nx & Px).
  assert (Hbex : block_end m1 x = block_end m x).
  { unfold block_end. rewrite Sx. reflexivity. }
  assert (Hlater : forall y, In y t -> block_end m x <= y).
  { intros y Hy. destruct (ordered_bounds _ _ _ _ _ Ho Hy). lia. }
  destruct (Z.eq_dec x P) as [->|HxP].
  - (* the header goes right behind the first block *)
    clear IH. rewrite Z.eqb_refl in Nx.
    assert (HPN : P <> N).
    { intros E. destruct t as [|y t']; simpl in Hc; [congruence|].
      destruct Hc as (E' & _). specialize (Hlater y (or_introl eq_refl)).
      rewrite <- HN in E'. lia. }
    destruct (Z.eqb_spec P N) as [?|_]; [contradiction|].
    assert (Hins : insert_addr nb (P :: t) = P :: nb :: t).
    { simpl. destruct (Z.ltb_spec nb P); [lia|]. f_equal.
      apply insert_addr_front. intros h Hh.
      destruct t as [|y t']; [contradiction|].
      pose proof Hc as (E & Hy0 & _). rewrite <- HN in E. subst y.
      specialize (Hgap Hy0).
      destruct Hh as [<-|Hh]; [lia|].
      destruct Ho as (_ & Ho'). destruct (ordered_bounds _ _ _ _ _ Ho' Hh).
      pose proof (block_end_ge m N). lia. }
    rewrite Hins.
    assert (HtP : forall y, In y t -> y <> P).
    { intros y Hy ->. specialize (Hlater P Hy). lia. }
    split; [|split].
    + simpl. split; [reflexivity|]. split; [exact Hx0|]. rewrite Nx.
      split; [reflexivity|]. split; [lia|]. rewrite Hnx, HN.
      apply (chain_frame m); [|exact Hc]. intros y Hy.
      destruct (Hl y (or_intror Hy)) as (_ & Ny & _).
      destruct (Z.eqb_spec y P) as [E|_]; [now elim (HtP y Hy)|exact Ny].
    + simpl. split; [exact Hlo|]. rewrite Hbex, Hbe1. split; [lia|].
      destruct t as [|y t'].
      * simpl. exact Hend.
      * pose proof Hc as (E & Hy0 & _). rewrite <- HN in E. subst y.
        destruct Ho as (Hy & Ho'). simpl. split; [now apply Hgap|].
        apply (ordered_frame m m1 t' (block_end m N) _ hi); auto.
        -- intros z Hz. apply Hl. right. now right.
        -- unfold block_end.
           destruct (Hl N (or_intror (or_introl eq_refl))) as (-> & _). lia.
    + simpl. split; [rewrite Px; exact Hxq|]. split; [exact Hpv|].
      destruct t as [|y t']; [exact I|].
      pose proof Hc as (E & Hy0 & _). rewrite <- HN in E. subst y.
      destruct Hp as (_ & Hp'). destruct Ho as (_ & Ho'). simpl. split.
      * destruct (Hl N (or_intror (or_introl eq_refl))) as (_ & _ & PN).
        rewrite Z.eqb_refl in PN. exact PN.
      * apply (prev_linked_frame m); [|exact Hp']. intros z Hz.
        destruct (Hl z (or_intror (or_intror Hz))) as (_ & _ & Pz).
        destruct (Z.eqb_spec z N) as [->|_]; [|exact Pz].
        destruct (ordered_bounds _ _ _ _ _ Ho' Hz).
        pose proof (block_end_ge m N). lia.
  - (* the header goes further back *)
    destruct HP as [?|HP]; [contradiction|].
    specialize (Hlater P HP).
    assert (HxN : x <> N).
    { intros ->. destruct (Z.eq_dec N 0) as [?|Hn]; [contradiction|].
      specialize (Hgap Hn). lia. }
    destruct (Z.eqb_spec x P) as [?|_]; [contradiction|].
    destruct (Z.eqb_spec x N) as [?|_]; [contradiction|].
    simpl insert_addr. destruct (Z.ltb_spec nb x); [lia|].
    destruct (IH (hdr_next m x) (block_end m x) x Hc Ho Hp HP) as (C1 & C2 & C3).
    { intros h Hh. apply Hl. now right. }
    split; [|split]; simpl.
    + split; [reflexivity|]. split; [exact Hx0|]. rewrite Nx. exact C1.
    + split; [exact Hlo|]. rewrite Hbex. exact C2.
    + split; [rewrite Px; exact Hxq | exact C3].
Qed.

(** What a placement does to the list of live blocks. *)
Lemma placed_list a m l np nb P N a1 m1 :
  well_formed a m l -> 0 <= np -> placed a m l np nb P N a1 m1 ->
  forall hi, start_addr a + arena_size a <= hi -> nb + HEADER_LENGHT + np <= hi ->
  chain m1 (head a1) (insert_addr nb l) /\
  ordered m1 (start_addr a) (insert_addr nb l) hi /\
  (P <> 0 \/ l = [] -> prev_linked m1 0 (insert_addr nb l)).
Proof.
  intros (Hst & Hsz & Hend & Hc & Ho & Hp) Hnp
    (H1 & H2 & H3 & HP0 & HP1 & HN1 & Hpos & Ht & Hsa & Has & Fs & Fp & Fn & Fc & Fl & Fr)
    hi Hhi1 Hhi2.
  pose proof HEADER_LENGHT_pos as HH.
  destruct (Z.eq_dec P 0) as [EP|EP].
  - destruct (HP0 EP) as (Enb & EN & Eh). rewrite Eh.
    assert (Hfar : forall h, In h l -> nb + HEADER_LENGHT + np <= h).
    { intros h Hh. destruct (Hpos h Hh) as [[E|E]|(Hn & Hle)].
      - subst h. subst P. now elim (chain_nonzero _ _ _ _ Hc Hh).
      - pose proof (block_end_ge m h).
        destruct (ordered_bounds _ _ _ _ _ Ho Hh). lia.
      - destruct (HN1 Hn). lia. }
    rewrite insert_addr_front by (intros h Hh; specialize (Hfar h Hh); lia).
    assert (Fn' : hdr_next m1 nb = head a) by congruence.
    destruct (insert_front m m1 nb np l (head a) (start_addr a) (start_addr a)
                (start_addr a + arena_size a) hi Hc Ho ltac:(lia) ltac:(lia)
                Hhi1 Hhi2 Hfar Fs Fn') as (C1 & C2).
    { intros h Hh. destruct (Fl h Hh) as (S1 & N1 & _). split; [exact S1|].
      destruct (Z.eqb_spec h P) as [E|_]; [|exact N1].
      subst h. subst P. now elim (chain_nonzero _ _ _ _ Hc Hh). }
    split; [exact C1|]. split; [exact C2|].
    intros [? | ->]; [contradiction|]. simpl. split; [congruence | exact I].
  - destruct (HP1 EP) as (HPin & Enb & EN & Eh). rewrite Eh.
    destruct (insert_behind m m1 nb np P N (start_addr a + arena_size a) hi
                Hnp ltac:(lia) Enb EN ltac:(intros Hn; now destruct (HN1 Hn)) Hhi1 Hhi2 Fs Fp Fn
                l (head a) (start_addr a) 0 Hc Ho Hp HPin) as (C1 & C2 & C3).
    { intros h Hh. destruct (Fl h Hh) as (S1 & N1 & P1 & _).
      split; [exact S1|]. split; [exact N1|].
      destruct (Z.eqb_spec P 0); [contradiction|]. exact P1. }
    split; [exact C1|]. split; [exact C2|]. intros _. exact C3.
Qed.

(** [a_malloc] returns on a well-formed arena: with [NULL] nothing is
    changed, otherwise a header has been placed. *)
Lemma a_malloc_outcome fuel a m l size :
  well_formed a m l -> (length l <= fuel)%nat ->
  start_addr a + arena_size a + next_padding_size size + HEADER_LENGHT < modulus ->
  exists q a1 m1,
    a_malloc fuel a m size = Some (q, a1, m1) /\
    (q = 0 -> a1 = a /\ m1 = m) /\
    (q <> 0 -> HEADER_LENGHT <= q /\
               exists P N, placed a m l (next_padding_size size)
                                  (q - HEADER_LENGHT) P N a1 m1).
Proof.
  intros Hwf Hf Hnw.
  pose proof HEADER_LENGHT_pos as HH. pose proof Hwf as (Hst & _).
  assert (Hex : exists q a1 m1, a_malloc fuel a m size = Some (q, a1, m1) /\
                                (q = 0 -> a1 = a /\ m1 = m)).
  { destruct (a_malloc_cases fuel a m l size Hwf Hf Hnw)
      as [(E & _)|[(_ & _ & E)|[(_ & _ & E)|(actual & Hact & _ & _ & _ & _ & _ & E)]]];
      rewrite E; do 3 eexists; (split; [reflexivity|]); intros Hq; auto; exfalso.
    - lia.
    - lia.
    - destruct Hwf as (_ & _ & _ & _ & Ho & _).
      destruct (ordered_bounds _ _ _ _ _ Ho Hact).
      pose proof (block_end_ge m actual). lia. }
  destruct Hex as (q & a1 & m1 & E & Hz). exists q, a1, m1.
  split; [exact E|]. split; [exact Hz|]. intros Hq.
  exact (a_malloc_placed fuel a m l size q a1 m1 Hwf Hf Hnw E Hq).
Qed.

Lemma chain_last_null m l : forall p x,
  chain m p l -> In x l -> hdr_next m x = 0 -> x = last l 0.
Proof.
  induction l as [|h t IH]; intros p x Hc Hx Hn; [contradiction|].
  destruct Hc as (-> & Hh & Hc). destruct Hx as [->|Hx].
  - rewrite Hn in Hc. destruct t as [|y t]; [reflexivity|].
    destruct Hc as (E & Hy & _). congruence.
  - rewrite (IH _ x Hc Hx Hn). destruct t; [contradiction | reflexivity].
Qed.

(** On a well-formed arena [available_block_space] is the distance from the
    end of the block to its successor, or to the end of the region. *)
Lemma available_block_space_wf a m l h :
  well_formed a m l -> In h l ->
  available_block_space a m h
  = (if hdr_next m h =? 0 then start_addr a + arena_size a else hdr_next m h)
    - block_end m h /\
  0 <= available_block_space a m h.
Proof.
  intros (Hst & Hsz & Hend & Hc & Ho & Hp) Hh.
  destruct (ordered_bounds _ _ _ _ _ Ho Hh) as (Hlo & Hhi).
  assert (Hle : block_end m h <= (if hdr_next m h =? 0
                                  then start_addr a + arena_size a
                                  else hdr_next m h)).
  { destruct (Z.eqb_spec (hdr_next m h) 0) as [E|E]; [exact Hhi|].
    destruct (chain_next_in _ _ _ _ _ _ Hc Ho Hh) as [?|(_ & ?)];
      [contradiction | assumption]. }
  rewrite available_block_space_gap by (try assumption; lia). lia.
Qed.

(** [a_malloc] returns [NULL] exactly when no gap has room. *)
Lemma a_malloc_null_iff fuel a m l size :
  well_formed a m l -> (length l <= fuel)%nat ->
  start_addr a + arena_size a + next_padding_size size + HEADER_LENGHT < modulus ->
  exists q a1 m1,
    a_malloc fuel a m size = Some (q, a1, m1) /\
    (q = 0 <-> ~ room a m l (next_padding_size size)) /\
    (q = 0 -> a1 = a /\ m1 = m).
Proof.
  intros Hwf Hf Hnw. pose proof Hwf as (Hst & Hsz & Hend & Hc & Ho & Hp).
  pose proof HEADER_LENGHT_pos as HH.
  pose proof (next_padding_size_range size) as Hnp.
  destruct (a_malloc_cases fuel a m l size Hwf Hf Hnw)
    as [(E & He & Hne)|[(El & Hfit & E)|[(Hne & Hfit & E)|
        (actual & Hact & _ & _ & _ & Hgap & Hroom & E)]]];
    cbv zeta in *; rewrite E; do 3 eexists; (split; [reflexivity|]).
  - split; [|auto]. split; [|reflexivity]. intros _ Hr.
    destruct l as [|h0 t]; [simpl in Hr; specialize (He eq_refl); lia|].
    destruct (Hne ltac:(discriminate)) as (Hlead & Hav & (t0 & Ht0 & Hn0 & Hfull)).
    destruct Hr as [Hr|(x & Hx & Hr)]; [lia|].
    destruct (available_block_space_wf a m _ x Hwf Hx) as (Eav & _).
    specialize (Hav x Hx).
    destruct (Z.eqb_spec (hdr_next m x) 0) as [En|En]; [|lia].
    assert (x = t0).
    { rewrite (chain_last_null _ _ _ _ Hc Hx En).
      rewrite (chain_last_null _ _ _ _ Hc Ht0 Hn0). reflexivity. }
    subst t0. lia.
  - split; [|intros; lia]. split; [intros; lia|]. intros Hr. exfalso. apply Hr.
    subst l. simpl. lia.
  - split; [|intros; lia]. split; [intros; lia|]. intros Hr. exfalso. apply Hr.
    destruct l as [|h0 t]; [contradiction|]. left. lia.
  - destruct (ordered_bounds _ _ _ _ _ Ho Hact) as (Halo & _).
    pose proof (block_end_ge m actual) as Habe.
    split; [|intros; lia]. split; [intros; lia|]. intros Hr. exfalso. apply Hr.
    destruct l as [|h0 t]; [contradiction|]. right. exists actual.
    split; [exact Hact|].
    destruct (available_block_space_wf a m _ actual Hwf Hact) as (Eav & _).
    rewrite Eav.
    destruct (Z.eqb_spec (hdr_next m actual) 0) as [En|En]; [lia|].
    specialize (Hgap En). lia.
Qed.

(** X1: on a well-formed arena [a_malloc] returns; it returns [NULL] exactly
    when no gap has room for the block, and then neither the arena record
    nor the memory is changed. *)
Theorem a_malloc_fails_iff_no_room fuel a m l size :
  well_formed a m l -> (length l <= fuel)%nat ->
  start_addr a + arena_size a + next_padding_size size + HEADER_LENGHT < modulus ->
  exists q a1 m1,
    a_malloc fuel a m size = Some (q, a1, m1) /\
    (q = 0 <-> ~ room a m l (next_padding_size size)) /\
    (q = 0 -> a1 = a /\ m1 = m).
Proof. exact (a_malloc_null_iff fuel a m l size). Qed.

(** X2: the block of a successful [a_malloc] starts inside the region with a
    header that records the padded size, overlaps no live block, and the
    call writes inside headers only: every live block keeps its size and
    its data. *)
Theorem a_malloc_new_block_is_fresh fuel a m l size :
  well_formed a m l -> (length l <= fuel)%nat ->
  start_addr a + arena_size a + next_padding_size size + HEADER_LENGHT < modulus ->
  exists q a1 m1,
    a_malloc fuel a m size = Some (q, a1, m1) /\
    (q <> 0 ->
     let nb := q - HEADER_LENGHT in
     let np := next_padding_size size in
     start_addr a <= nb /\ nb + np <= start_addr a + arena_size a /\
     start_addr a1 = start_addr a /\ arena_size a1 = arena_size a /\
     hdr_size m1 nb = np /\
     fresh_block m l nb np /\
     (forall h, In h l ->
        q <> h + HEADER_LENGHT /\ hdr_size m1 h = hdr_size m h /\
        forall x, h + HEADER_LENGHT <= x < block_end m h -> m1 x = m x) /\
     (forall x, x < nb \/ nb + HEADER_LENGHT <= x ->
                (forall h, In h l -> x < h \/ h + HEADER_LENGHT <= x) ->
                m1 x = m x)).
Proof.
  intros Hwf Hf Hnw. pose proof Hwf as (Hst & Hsz & Hend & Hc & Ho & Hp).
  pose proof HEADER_LENGHT_pos as HH.
  pose proof (next_padding_size_range size) as Hnp.
  destruct (a_malloc_outcome fuel a m l size Hwf Hf Hnw)
    as (q & a1 & m1 & E & _ & Hs).
  exists q, a1, m1. split; [exact E|]. intros Hq nb np.
  destruct (Hs Hq) as (Hq' & P & N &
    (H1 & H2 & H3 & HP0 & HP1 & HN1 & Hpos & Ht & Hsa & Has & Fs & Fp & Fn & Fc & Fl & Fr)).
  fold nb in H1, H2, H3, HP0, HP1, HN1, Ht, Fs, Fp, Fn, Fc, Fl, Fr.
  fold np in H3, HN1, Fs.
  assert (Hfresh : fresh_block m l nb np).
  { intros h Hh. pose proof (block_end_ge m h) as Hbe.
    destruct (ordered_bounds _ _ _ _ _ Ho Hh) as (Hlo & _).
    destruct (Hpos h Hh) as [[E1|E1]|(Hn & Hle)].
    - right. subst h. destruct (HP1 ltac:(lia)) as (_ & -> & _). lia.
    - right. assert (P <> 0) by lia. destruct (HP1 ltac:(lia)) as (_ & -> & _).
      pose proof (block_end_ge m P). lia.
    - left. destruct (HN1 Hn). lia. }
  split; [exact H2|]. split; [exact H3|]. split; [exact Hsa|]. split; [exact Has|].
  split; [exact Fs|]. split; [exact Hfresh|]. split; [|exact Fr].
  intros h Hh. pose proof (block_end_ge m h) as Hbe.
  split; [|split].
  - destruct (Hfresh h Hh); unfold nb in *; lia.
  - now destruct (Fl h Hh).
  - intros x Hx. apply Fr.
    + destruct (Hfresh h Hh); lia.
    + intros h' Hh'. pose proof (block_end_ge m h').
      destruct (ordered_disjoint _ _ _ _ _ _ Ho Hh Hh') as [<-|[?|?]]; lia.
Qed.

(** X3: after a successful [a_malloc] the walk from [head] visits the old
    blocks and the new one in increasing address order, without overlap;
    the new block may end up to a header's length behind the region. *)
Theorem a_malloc_inserts_in_address_order fuel a m l size :
  well_formed a m l -> (length l <= fuel)%nat ->
  start_addr a + arena_size a + next_padding_size size + HEADER_LENGHT < modulus ->
  exists q a1 m1,
    a_malloc fuel a m size = Some (q, a1, m1) /\
    (q <> 0 ->
     chain m1 (head a1) (insert_addr (q - HEADER_LENGHT) l) /\
     ordered m1 (start_addr a1) (insert_addr (q - HEADER_LENGHT) l)
             (start_addr a1 + arena_size a1 + HEADER_LENGHT)).
Proof.
  intros Hwf Hf Hnw.
  pose proof HEADER_LENGHT_pos as HH.
  pose proof (next_padding_size_range size) as Hnp.
  destruct (a_malloc_outcome fuel a m l size Hwf Hf Hnw)
    as (q & a1 & m1 & E & _ & Hs).
  exists q, a1, m1. split; [exact E|]. intros Hq.
  destruct (Hs Hq) as (Hq' & P & N & Hpl).
  pose proof Hpl as (_ & _ & H3 & _ & _ & _ & _ & _ & Hsa & Has & _).
  rewrite Hsa, Has.
  assert (G1 : 0 <= next_padding_size size) by lia.
  assert (G2 : start_addr a + arena_size a
               <= start_addr a + arena_size a + HEADER_LENGHT) by lia.
  assert (G3 : q - HEADER_LENGHT + HEADER_LENGHT + next_padding_size size
               <= start_addr a + arena_size a + HEADER_LENGHT) by lia.
  destruct (placed_list a m l (next_padding_size size) (q - HEADER_LENGHT) P N
              a1 m1 Hwf G1 Hpl _ G2 G3) as (C1 & C2 & _).
  split; assumption.
Qed.

(** X4: [a_malloc] leaves every header it touches with a matching canary:
    the new header's canary is the checksum of its fields, and a live
    header whose canary matched before the call matches after it. *)
Theorem a_malloc_keeps_canaries fuel a m l size :
  well_formed a m l -> (length l <= fuel)%nat ->
  start_addr a + arena_size a + next_padding_size size + HEADER_LENGHT < modulus ->
  exists q a1 m1,
    a_malloc fuel a m size = Some (q, a1, m1) /\
    (q <> 0 ->
     hdr_canary m1 (q - HEADER_LENGHT) = compute_canary m1 (q - HEADER_LENGHT) /\
     forall h, In h l -> hdr_canary m h = compute_canary m h ->
               hdr_canary m1 h = compute_canary m1 h).
Proof.
  intros Hwf Hf Hnw.
  destruct (a_malloc_outcome fuel a m l size Hwf Hf Hnw)
    as (q & a1 & m1 & E & _ & Hs).
  exists q, a1, m1. split; [exact E|]. intros Hq.
  destruct (Hs Hq) as (Hq' & P & N &
    (_ & _ & _ & _ & _ & _ & _ & _ & _ & _ & _ & _ & _ & Fc & Fl & _)).
  split; [exact Fc|]. intros h Hh. now destruct (Fl h Hh) as (_ & _ & _ & ?).
Qed.

(** X5: [a_malloc] is first fit: when it places the block behind a live
    block, the gap in front of the list and the space behind every block
    that ends before the new header are smaller than header plus padded
    size. *)
Theorem a_malloc_takes_first_fit fuel a m l size :
  well_formed a m l -> (length l <= fuel)%nat ->
  start_addr a + arena_size a + next_padding_size size + HEADER_LENGHT < modulus ->
  exists q a1 m1,
    a_malloc fuel a m size = Some (q, a1, m1) /\
    (q <> 0 -> q <> start_addr a + HEADER_LENGHT ->
     In (q - HEADER_LENGHT) (map (block_end m) l) /\
     head a - start_addr a < next_padding_size size + HEADER_LENGHT /\
     forall x, In x l -> block_end m x < q - HEADER_LENGHT ->
               available_block_space a m x < next_padding_size size + HEADER_LENGHT).
Proof.
  intros Hwf Hf Hnw. pose proof Hwf as (Hst & Hsz & Hend & Hc & Ho & Hp).
  pose proof HEADER_LENGHT_pos as HH.
  destruct (a_malloc_cases fuel a m l size Hwf Hf Hnw)
    as [(E & _)|[(_ & _ & E)|[(_ & _ & E)|
        (actual & Hact & Hlead & Hbefore & Hoth & Hgap & _ & E)]]];
    cbv zeta in *; rewrite E; do 3 eexists; (split; [reflexivity|]);
    intros Hq Hq'; try (exfalso; lia).
  replace (block_end m actual + HEADER_LENGHT - HEADER_LENGHT)
    with (block_end m actual) by lia.
  split; [apply in_map; exact Hact|]. split; [exact Hlead|].
  intros x Hx Hlt. apply Hbefore; [exact Hx|].
  pose proof (block_end_ge m x). pose proof (block_end_ge m actual).
  destruct (Hoth x Hx) as [->|[?|(Hn & Hle)]]; [lia|lia|].
  specialize (Hgap Hn). pose proof (next_padding_size_range size). lia.
Qed.

(** X6: a successful [a_malloc] that does not use the gap in front of the
    list, and whose block ends inside the region, keeps the arena
    well-formed: the list with the new header is the chain from [head],
    address-ordered without overlap inside the region, and [prev] mirrors
    [next]. *)
Theorem a_malloc_behind_keeps_well_formed fuel a m l size :
  well_formed a m l -> (length l <= fuel)%nat ->
  start_addr a + arena_size a + next_padding_size size + HEADER_LENGHT < modulus ->
  exists q a1 m1,
    a_malloc fuel a m size = Some (q, a1, m1) /\
    (q <> 0 -> l = [] \/ q <> start_addr a + HEADER_LENGHT ->
     q + next_padding_size size <= start_addr a + arena_size a ->
     well_formed a1 m1 (insert_addr (q - HEADER_LENGHT) l)).
Proof.
  intros Hwf Hf Hnw. pose proof Hwf as (Hst & Hsz & Hend & _).
  pose proof HEADER_LENGHT_pos as HH.
  pose proof (next_padding_size_range size) as Hnp.
  destruct (a_malloc_outcome fuel a m l size Hwf Hf Hnw)
    as (q & a1 & m1 & E & _ & Hs).
  exists q, a1, m1. split; [exact E|]. intros Hq Hpath Hin.
  destruct (Hs Hq) as (Hq' & P & N & Hpl).
  pose proof Hpl as (_ & _ & _ & HP0 & _ & _ & _ & _ & Hsa & Has & _).
  assert (G1 : 0 <= next_padding_size size) by lia.
  assert (G2 : start_addr a + arena_size a <= start_addr a + arena_size a) by lia.
  assert (G3 : q - HEADER_LENGHT + HEADER_LENGHT + next_padding_size size
               <= start_addr a + arena_size a) by lia.
  destruct (placed_list a m l (next_padding_size size) (q - HEADER_LENGHT) P N
              a1 m1 Hwf G1 Hpl _ G2 G3) as (C1 & C2 & C3).
  unfold well_formed. rewrite Hsa, Has.
  split; [exact Hst|]. split; [exact Hsz|]. split; [exact Hend|].
  split; [exact C1|]. split; [exact C2|]. apply C3.
  destruct Hpath as [->|Hne]; [now right|]. left. intros EP.
  destruct (HP0 EP) as (Enb & _). lia.
Qed.

End Placement.

(** * [a_free] on a well-formed arena *)

Section Unlinking.
Context {pf : Platform}.

Lemma arena_eta (a b : arena_t) :
  start_addr a = start_addr b -> arena_size a = arena_size b ->
  head a = head b -> tail a = tail b -> a = b.
Proof. destruct a, b; simpl; congruence. Qed.

Lemma ordered_remove m h l : forall lo hi,
  ordered m lo l hi -> ordered m lo (remove Z.eq_dec h l) hi.
Proof.
  induction l as [|x t IH]; intros lo hi Ho; [exact Ho|].
  destruct Ho as (Hlo & Ho). simpl.
  destruct (Z.eq_dec h x) as [_|_].
  - apply (ordered_frame m m _ (block_end m x) lo hi hi); auto; try lia.
    pose proof (block_end_ge m x). pose proof HEADER_LENGHT_pos. lia.
  - simpl. split; [exact Hlo|]. now apply IH.
Qed.

Lemma prev_linked_remove m m' h P l : forall q,
  prev_linked m q l ->
  (forall x, In x l -> x <> h ->
     hdr_prev m' x = if hdr_prev m x =? h then P else hdr_prev m x) ->
  (In h l -> hdr_prev m h = P) ->
  prev_linked m' (if q =? h then P else q) (remove Z.eq_dec h l).
Proof.
  induction l as [|x t IH]; intros q Hp Hf HP; [exact I|].
  destruct Hp as (Hx & Hp). simpl.
  destruct (Z.eq_dec h x) as [<-|Hne].
  - specialize (IH h Hp (fun y Hy => Hf y (or_intror Hy)) (fun _ => HP (or_introl eq_refl))).
    rewrite Z.eqb_refl in IH. specialize (HP (or_introl eq_refl)).
    destruct (Z.eqb_spec q h); [exact IH | congruence].
  - simpl. split.
    + rewrite Hf by (auto; now left). rewrite Hx. reflexivity.
    + specialize (IH x Hp (fun y Hy => Hf y (or_intror Hy)) (fun Hy => HP (or_intror Hy))).
      destruct (Z.eqb_spec x h); [congruence | exact IH].
Qed.

Lemma In_remove_iff (h x : Z) l : In x (remove Z.eq_dec h l) <-> In x l /\ x <> h.
Proof.
  split.
  - intros H. apply in_remove in H. exact H.
  - intros (H1 & H2). now apply in_in_remove.
Qed.

(** ** [a_free] on a well-formed arena *)

(** The memory written by [a_free]. *)
Lemma a_free_unlinked a m ptr :
  HEADER_LENGHT <= ptr < modulus ->
  let h := ptr - HEADER_LENGHT in
  (hdr_prev m h <> 0 -> hdr_prev m h + HEADER_LENGHT <= h) ->
  snd (a_free a m ptr) = unlinked m h.
Proof.
  intros Hp h HP. pose proof HEADER_LENGHT_pos as HH.
  pose proof WORDSIZE_pos as HW.
  unfold a_free, unlinked. destruct (Z.eqb_spec ptr 0); [lia|].
  rewrite ptr_to_header_ptr_eq by lia. fold h.
  destruct (Z.eqb_spec (hdr_prev m h) 0) as [HP0|HP0].
  - destruct (hdr_next m h =? 0); reflexivity.
  - specialize (HP HP0).
    assert (HN1 : hdr_next (set_next m (hdr_prev m h) (hdr_next m h)) h = hdr_next m h).
    { fields. mem_simpl. reflexivity. }
    assert (HP1 : hdr_prev (set_next m (hdr_prev m h) (hdr_next m h)) h = hdr_prev m h).
    { fields. mem_simpl. reflexivity. }
    rewrite HN1, HP1. destruct (hdr_next m h =? 0); reflexivity.
Qed.

(** The neighbours of a live block are live blocks a header apart. *)
Lemma neighbours_wf a m l h :
  well_formed a m l -> In h l ->
  HEADER_LENGHT <= h + HEADER_LENGHT < modulus /\ h <> 0 /\
  (hdr_prev m h = 0 -> h = head a) /\
  (hdr_prev m h <> 0 ->
     In (hdr_prev m h) l /\ block_end m (hdr_prev m h) <= h /\
     hdr_next m (hdr_prev m h) = h) /\
  (hdr_next m h <> 0 ->
     In (hdr_next m h) l /\ block_end m h <= hdr_next m h /\
     hdr_prev m (hdr_next m h) = h) /\
  (forall x y, In x l -> In y l ->
     x = y \/ x + HEADER_LENGHT <= y \/ y + HEADER_LENGHT <= x).
Proof.
  intros (Hst & Hsz & Hend & Hc & Ho & Hp) Hin.
  pose proof HEADER_LENGHT_pos as HH.
  destruct (ordered_bounds _ _ _ _ _ Ho Hin) as (Hhlo & Hhhi).
  pose proof (block_end_ge m h) as Hhbe.
  assert (Hfirst : hdr_prev m (head a) = 0).
  { destruct l as [|y t]; [contradiction|].
    destruct Hc as (Ey & _). destruct Hp as (Hy & _). congruence. }
  split; [lia|]. split; [lia|].
  split; [intros E; exact (prev_null_head m l _ _ _ h Hc Ho Hp Hin E)|].
  split; [|split].
  - intros HP0.
    destruct (prev_linked_in _ _ _ _ _ _ Hp Ho Hin) as [?|(I & L)]; [contradiction|].
    split; [exact I|]. split; [exact L|].
    apply (prev_next m l (head a) 0 h Hc Hp Hin). intros ->. contradiction.
  - intros HN0.
    destruct (chain_next_in _ _ _ _ _ _ Hc Ho Hin) as [?|(I & L)]; [contradiction|].
    split; [exact I|]. split; [exact L|].
    exact (next_prev m l _ 0 h Hc Hp Hin HN0).
  - intros x y Hx Hy. pose proof (block_end_ge m x). pose proof (block_end_ge m y).
    destruct (ordered_disjoint _ _ _ _ _ _ Ho Hx Hy) as [?|[?|?]]; [auto|lia|lia].
Qed.

(** [a_free] of a live block: the fields of the remaining headers and the
    remaining list. *)
Lemma a_free_wf a m l ptr :
  well_formed a m l -> In (ptr - HEADER_LENGHT) l ->
  let h := ptr - HEADER_LENGHT in
  let a' := fst (a_free a m ptr) in
  let m' := snd (a_free a m ptr) in
  well_formed a' m' (remove Z.eq_dec h l) /\
  head a' = (if hdr_prev m h =? 0 then hdr_next m h else head a) /\
  tail a' = (if hdr_next m h =? 0 then hdr_prev m h else tail a) /\
  start_addr a' = start_addr a /\ arena_size a' = arena_size a /\
  (forall x, In x l ->
     hdr_size m' x = hdr_size m x /\ hdr_canary m' x = hdr_canary m x /\
     hdr_next m' x = (if x =? hdr_prev m h then hdr_next m h else hdr_next m x) /\
     hdr_prev m' x = (if x =? hdr_next m h then hdr_prev m h else hdr_prev m x)) /\
  (forall x, (forall y, In y l -> y <> h -> x < y \/ y + HEADER_LENGHT <= x) ->
             m' x = m x).
Proof.
  intros Hwf Hin h a' m'. pose proof Hwf as (Hst & Hsz & Hend & Hc & Ho & Hp).
  fold h in Hin.
  pose proof HEADER_LENGHT_pos as HH. pose proof WORDSIZE_pos as HW.
  destruct (neighbours_wf a m l h Hwf Hin) as (Hptr & Hh0 & HP0 & HP1 & HN1 & Hdis).
  replace (h + HEADER_LENGHT) with ptr in Hptr by (unfold h; lia).
  set (P := hdr_prev m h) in *. set (N := hdr_next m h) in *.
  assert (HPd : P <> 0 -> P + HEADER_LENGHT <= h).
  { intros E. destruct (HP1 E) as (_ & L & _). pose proof (block_end_ge m P). lia. }
  assert (HNd : N <> 0 -> h + HEADER_LENGHT <= N).
  { intros E. destruct (HN1 E) as (_ & L & _). pose proof (block_end_ge m h). lia. }
  destruct (a_free_relinks a m ptr Hptr HPd HNd)
    as (R1 & R2 & R3 & R4 & R5 & R6 & R7).
  fold h in R1, R2, R3, R4, R7. fold P in R1, R2, R3, R4, R7.
  fold N in R1, R2, R3, R4, R7. fold a' in R1, R2, R3, R4, R5, R6.
  fold m' in R1, R3, R7.
  assert (Hhead : head a' = (if P =? 0 then N else head a)).
  { destruct (Z.eqb_spec P 0) as [E|E]; [now apply R2 | now apply R1]. }
  assert (Htail : tail a' = (if N =? 0 then P else tail a)).
  { destruct (Z.eqb_spec N 0) as [E|E]; [now apply R4 | now apply R3]. }
  assert (Hfields : forall x, In x l ->
     hdr_size m' x = hdr_size m x /\ hdr_canary m' x = hdr_canary m x /\
     hdr_next m' x = (if x =? P then N else hdr_next m x) /\
     hdr_prev m' x = (if x =? N then P else hdr_prev m x)).
  { intros x Hx.
    assert (HxP : P <> 0 -> x = P \/ x + HEADER_LENGHT <= P \/ P + HEADER_LENGHT <= x).
    { intros E. destruct (HP1 E) as (I & _). now apply Hdis. }
    assert (HxN : N <> 0 -> x = N \/ x + HEADER_LENGHT <= N \/ N + HEADER_LENGHT <= x).
    { intros E. destruct (HN1 E) as (I & _). now apply Hdis. }
    assert (Hx0 : x <> 0) by (eapply chain_nonzero; eassumption).
    assert (HxP' : P <> 0 -> x = P \/ x + 4 * WORDSIZE <= P \/ P + 4 * WORDSIZE <= x)
      by exact HxP.
    assert (HxN' : N <> 0 -> x = N \/ x + 4 * WORDSIZE <= N \/ N + 4 * WORDSIZE <= x)
      by exact HxN.
    split; [|split; [|split]].
    - unfold hdr_size. apply load_ext. intros y Hy. apply R7;
        intros (E & Hr); [specialize (HxP' E) | specialize (HxN' E)];
        clear - HxP' HxN' Hy Hr HW; lia.
    - unfold hdr_canary. apply load_ext. intros y Hy. apply R7;
        intros (E & Hr); [specialize (HxP' E) | specialize (HxN' E)];
        clear - HxP' HxN' Hy Hr HW; lia.
    - destruct (Z.eqb_spec x P) as [->|E].
      + now apply R1.
      + unfold hdr_next. apply load_ext. intros y Hy. apply R7;
          intros (E' & Hr); [specialize (HxP' E') | specialize (HxN' E')];
          clear - HxP' HxN' Hy Hr HW E; lia.
    - destruct (Z.eqb_spec x N) as [->|E].
      + now apply R3.
      + unfold hdr_prev. apply load_ext. intros y Hy. apply R7;
          intros (E' & Hr); [specialize (HxP' E') | specialize (HxN' E')];
          clear - HxP' HxN' Hy Hr HW E; lia. }
  split; [|split; [exact Hhead|split; [exact Htail|split; [exact R5|split; [exact R6|
          split; [exact Hfields|]]]]]].
  - unfold well_formed. rewrite R5, R6.
    split; [exact Hst|]. split; [exact Hsz|]. split; [exact Hend|].
    split; [exact (a_free_chain a m l ptr Hwf Hin)|]. split.
    + apply (ordered_frame m m' _ (start_addr a) _ (start_addr a + arena_size a));
        try lia; [|now apply ordered_remove].
      intros x Hx. apply In_remove_iff in Hx. destruct Hx as (Hx & _).
      now destruct (Hfields x Hx).
    + pose proof (prev_linked_remove m m' h P l 0 Hp) as Hpr.
      destruct (Z.eqb_spec 0 h); [congruence|]. apply Hpr; [|reflexivity].
      intros x Hx Hxh. destruct (Hfields x Hx) as (_ & _ & _ & ->).
      destruct (Z.eqb_spec x N) as [->|E].
      * assert (N <> 0) by (eapply chain_nonzero; eassumption).
        destruct (HN1 ltac:(assumption)) as (_ & _ & ->).
        rewrite Z.eqb_refl. reflexivity.
      * destruct (Z.eqb_spec (hdr_prev m x) h) as [E'|_]; [|reflexivity].
        exfalso. apply E.
        destruct (neighbours_wf a m l x Hwf Hx) as (_ & _ & _ & X & _).
        destruct (X ltac:(congruence)) as (_ & _ & X'). rewrite E' in X'.
        symmetry. exact X'.
  - intros x Hx. apply R7.
    + intros (E & Hr). destruct (HP1 E) as (I & L & _).
      pose proof (block_end_ge m P) as HbP.
      assert (HPh : P <> h) by lia.
      pose proof (Hx P I HPh) as Hx'. unfold HEADER_LENGHT in Hx'.
      clear - Hx' Hr HW. lia.
    + intros (E & Hr). destruct (HN1 E) as (I & L & _).
      pose proof (block_end_ge m h) as Hbh.
      assert (HNh : N <> h) by lia.
      pose proof (Hx N I HNh) as Hx'. unfold HEADER_LENGHT in Hx'.
      clear - Hx' Hr HW. lia.
Qed.

(** X7: [a_free] of a live block keeps the arena well-formed for the
    remaining blocks, and writes link fields only: every block keeps its
    size and its data, and the header of the released block is left as it
    was. *)
Theorem a_free_keeps_well_formed a m l ptr :
  well_formed a m l -> In (ptr - HEADER_LENGHT) l ->
  let h := ptr - HEADER_LENGHT in
  let a' := fst (a_free a m ptr) in
  let m' := snd (a_free a m ptr) in
  well_formed a' m' (remove Z.eq_dec h l) /\
  (forall x, In x l ->
     hdr_size m' x = hdr_size m x /\
     forall y, x + HEADER_LENGHT <= y < block_end m x -> m' y = m y) /\
  (forall y, h <= y < h + HEADER_LENGHT -> m' y = m y).
Proof.
  intros Hwf Hin h a' m'.
  destruct (a_free_wf a m l ptr Hwf Hin) as (W & _ & _ & _ & _ & Hfl & Hfr).
  fold h in W, Hfl, Hfr, Hin. fold a' in W. fold m' in W, Hfl, Hfr.
  pose proof Hwf as (_ & _ & _ & _ & Ho & _).
  pose proof HEADER_LENGHT_pos as HH.
  split; [exact W|]. split.
  - intros x Hx. split; [now destruct (Hfl x Hx)|].
    intros y Hy. apply Hfr. intros z Hz _.
    pose proof (block_end_ge m z).
    destruct (ordered_disjoint _ _ _ _ _ _ Ho Hx Hz) as [<-|[?|?]]; lia.
  - intros y Hy. apply Hfr. intros z Hz Hzh.
    pose proof (block_end_ge m z). pose proof (block_end_ge m h).
    destruct (ordered_disjoint _ _ _ _ _ _ Ho Hin Hz) as [?|[?|?]];
      [congruence|lia|lia].
Qed.

(** X8: releasing a block a second time, directly after the first
    [a_free], changes neither the arena record nor any byte of memory. *)
Theorem a_free_twice_is_harmless a m l ptr :
  well_formed a m l -> In (ptr - HEADER_LENGHT) l ->
  let a' := fst (a_free a m ptr) in
  let m' := snd (a_free a m ptr) in
  fst (a_free a' m' ptr) = a' /\
  forall x, snd (a_free a' m' ptr) x = m' x.
Proof.
  intros Hwf Hin a' m'. set (h := ptr - HEADER_LENGHT) in *.
  pose proof HEADER_LENGHT_pos as HH. pose proof WORDSIZE_pos as HW.
  destruct (neighbours_wf a m l h Hwf Hin) as (Hptr & Hh0 & HP0 & HP1 & HN1 & Hdis).
  replace (h + HEADER_LENGHT) with ptr in Hptr by (unfold h; lia).
  destruct (a_free_wf a m l ptr Hwf Hin) as (_ & Hhead & Htail & _ & _ & Hfl & _).
  fold h in Hfl, Hhead, Htail. fold a' in Hhead, Htail. fold m' in Hfl.
  set (P := hdr_prev m h) in *. set (N := hdr_next m h) in *.
  assert (HPd : P <> 0 -> P + HEADER_LENGHT <= h).
  { intros E. destruct (HP1 E) as (_ & L & _). pose proof (block_end_ge m P). lia. }
  assert (HNd : N <> 0 -> h + HEADER_LENGHT <= N).
  { intros E. destruct (HN1 E) as (_ & L & _). pose proof (block_end_ge m h). lia. }
  destruct (Hfl h Hin) as (_ & _ & Hn' & Hp').
  assert (HhP : (h =? P) = false).
  { apply Z.eqb_neq. intros E. destruct (Z.eq_dec P 0); [congruence|].
    specialize (HPd ltac:(assumption)). lia. }
  assert (HhN : (h =? N) = false).
  { apply Z.eqb_neq. intros E. destruct (Z.eq_dec N 0); [congruence|].
    specialize (HNd ltac:(assumption)). lia. }
  rewrite HhP in Hn'. rewrite HhN in Hp'. fold N in Hn'. fold P in Hp'.
  assert (Em' : m' = unlinked m h).
  { unfold m'. apply a_free_unlinked; [exact Hptr|]. exact HPd. }
  split.
  - destruct (a_free_relinks a' m' ptr Hptr) as (R1 & R2 & R3 & R4 & R5 & R6 & _);
      fold h; rewrite ?Hn', ?Hp'; try assumption.
    fold h in R1, R2, R3, R4. rewrite ?Hn', ?Hp' in R1, R2, R3, R4.
    apply arena_eta; try assumption.
    + destruct (Z.eq_dec P 0) as [E|E]; [|now destruct (R1 E)].
      rewrite (R2 E), Hhead. apply Z.eqb_eq in E. rewrite E. reflexivity.
    + destruct (Z.eq_dec N 0) as [E|E]; [|now destruct (R3 E)].
      rewrite (R4 E), Htail. apply Z.eqb_eq in E. rewrite E. reflexivity.
  - intros x. rewrite (a_free_unlinked a' m' ptr Hptr);
      fold h; rewrite ?Hp'; [|exact HPd].
    unfold unlinked at 1. rewrite Hp', Hn'. rewrite Em'. unfold unlinked.
    fold P. fold N.
    destruct (Z.eqb_spec P 0) as [EP|EP], (Z.eqb_spec N 0) as [EN|EN];
      try reflexivity; unfold set_prev, set_next, store;
      repeat match goal with
             | |- context [if ?c then _ else _] => destruct c
             end; reflexivity.
Qed.

Lemma chain_nil m l : chain m 0 l -> l = [].
Proof.
  destruct l as [|y t]; [reflexivity|]. intros (E & Hy & _). congruence.
Qed.

Lemma head_prev_null a m l :
  well_formed a m l -> l <> [] -> In (head a) l /\ hdr_prev m (head a) = 0.
Proof.
  intros (_ & _ & _ & Hc & _ & Hp) Hne. destruct l as [|y t]; [contradiction|].
  destruct Hc as (-> & _). destruct Hp as (Hy & _). split; [now left | exact Hy].
Qed.

(** Releasing the block that [a_malloc] has just placed. *)
Lemma a_free_placed a m l np nb P N a1 m1 :
  well_formed a m l -> 0 <= np ->
  start_addr a + arena_size a + np + HEADER_LENGHT < modulus ->
  placed a m l np nb P N a1 m1 ->
  let a2 := fst (a_free a1 m1 (nb + HEADER_LENGHT)) in
  let m2 := snd (a_free a1 m1 (nb + HEADER_LENGHT)) in
  start_addr a2 = start_addr a /\ arena_size a2 = arena_size a /\
  head a2 = head a /\ (tail a = last l 0 -> tail a2 = tail a) /\
  (forall h, In h l ->
     hdr_size m2 h = hdr_size m h /\ hdr_prev m2 h = hdr_prev m h /\
     hdr_next m2 h = hdr_next m h) /\
  (forall x, x < nb \/ nb + HEADER_LENGHT <= x ->
             (forall h, In h l -> x < h \/ h + HEADER_LENGHT <= x) ->
             m2 x = m x).
Proof.
  intros Hwf Hnp Hnw
    (H1 & H2 & H3 & HP0 & HP1 & HN1 & Hpos & Ht & Hsa & Has & Fs & Fp & Fn & Fc & Fl & Fr)
    a2 m2.
  pose proof Hwf as (Hst & Hsz & Hend & Hc & Ho & Hp).
  pose proof HEADER_LENGHT_pos as HH. pose proof WORDSIZE_pos as HW.
  assert (Hptr : HEADER_LENGHT <= nb + HEADER_LENGHT < modulus) by lia.
  pose proof (a_free_relinks a1 m1 (nb + HEADER_LENGHT) Hptr) as R.
  cbv zeta in R. replace (nb + HEADER_LENGHT - HEADER_LENGHT) with nb in R by lia.
  rewrite Fp, Fn in R. fold a2 in R. fold m2 in R.
  assert (HPd : P <> 0 -> In P l /\ P + HEADER_LENGHT <= nb /\ hdr_next m P = N).
  { intros E. destruct (HP1 E) as (I & -> & -> & _).
    pose proof (block_end_ge m P). auto. }
  assert (HNd : N <> 0 -> In N l /\ nb + HEADER_LENGHT <= N /\ hdr_prev m N = P).
  { intros E. destruct (HN1 E) as (I & L). split; [exact I|]. split; [lia|].
    destruct (Z.eq_dec P 0) as [EP|EP].
    - destruct (HP0 EP) as (_ & -> & _). rewrite EP.
      apply (head_prev_null a m l Hwf). intros ->. contradiction.
    - destruct (HPd EP) as (IP & _ & EN).
      destruct (neighbours_wf a m l P Hwf IP) as (_ & _ & _ & _ & X & _).
      rewrite EN in X. now destruct (X E). }
  destruct R as (R1 & R2 & R3 & R4 & R5 & R6 & R7).
  { intros E. now destruct (HPd E) as (_ & ? & _). }
  { intros E. now destruct (HNd E) as (_ & ? & _). }
  assert (Hdis : forall x y, In x l -> In y l ->
            x = y \/ x + HEADER_LENGHT <= y \/ y + HEADER_LENGHT <= x).
  { intros x y Hx Hy. pose proof (block_end_ge m x). pose proof (block_end_ge m y).
    destruct (ordered_disjoint _ _ _ _ _ _ Ho Hx Hy) as [?|[?|?]]; [auto|lia|lia]. }
  split; [congruence|]. split; [congruence|]. split; [|split; [|split]].
  - destruct (Z.eq_dec P 0) as [E|E].
    + rewrite (R2 E). now destruct (HP0 E) as (_ & ? & _).
    + destruct (R1 E) as (_ & ->). now destruct (HP1 E) as (_ & _ & _ & ?).
  - intros Hl. destruct (Z.eqb_spec N 0) as [E|E].
    + rewrite (R4 E). rewrite Hl. destruct (Z.eq_dec P 0) as [EP|EP].
      * destruct (HP0 EP) as (_ & EN & _). rewrite E in EN. rewrite <- EN in Hc.
        rewrite (chain_nil m l Hc). simpl. exact EP.
      * destruct (HPd EP) as (IP & _ & EN). rewrite E in EN.
        exact (chain_last_null m l _ P Hc IP EN).
    + destruct (R3 E) as (_ & ->). exact Ht.
  - intros h Hh. destruct (Fl h Hh) as (S1 & N1 & P1 & _).
    assert (Hh0 : h <> 0) by (eapply chain_nonzero; eassumption).
    assert (HhP : P <> 0 -> h = P \/ h + HEADER_LENGHT <= P \/ P + HEADER_LENGHT <= h).
    { intros E. destruct (HPd E) as (I & _). now apply Hdis. }
    assert (HhN : N <> 0 -> h = N \/ h + HEADER_LENGHT <= N \/ N + HEADER_LENGHT <= h).
    { intros E. destruct (HNd E) as (I & _). now apply Hdis. }
    assert (HhP' : P <> 0 -> h = P \/ h + 4 * WORDSIZE <= P \/ P + 4 * WORDSIZE <= h)
      by exact HhP.
    assert (HhN' : N <> 0 -> h = N \/ h + 4 * WORDSIZE <= N \/ N + 4 * WORDSIZE <= h)
      by exact HhN.
    clear HhP HhN.
    split; [|split].
    + rewrite <- S1. unfold hdr_size. apply load_ext. intros y Hy. apply R7;
        intros (E & Hr); [specialize (HhP' E) | specialize (HhN' E)];
        clear - HhP' HhN' Hy Hr HW; lia.
    + destruct (Z.eq_dec h N) as [->|E].
      * destruct (R3 Hh0) as (-> & _). symmetry. now apply HNd.
      * replace (hdr_prev m h) with (hdr_prev m1 h).
        -- unfold hdr_prev. apply load_ext. intros y Hy. apply R7;
             intros (E' & Hr); [specialize (HhP' E') | specialize (HhN' E')];
             clear - HhP' HhN' Hy Hr HW E; lia.
        -- rewrite P1. destruct (Z.eqb_spec h N); [contradiction|].
           rewrite andb_false_r. reflexivity.
    + destruct (Z.eq_dec h P) as [->|E].
      * destruct (R1 Hh0) as (-> & _). symmetry. now apply HPd.
      * replace (hdr_next m h) with (hdr_next m1 h).
        -- unfold hdr_next. apply load_ext. intros y Hy. apply R7;
             intros (E' & Hr); [specialize (HhP' E') | specialize (HhN' E')];
             clear - HhP' HhN' Hy Hr HW E; lia.
        -- rewrite N1. destruct (Z.eqb_spec h P); [contradiction | reflexivity].
  - intros x Hx Hxl. rewrite <- (Fr x Hx Hxl). apply R7.
    + intros (E & Hr). destruct (HPd E) as (I & _).
      pose proof (Hxl P I) as Hx'. unfold HEADER_LENGHT in Hx'.
      clear - Hx' Hr HW. lia.
    + intros (E & Hr). destruct (HNd E) as (I & _).
      pose proof (Hxl N I) as Hx'. unfold HEADER_LENGHT in Hx'.
      clear - Hx' Hr HW. lia.
Qed.

(** X9: [a_free] directly after a successful [a_malloc] undoes it: the list
    of live blocks is the old one with all sizes and links as before, the
    arena is well-formed again, [head] is the old head (and the whole arena
    record the old one when [tail] designated the last block), and outside
    the headers no byte has changed. *)
Theorem a_free_after_a_malloc_restores fuel a m l size :
  well_formed a m l -> (length l <= fuel)%nat ->
  start_addr a + arena_size a + next_padding_size size + HEADER_LENGHT < modulus ->
  exists q a1 m1,
    a_malloc fuel a m size = Some (q, a1, m1) /\
    (q <> 0 ->
     let a2 := fst (a_free a1 m1 q) in
     let m2 := snd (a_free a1 m1 q) in
     well_formed a2 m2 l /\ head a2 = head a /\
     (tail a = last l 0 -> a2 = a) /\
     (forall h, In h l ->
        hdr_size m2 h = hdr_size m h /\ hdr_prev m2 h = hdr_prev m h /\
        hdr_next m2 h = hdr_next m h) /\
     (forall x, x < q - HEADER_LENGHT \/ q <= x ->
                (forall h, In h l -> x < h \/ h + HEADER_LENGHT <= x) ->
                m2 x = m x)).
Proof.
  intros Hwf Hf Hnw. pose proof Hwf as (Hst & Hsz & Hend & Hc & Ho & Hp).
  pose proof (next_padding_size_range size) as Hnp.
  destruct (a_malloc_outcome fuel a m l size Hwf Hf Hnw)
    as (q & a1 & m1 & E & _ & Hs).
  exists q, a1, m1. split; [exact E|]. intros Hq a2 m2.
  destruct (Hs Hq) as (Hq' & P & N & Hpl).
  destruct (a_free_placed a m l _ _ P N a1 m1 Hwf (proj1 Hnp) Hnw Hpl)
    as (A1 & A2 & A3 & A4 & A5 & A6).
  replace (q - HEADER_LENGHT + HEADER_LENGHT) with q in * by lia.
  fold a2 in A1, A2, A3, A4. fold m2 in A5, A6.
  split; [|split; [exact A3|split; [|split; [exact A5|]]]].
  - unfold well_formed. rewrite A1, A2, A3.
    split; [exact Hst|]. split; [exact Hsz|]. split; [exact Hend|].
    split; [|split].
    + apply (chain_frame m); [|exact Hc]. intros x Hx. now destruct (A5 x Hx) as (_ & _ & ?).
    + apply (ordered_frame m m2 l (start_addr a) _ (start_addr a + arena_size a));
        try lia; [|exact Ho].
      intros x Hx. now destruct (A5 x Hx).
    + apply (prev_linked_frame m); [|exact Hp]. intros x Hx.
      now destruct (A5 x Hx) as (_ & ? & _).
  - intros Hl. apply arena_eta; auto.
  - intros x Hx Hxl. apply A6; [lia | exact Hxl].
Qed.

Lemma room_cons a m l np :
  l <> [] ->
  (start_addr a + np + HEADER_LENGHT <= head a \/
   exists x, In x l /\
     (if hdr_next m x =? 0 then np else np + HEADER_LENGHT)
     <= available_block_space a m x) ->
  room a m l np.
Proof. destruct l; [contradiction|]. intros _ H. exact H. Qed.

(** The gap left by a released block takes a block of at most its size. *)
Lemma a_free_room a m l ptr np :
  well_formed a m l -> In (ptr - HEADER_LENGHT) l ->
  0 <= np <= hdr_size m (ptr - HEADER_LENGHT) ->
  room (fst (a_free a m ptr)) (snd (a_free a m ptr))
       (remove Z.eq_dec (ptr - HEADER_LENGHT) l) np.
Proof.
  intros Hwf Hin Hnp. set (h := ptr - HEADER_LENGHT) in *.
  pose proof Hwf as (Hst & Hsz & Hend & Hc & Ho & Hp).
  pose proof HEADER_LENGHT_pos as HH.
  destruct (a_free_wf a m l ptr Hwf Hin) as (W & Hhead & Htail & Hsa & Has & Hfl & _).
  fold h in W, Hhead, Htail, Hfl.
  set (a' := fst (a_free a m ptr)) in *. set (m' := snd (a_free a m ptr)) in *.
  destruct (neighbours_wf a m l h Hwf Hin) as (_ & Hh0 & HP0 & HP1 & HN1 & _).
  destruct (ordered_bounds _ _ _ _ _ Ho Hin) as (Hhlo & Hhhi).
  unfold block_end in Hhhi.
  assert (D : remove Z.eq_dec h l = [] \/ remove Z.eq_dec h l <> []).
  { destruct (remove Z.eq_dec h l); [now left | right; discriminate]. }
  destruct D as [El|Hne].
  - rewrite El. simpl. rewrite Has. lia.
  - apply room_cons; [exact Hne|]. rewrite Hsa.
    destruct (Z.eq_dec (hdr_prev m h) 0) as [EP|EP].
    + left. rewrite Hhead. destruct (Z.eqb_spec (hdr_prev m h) 0); [|contradiction].
      destruct (Z.eq_dec (hdr_next m h) 0) as [EN|EN].
      * exfalso. pose proof W as (_ & _ & _ & Hc' & _).
        rewrite Hhead in Hc'.
        destruct (Z.eqb_spec (hdr_prev m h) 0); [|contradiction].
        rewrite EN in Hc'. exact (Hne (chain_nil _ _ Hc')).
      * destruct (HN1 EN) as (_ & L & _). unfold block_end in L. lia.
    + right. destruct (HP1 EP) as (IP & LP & EPn).
      assert (HPh : hdr_prev m h <> h).
      { pose proof (block_end_ge m (hdr_prev m h)). lia. }
      exists (hdr_prev m h). split; [apply In_remove_iff; auto|].
      assert (IP' : In (hdr_prev m h) (remove Z.eq_dec h l)) by (apply In_remove_iff; auto).
      destruct (available_block_space_wf a' m' _ _ W IP') as (-> & _).
      destruct (Hfl _ IP) as (Sz & _ & Nx & _). rewrite Z.eqb_refl in Nx.
      assert (Eb : block_end m' (hdr_prev m h) = block_end m (hdr_prev m h)).
      { unfold block_end. rewrite Sz. reflexivity. }
      rewrite Nx, Hsa, Has, Eb.
      destruct (Z.eqb_spec (hdr_next m h) 0) as [EN|EN]; [lia|].
      destruct (HN1 EN) as (_ & L & _). unfold block_end in L. lia.
Qed.

(** X10: the space of a released block can be allocated again: after
    [a_free] of a live block, [a_malloc] of a size whose padding is at most
    the size of that block does not return [NULL]. *)
Theorem a_malloc_after_a_free_succeeds fuel a m l ptr size :
  well_formed a m l -> In (ptr - HEADER_LENGHT) l -> (length l <= fuel)%nat ->
  start_addr a + arena_size a + next_padding_size size + HEADER_LENGHT < modulus ->
  next_padding_size size <= hdr_size m (ptr - HEADER_LENGHT) ->
  exists q a2 m2,
    a_malloc fuel (fst (a_free a m ptr)) (snd (a_free a m ptr)) size
    = Some (q, a2, m2) /\ q <> 0.
Proof.
  intros Hwf Hin Hf Hnw Hle. pose proof Hwf as (Hst & Hsz & Hend & Hc & Ho & Hp).
  pose proof (next_padding_size_range size) as Hnp.
  pose proof HEADER_LENGHT_pos as HH.
  destruct (a_free_wf a m l ptr Hwf Hin) as (W & _ & _ & Hsa & Has & _).
  destruct (ordered_bounds _ _ _ _ _ Ho Hin) as (Hhlo & Hhhi).
  unfold block_end in Hhhi.
  destruct (a_malloc_null_iff fuel _ _ _ size W) as (q & a2 & m2 & E & Hiff & _).
  - pose proof (remove_length_le Z.eq_dec l (ptr - HEADER_LENGHT)). lia.
  - rewrite Hsa, Has. lia.
  - exists q, a2, m2. split; [exact E|]. intros Hq. apply Hiff in Hq. apply Hq.
    apply a_free_room; auto. lia.
Qed.

End Unlinking.

(** * The tail pointer *)

Section LastBlock.
Context {pf : Platform}.

(** ** The last block *)

Lemma chain_last_next m l : forall p,
  chain m p l -> l <> [] -> In (last l 0) l /\ hdr_next m (last l 0) = 0.
Proof.
  induction l as [|x t IH]; intros p Hc Hne; [contradiction|].
  destruct Hc as (-> & Hx & Hc). destruct t as [|y t].
  - simpl in *. auto.
  - destruct (IH _ Hc ltac:(discriminate)) as (I & E).
    change (last (x :: y :: t) 0) with (last (y :: t) 0). split; [now right | exact E].
Qed.

Lemma last_remove_other (x d : Z) l :
  l <> [] -> x <> last l d -> last (remove Z.eq_dec x l) d = last l d.
Proof.
  induction l as [|y t IH]; intros Hne Hx; [contradiction|].
  destruct t as [|z t].
  - simpl in *. destruct (Z.eq_dec x y); [congruence | reflexivity].
  - change (last (y :: z :: t) d) with (last (z :: t) d) in *.
    specialize (IH ltac:(discriminate) Hx).
    assert (Hne' : remove Z.eq_dec x (z :: t) <> []).
    { intros E. assert (I : In (last (z :: t) d) (remove Z.eq_dec x (z :: t))).
      { apply in_in_remove; [congruence|].
        clear. generalize z. induction t as [|w t IHt]; intros z'; [now left|].
        right. apply IHt. }
      rewrite E in I. contradiction. }
    change (remove Z.eq_dec x (y :: z :: t))
      with (if Z.eq_dec x y then remove Z.eq_dec x (z :: t)
            else y :: remove Z.eq_dec x (z :: t)).
    destruct (Z.eq_dec x y); [exact IH|].
    destruct (remove Z.eq_dec x (z :: t)) as [|w s] eqn:Er; [contradiction|].
    change (last (y :: w :: s) d) with (last (w :: s) d). exact IH.
Qed.

Lemma last_prev m l : forall q lo hi,
  prev_linked m q l -> ordered m lo l hi -> l <> [] ->
  last (remove Z.eq_dec (last l 0) l) q = hdr_prev m (last l 0).
Proof.
  induction l as [|y t IH]; intros q lo hi Hp Ho Hne; [contradiction|].
  destruct Hp as (Hy & Hp). destruct Ho as (Hlo & Ho).
  destruct t as [|z t].
  - simpl. destruct (Z.eq_dec y y); [|contradiction]. simpl. symmetry. exact Hy.
  - change (last (y :: z :: t) 0) with (last (z :: t) 0).
    set (L := last (z :: t) 0) in *.
    assert (HL : In L (z :: t)).
    { unfold L. clear. generalize z. induction t as [|w t IHt]; intros z'; [now left|].
      right. apply IHt. }
    destruct (ordered_bounds _ _ _ _ _ Ho HL) as (HLlo & _).
    pose proof (block_end_ge m y). pose proof HEADER_LENGHT_pos.
    change (remove Z.eq_dec L (y :: z :: t))
      with (if Z.eq_dec L y then remove Z.eq_dec L (z :: t)
            else y :: remove Z.eq_dec L (z :: t)).
    destruct (Z.eq_dec L y); [lia|].
    rewrite last_cons. apply (IH y _ _ Hp Ho). discriminate.
Qed.

Lemma insert_addr_back nb l :
  (forall h, In h l -> h < nb) -> insert_addr nb l = l ++ [nb].
Proof.
  induction l as [|x t IH]; intros H; [reflexivity|]. simpl.
  destruct (Z.ltb_spec nb x) as [Hlt|_].
  - specialize (H x (or_introl eq_refl)). lia.
  - rewrite IH; [reflexivity|]. intros h Hh. apply H. now right.
Qed.

Lemma last_insert_addr nb l d :
  (exists x, In x l /\ nb < x) -> last (insert_addr nb l) d = last l d.
Proof.
  revert d. induction l as [|y t IH]; intros d (x & Hx & Hlt); [contradiction|].
  simpl insert_addr. destruct (Z.ltb_spec nb y) as [_|Hge].
  - rewrite last_cons. rewrite (last_cons y t d). rewrite last_cons. reflexivity.
  - destruct Hx as [->|Hx]; [lia|].
    rewrite !last_cons. apply IH. exists x. auto.
Qed.

(** X11: [a_malloc] keeps [tail] on the last block of the list. *)
Theorem a_malloc_tail_is_last fuel a m l size :
  well_formed a m l -> (length l <= fuel)%nat ->
  start_addr a + arena_size a + next_padding_size size + HEADER_LENGHT < modulus ->
  tail a = last l 0 ->
  exists q a1 m1,
    a_malloc fuel a m size = Some (q, a1, m1) /\
    (q <> 0 -> tail a1 = last (insert_addr (q - HEADER_LENGHT) l) 0).
Proof.
  intros Hwf Hf Hnw Hl. pose proof Hwf as (Hst & Hsz & Hend & Hc & Ho & Hp).
  pose proof HEADER_LENGHT_pos as HH.
  pose proof (next_padding_size_range size) as Hnp.
  destruct (a_malloc_outcome fuel a m l size Hwf Hf Hnw)
    as (q & a1 & m1 & E & _ & Hs).
  exists q, a1, m1. split; [exact E|]. intros Hq.
  destruct (Hs Hq) as (Hq' & P & N &
    (H1 & H2 & H3 & HP0 & HP1 & HN1 & Hpos & Ht & _)).
  rewrite Ht. destruct (Z.eqb_spec N 0) as [EN|EN].
  - rewrite insert_addr_back; [now rewrite last_last|].
    intros h Hh. destruct (ordered_bounds _ _ _ _ _ Ho Hh) as (Hlo & _).
    pose proof (block_end_ge m h).
    destruct (Hpos h Hh) as [[EP|LP]|(? & _)]; [| |contradiction].
    + subst h. destruct (HP1 ltac:(lia)) as (_ & -> & _). lia.
    + assert (P <> 0) by lia. destruct (HP1 ltac:(lia)) as (_ & -> & _).
      pose proof (block_end_ge m P). lia.
  - destruct (HN1 EN) as (I & L).
    rewrite last_insert_addr; [exact Hl|]. exists N. split; [exact I | lia].
Qed.

(** X12: [a_free] keeps [tail] on the last block of the list. *)
Theorem a_free_tail_is_last a m l ptr :
  well_formed a m l -> In (ptr - HEADER_LENGHT) l -> tail a = last l 0 ->
  tail (fst (a_free a m ptr)) = last (remove Z.eq_dec (ptr - HEADER_LENGHT) l) 0.
Proof.
  intros Hwf Hin Hl. pose proof Hwf as (Hst & Hsz & Hend & Hc & Ho & Hp).
  destruct (a_free_wf a m l ptr Hwf Hin) as (_ & _ & Ht & _).
  rewrite Ht. set (h := ptr - HEADER_LENGHT) in *.
  assert (Hne : l <> []) by (intros ->; contradiction).
  destruct (Z.eqb_spec (hdr_next m h) 0) as [EN|EN].
  - rewrite (chain_last_null m l _ h Hc Hin EN).
    symmetry. exact (last_prev m l 0 _ _ Hp Ho Hne).
  - rewrite Hl. symmetry. apply last_remove_other; [exact Hne|].
    intros E. destruct (chain_last_next m l _ Hc Hne) as (_ & X).
    rewrite <- E in X. contradiction.
Qed.

End LastBlock.

(** * Resizing in place, padding, pointers, canaries, gaps *)

Section Resizing.
Context {pf : Platform}.

(** ** Resizing in place *)

(** C7: for a block pointer [ptr] with header [h], [a_realloc] resizes in
    place when the padded new size is at most the current size (shrink), or
    when the additional bytes are at most what [available_block_space]
    measures behind the block; and on a well-formed arena, for a live block,
    that is the case whenever the additional bytes are at most the gap from
    the end of the block to the start of its successor, or to the end of
    the region for the last block (grow in place).  Resizing in place means:
    [a_realloc] returns [ptr] itself with the arena record unchanged, stores
    the padded size in the header, sets the canary to the checksum
    [size xor prev xor next] of the new fields, keeps both links, and
    changes no byte outside the header's [canary] and [size] fields: no
    data is moved or copied. *)
Theorem a_realloc_in_place fuel a m ptr size :
  HEADER_LENGHT <= ptr < modulus ->
  let h := ptr - HEADER_LENGHT in
  let np := next_padding_size size in
  let in_place :=
    exists m',
      a_realloc fuel a m ptr size = Some (ptr, a, m') /\
      hdr_size m' h = np /\
      hdr_canary m' h = compute_canary m' h /\
      hdr_canary m' h = Z.lxor (Z.lxor np (hdr_prev m h)) (hdr_next m h) /\
      hdr_prev m' h = hdr_prev m h /\
      hdr_next m' h = hdr_next m h /\
      (forall x, x < h \/ h + 2 * WORDSIZE <= x -> m' x = m x) in
  (np <= hdr_size m h \/ np - hdr_size m h <= available_block_space a m h ->
   in_place) /\
  (forall l, well_formed a m l -> In h l ->
     np - hdr_size m h
     <= (if hdr_next m h =? 0 then start_addr a + arena_size a else hdr_next m h)
        - (h + HEADER_LENGHT + hdr_size m h) ->
     in_place).
Proof.
  intros Hp h np in_place.
  assert (HA : np <= hdr_size m h \/ np - hdr_size m h <= available_block_space a m h ->
               in_place).
  { intros Hc. exists (resized m h np).
    split; [exact (a_realloc_keeps_block fuel a m ptr size Hp Hc)|].
    pose proof (next_padding_size_range size) as Hnp. fold np in Hnp.
    pose proof WORDSIZE_pos as HW.
    assert (Hnp' : 0 <= np < modulus) by lia.
    destruct (resized_spec m h np Hnp') as (R1 & R2 & R3 & R4 & R5).
    split; [exact R1|]. split; [exact R2|]. split; [|auto].
    rewrite R2. unfold compute_canary. rewrite R1, R3, R4. reflexivity. }
  split; [exact HA|].
  intros l Hwf Hin Hgap. apply HA. right.
  destruct (available_block_space_wf a m l h Hwf Hin) as (Eav & _).
  rewrite Eav. exact Hgap.
Qed.

Lemma ordered_resized m m' h : forall l p lo hi,
  chain m p l -> ordered m lo l hi ->
  (forall x, In x l -> x <> h -> hdr_size m' x = hdr_size m x) ->
  (In h l -> block_end m' h <= (if hdr_next m h =? 0 then hi else hdr_next m h)) ->
  ordered m' lo l hi.
Proof.
  induction l as [|x t IH]; intros p lo hi Hc Ho Hs Hh; [exact Ho|].
  destruct Hc as (-> & Hx0 & Hc). destruct Ho as (Hlo & Ho).
  pose proof (block_end_ge m x) as Hbe. pose proof HEADER_LENGHT_pos as HH.
  simpl. split; [exact Hlo|].
  destruct (Z.eq_dec x h) as [->|Hne].
  - specialize (Hh (or_introl eq_refl)).
    assert (Hnot : forall y, In y t -> y <> h).
    { intros y Hy ->. destruct (ordered_bounds _ _ _ _ _ Ho Hy). lia. }
    destruct t as [|y t'].
    + simpl in Hc. rewrite Hc in Hh. simpl in *. exact Hh.
    + pose proof Hc as (E & Hy0 & _). rewrite E in Hh.
      destruct (Z.eqb_spec y 0); [contradiction|].
      destruct Ho as (Hy & Ho). simpl. split; [exact Hh|].
      apply (ordered_frame m m' t' (block_end m y) _ hi hi); [| |lia|exact Ho].
      * intros z Hz. apply Hs; [right; now right|]. apply Hnot. now right.
      * unfold block_end. rewrite Hs; [lia|right; now left|]. apply Hnot. now left.
  - assert (E : block_end m' x = block_end m x).
    { unfold block_end. rewrite Hs; [reflexivity|now left|exact Hne]. }
    rewrite E. apply (IH (hdr_next m x)); auto.
    + intros y Hy. apply Hs. now right.
    + intros Hin. apply Hh. now right.
Qed.

(** X13: a resize that [a_realloc] does in place keeps the arena
    well-formed: the resized block ends before its successor, or inside the
    region when it is the last one; every other header is left as it
    was. *)
Theorem resize_in_place_keeps_well_formed fuel a m l ptr size :
  well_formed a m l -> In (ptr - HEADER_LENGHT) l ->
  next_padding_size size <= hdr_size m (ptr - HEADER_LENGHT) \/
  next_padding_size size - hdr_size m (ptr - HEADER_LENGHT)
    <= available_block_space a m (ptr - HEADER_LENGHT) ->
  exists m',
    a_realloc fuel a m ptr size = Some (ptr, a, m') /\
    well_formed a m' l /\
    block_end m' (ptr - HEADER_LENGHT) = ptr + next_padding_size size /\
    (forall x, In x l -> x <> ptr - HEADER_LENGHT ->
       hdr_canary m' x = hdr_canary m x /\ hdr_size m' x = hdr_size m x /\
       hdr_prev m' x = hdr_prev m x /\ hdr_next m' x = hdr_next m x).
Proof.
  intros Hwf Hin Hfit. set (h := ptr - HEADER_LENGHT) in *.
  pose proof Hwf as (Hst & Hsz & Hend & Hc & Ho & Hp).
  pose proof HEADER_LENGHT_pos as HH. pose proof WORDSIZE_pos as HW.
  pose proof (next_padding_size_range size) as Hnp.
  destruct (ordered_bounds _ _ _ _ _ Ho Hin) as (Hhlo & Hhhi).
  pose proof (block_end_ge m h) as Hhbe.
  assert (Eh : h = ptr - HEADER_LENGHT) by reflexivity.
  assert (Hptr : HEADER_LENGHT <= ptr < modulus) by lia.
  exists (resized m h (next_padding_size size)).
  split; [exact (a_realloc_keeps_block fuel a m ptr size Hptr Hfit)|].
  assert (Hnp' : 0 <= next_padding_size size < modulus) by lia.
  destruct (resized_spec m h (next_padding_size size) Hnp')
    as (R1 & R2 & R3 & R4 & R5).
  set (m' := resized m h (next_padding_size size)) in *.
  assert (Hoth : forall x, In x l -> x <> h ->
     hdr_canary m' x = hdr_canary m x /\ hdr_size m' x = hdr_size m x /\
     hdr_prev m' x = hdr_prev m x /\ hdr_next m' x = hdr_next m x).
  { intros x Hx Hxh.
    destruct (header_ext m m' x) as (F0 & F1 & F2 & F3 & _); [|auto].
    intros y Hy. apply R5. pose proof (block_end_ge m x).
    destruct (ordered_disjoint _ _ _ _ _ _ Ho Hx Hin) as [?|[?|?]];
      [contradiction| |]; unfold HEADER_LENGHT in *; lia. }
  assert (Hbe' : block_end m' h = ptr + next_padding_size size).
  { unfold block_end. rewrite R1. lia. }
  split; [|split; [exact Hbe' | exact Hoth]].
  unfold well_formed.
  split; [exact Hst|]. split; [exact Hsz|]. split; [exact Hend|].
  split; [|split].
  - apply (chain_frame m); [|exact Hc]. intros x Hx.
    destruct (Z.eq_dec x h) as [->|E]; [exact R4|]. now destruct (Hoth x Hx E) as (_ & _ & _ & ?).
  - apply (ordered_resized m m' h l (head a)); auto.
    + intros x Hx E. now destruct (Hoth x Hx E) as (_ & ? & _).
    + intros _. rewrite Hbe'.
      destruct (available_block_space_wf a m l h Hwf Hin) as (Eav & Hav).
      unfold block_end in Eav, Hhhi.
      destruct Hfit as [Hle|Hle].
      * destruct (chain_next_in _ _ _ _ _ _ Hc Ho Hin) as [E0|(_ & L)];
          destruct (Z.eqb_spec (hdr_next m h) 0); unfold block_end in *; lia.
      * rewrite Eav in Hle.
        destruct (Z.eqb_spec (hdr_next m h) 0); lia.
  - apply (prev_linked_frame m); [|exact Hp]. intros x Hx.
    destruct (Z.eq_dec x h) as [->|E]; [exact R3|]. now destruct (Hoth x Hx E) as (_ & _ & ? & _).
Qed.

(** ** Padding, pointers and canaries *)

(** X14: for a request of at most [SIZE_MAX - (WORDSIZE - 1)] bytes the padded
    size is the least multiple of the word size that is at least the
    request. *)
Theorem next_padding_size_rounds_up size :
  0 <= size <= SIZE_MAX - (WORDSIZE - 1) ->
  size <= next_padding_size size < size + WORDSIZE /\
  next_padding_size size mod WORDSIZE = 0 /\
  (forall k, size <= WORDSIZE * k -> next_padding_size size <= WORDSIZE * k).
Proof.
  intros Hs. pose proof WORDSIZE_pos as HW. pose proof modulus_pos as HM.
  rewrite next_padding_size_eq. unfold SIZE_MAX in Hs.
  rewrite wrap_small by lia.
  assert (HW0 : WORDSIZE <> 0) by lia.
  pose proof (Z.div_mod (size + (WORDSIZE - 1)) WORDSIZE HW0) as Hd.
  pose proof (Z.mod_pos_bound (size + (WORDSIZE - 1)) WORDSIZE HW) as Hr.
  set (d := (size + (WORDSIZE - 1)) / WORDSIZE) in *.
  split; [lia|]. split.
  - rewrite Z.mul_comm. apply Z.mod_mul. lia.
  - intros k Hk. assert (d <= k); [|nia].
    destruct (Z.le_gt_cases d k) as [?|Hgt]; [assumption|exfalso]. nia.
Qed.

(** X15: the two pointer conversions are inverse to each other on every
    address, also where the sum wraps around. *)
Theorem header_pointer_round_trip p :
  0 <= p < modulus ->
  ptr_to_header_ptr (header_to_dataptr p) = p /\
  header_to_dataptr (ptr_to_header_ptr p) = p.
Proof.
  intros Hp. unfold ptr_to_header_ptr, header_to_dataptr. split.
  - rewrite wrap_sub_l. replace (p + HEADER_LENGHT - HEADER_LENGHT) with p by lia.
    now apply wrap_small.
  - rewrite wrap_add_l. replace (p - HEADER_LENGHT + HEADER_LENGHT) with p by lia.
    now apply wrap_small.
Qed.

Lemma lxor_cancel_r a b c : Z.lxor a c = Z.lxor b c -> a = b.
Proof.
  intros H. apply (f_equal (fun x => Z.lxor x c)) in H.
  now rewrite !Z.lxor_assoc, !Z.lxor_nilpotent, !Z.lxor_0_r in H.
Qed.

(** X16: the canary tells two headers apart that differ in exactly one of
    [size], [prev], [next]; it does not tell them apart when [prev] and
    [next] are exchanged. *)
Theorem compute_canary_detects_one_field m m' h :
  ((hdr_size m' h <> hdr_size m h /\ hdr_prev m' h = hdr_prev m h /\
    hdr_next m' h = hdr_next m h) \/
   (hdr_size m' h = hdr_size m h /\ hdr_prev m' h <> hdr_prev m h /\
    hdr_next m' h = hdr_next m h) \/
   (hdr_size m' h = hdr_size m h /\ hdr_prev m' h = hdr_prev m h /\
    hdr_next m' h <> hdr_next m h) ->
   compute_canary m' h <> compute_canary m h) /\
  (hdr_size m' h = hdr_size m h -> hdr_prev m' h = hdr_next m h ->
   hdr_next m' h = hdr_prev m h ->
   compute_canary m' h = compute_canary m h).
Proof.
  unfold compute_canary. split.
  - intros [(H1 & H2 & H3)|[(H1 & H2 & H3)|(H1 & H2 & H3)]] E.
    + rewrite H2, H3 in E. apply lxor_cancel_r, lxor_cancel_r in E. contradiction.
    + rewrite H1, H3 in E. apply lxor_cancel_r in E.
      rewrite (Z.lxor_comm (hdr_size m h)), (Z.lxor_comm (hdr_size m h)) in E.
      apply lxor_cancel_r in E. contradiction.
    + rewrite H1, H2 in E. rewrite (Z.lxor_comm _ (hdr_next m' h)) in E.
      rewrite (Z.lxor_comm _ (hdr_next m h)) in E.
      apply lxor_cancel_r in E. contradiction.
  - intros H1 H2 H3. rewrite H1, H2, H3.
    rewrite !Z.lxor_assoc. f_equal. apply Z.lxor_comm.
Qed.

(** ** Gaps *)

(** X17: on a well-formed arena the end of a live block is computed without
    wrap-around, and [available_block_space] is the number of bytes from
    there to the successor, or to the end of the region for the last
    block. *)
Theorem available_block_space_is_gap a m l h :
  well_formed a m l -> In h l ->
  pointer_end_block m h = h + HEADER_LENGHT + hdr_size m h /\
  available_block_space a m h
  = (if hdr_next m h =? 0 then start_addr a + arena_size a else hdr_next m h)
    - pointer_end_block m h /\
  0 <= available_block_space a m h /\
  pointer_end_block m h + available_block_space a m h
    <= start_addr a + arena_size a.
Proof.
  intros Hwf Hin. pose proof Hwf as (Hst & Hsz & Hend & Hc & Ho & Hp).
  destruct (ordered_bounds _ _ _ _ _ Ho Hin) as (Hhlo & Hhhi).
  pose proof (block_end_ge m h) as Hbe. pose proof HEADER_LENGHT_pos as HH.
  destruct (available_block_space_wf a m l h Hwf Hin) as (Eav & Hav).
  assert (Epe : pointer_end_block m h = block_end m h).
  { rewrite pointer_end_block_wrap. apply wrap_small. lia. }
  rewrite Epe. split; [reflexivity|]. split; [exact Eav|]. split; [exact Hav|].
  rewrite Eav. destruct (Z.eqb_spec (hdr_next m h) 0) as [E|E]; [lia|].
  destruct (chain_next_in _ _ _ _ _ _ Hc Ho Hin) as [?|(I & _)]; [contradiction|].
  destruct (ordered_bounds _ _ _ _ _ Ho I) as (_ & HNhi).
  pose proof (block_end_ge m (hdr_next m h)). lia.
Qed.

(** ** The first allocation and a destroyed arena *)

(** X18: after [arena_init], whatever the memory holds, the first [a_malloc]
    succeeds exactly when header and padded size fit the region; the block
    starts at [start_addr], [head] and [tail] point to it, it has no
    neighbours, and the arena is well-formed. *)
Theorem a_malloc_first_block fuel a m size :
  0 < start_addr a -> 0 <= arena_size a ->
  start_addr a + arena_size a + next_padding_size size + HEADER_LENGHT < modulus ->
  let a0 := arena_init a in
  let np := next_padding_size size in
  (arena_size a < np + HEADER_LENGHT -> a_malloc fuel a0 m size = Some (0, a0, m)) /\
  (np + HEADER_LENGHT <= arena_size a ->
   exists m1,
     a_malloc fuel a0 m size
     = Some (start_addr a + HEADER_LENGHT,
             mk_arena (start_addr a) (arena_size a) (start_addr a) (start_addr a),
             m1) /\
     hdr_size m1 (start_addr a) = np /\
     hdr_prev m1 (start_addr a) = 0 /\ hdr_next m1 (start_addr a) = 0 /\
     hdr_canary m1 (start_addr a) = compute_canary m1 (start_addr a) /\
     (forall x, x < start_addr a \/ start_addr a + HEADER_LENGHT <= x -> m1 x = m x) /\
     well_formed (mk_arena (start_addr a) (arena_size a) (start_addr a) (start_addr a))
                 m1 [start_addr a]).
Proof.
  intros Hst Hsz Hnw a0 np.
  pose proof HEADER_LENGHT_pos as HH.
  pose proof (next_padding_size_range size) as Hnp. fold np in Hnp, Hnw.
  assert (Hwf : well_formed a0 m []).
  { unfold well_formed, a0, arena_init; simpl. repeat split; auto; lia. }
  destruct (a_malloc_cases fuel a0 m [] size Hwf (Nat.le_0_l _) Hnw)
    as [(E & He & _)|[(_ & Hfit & E)|[(Hne & _)|(actual & [] & _)]]];
    cbv zeta in *; fold np in E, He || fold np in E, Hfit || idtac.
  - specialize (He eq_refl). split; [intros _; exact E|].
    intros Hfit. unfold a0, arena_init in He; simpl in He. lia.
  - unfold a0 at 1, arena_init in Hfit; simpl in Hfit.
    split; [intros; lia|]. intros _.
    exists (new_header m (start_addr a) np 0 0).
    split; [exact E|].
    destruct (new_header_spec m (start_addr a) np 0 0) as (A1 & A2 & A3 & A4 & A5);
      try lia.
    split; [exact A1|]. split; [exact A2|]. split; [exact A3|]. split; [exact A4|].
    split; [exact A5|].
    unfold well_formed.
    cbn [start_addr arena_size head chain ordered prev_linked].
    unfold block_end. rewrite A1, A2, A3.
    repeat split; auto; lia.
  - now elim Hne.
Qed.

(** X19: a destroyed arena refuses every allocation whose block size does not
    wrap around: [a_malloc] returns [NULL] and writes nothing. *)
Theorem a_malloc_after_arena_destroy fuel a m size :
  next_padding_size size + HEADER_LENGHT < modulus ->
  a_malloc fuel (arena_destroy a) m size = Some (0, arena_destroy a, m).
Proof.
  intros Hnw. pose proof HEADER_LENGHT_pos as HH.
  pose proof (next_padding_size_range size) as Hnp.
  unfold a_malloc, arena_destroy, compute_block_size. cbn [head start_addr arena_size].
  rewrite Z.ltb_irrefl. cbn [andb Z.eqb].
  rewrite wrap_small by lia.
  destruct (Z.ltb_spec 0 (next_padding_size size + HEADER_LENGHT)); [reflexivity | lia].
Qed.

End Resizing.

(** * Statistics across the operations *)

Section Statistics.
Context {pf : Platform}.

(** ** Statistics *)

(** [arena_info] over the list of live blocks. *)
Lemma arena_info_on_list fuel a m l hi :
  0 <= start_addr a -> hi < modulus ->
  chain m (head a) l -> ordered m (start_addr a) l hi ->
  (length l <= fuel)%nat ->
  arena_info fuel a m = Some (spec_stats a m l).
Proof.
  intros Hst Hhi Hc Ho Hf. unfold arena_info, spec_stats.
  destruct l as [|h t].
  - simpl in Hc. rewrite Hc. reflexivity.
  - pose proof Hc as (Hh & Hh0 & _).
    destruct (Z.eqb_spec (head a) 0); [congruence|].
    rewrite (arena_info_loop_chain a m (h :: t)); cbn [allocated_size
      fragmentation_bytes allocated_blocks total_size used_size];
      try assumption; try apply wrap_0.
    destruct (ordered_span m (h :: t) (head a) (start_addr a) hi Hc Ho)
      as (I1 & I2 & I3 & I4 & I5); [discriminate|].
    assert (HL : 0 < Z.of_nat (length (h :: t))) by (simpl length; lia).
    rewrite !Z.add_0_l.
    change (wrap (last (h :: t) 0 + HEADER_LENGHT + hdr_size m (last (h :: t) 0)))
      with (wrap (block_end m (last (h :: t) 0))).
    rewrite wrap_sub_l.
    rewrite !wrap_small by lia. reflexivity.
Qed.

Lemma footprint_ge m l :
  HEADER_LENGHT * Z.of_nat (length l) <= Zsum (map (footprint m) l).
Proof.
  induction l as [|x t IH]; [simpl; lia|].
  change (Zsum (map (footprint m) (x :: t)))
    with (footprint m x + Zsum (map (footprint m) t)).
  change (length (x :: t)) with (S (length t)).
  unfold footprint at 1. pose proof (hdr_size_nonneg m x). lia.
Qed.

Lemma footprint_insert m m1 nb np l :
  (forall x, In x l -> hdr_size m1 x = hdr_size m x) -> hdr_size m1 nb = np ->
  Zsum (map (footprint m1) (insert_addr nb l))
  = Zsum (map (footprint m) l) + (np + HEADER_LENGHT).
Proof.
  intros Hs Hn.
  assert (Hsame : forall t, (forall x, In x t -> hdr_size m1 x = hdr_size m x) ->
                            Zsum (map (footprint m1) t) = Zsum (map (footprint m) t)).
  { induction t as [|x t IH]; intros H; [reflexivity|].
    simpl. unfold footprint at 1 3. rewrite H by now left.
    rewrite IH; [reflexivity|]. intros y Hy. apply H. now right. }
  induction l as [|x t IH].
  - simpl. unfold footprint. rewrite Hn. lia.
  - simpl insert_addr. destruct (nb <? x).
    + change (Zsum (map (footprint m1) (nb :: x :: t)))
        with (footprint m1 nb + Zsum (map (footprint m1) (x :: t))).
      rewrite (Hsame (x :: t) Hs). unfold footprint at 1. rewrite Hn. lia.
    + change (Zsum (map (footprint m1) (x :: insert_addr nb t)))
        with (footprint m1 x + Zsum (map (footprint m1) (insert_addr nb t))).
      rewrite IH by (intros y Hy; apply Hs; now right).
      change (Zsum (map (footprint m) (x :: t)))
        with (footprint m x + Zsum (map (footprint m) t)).
      unfold footprint at 1 3. rewrite (Hs x) by now left. lia.
Qed.

Lemma footprint_remove m m' h l : forall lo hi,
  ordered m lo l hi -> In h l ->
  (forall x, In x l -> hdr_size m' x = hdr_size m x) ->
  Zsum (map (footprint m') (remove Z.eq_dec h l))
  = Zsum (map (footprint m) l) - footprint m h /\
  S (length (remove Z.eq_dec h l)) = length l.
Proof.
  assert (Hsame : forall t, (forall x, In x t -> hdr_size m' x = hdr_size m x) ->
                            Zsum (map (footprint m') t) = Zsum (map (footprint m) t)).
  { induction t as [|x t IH]; intros H; [reflexivity|].
    simpl. unfold footprint at 1 3. rewrite H by now left.
    rewrite IH; [reflexivity|]. intros y Hy. apply H. now right. }
  induction l as [|x t IH]; intros lo hi Ho Hin Hs; [contradiction|].
  destruct Ho as (Hlo & Ho).
  change (Zsum (map (footprint m) (x :: t)))
    with (footprint m x + Zsum (map (footprint m) t)).
  simpl remove. destruct (Z.eq_dec h x) as [->|Hne].
  - assert (Hnot : ~ In x t).
    { intros Hx. destruct (ordered_bounds _ _ _ _ _ Ho Hx).
      pose proof (block_end_ge m x). pose proof HEADER_LENGHT_pos. lia. }
    rewrite notin_remove by exact Hnot.
    rewrite Hsame by (intros y Hy; apply Hs; now right). split; [lia | reflexivity].
  - destruct Hin as [?|Hin]; [congruence|].
    destruct (IH _ _ Ho Hin (fun y Hy => Hs y (or_intror Hy))) as (E1 & E2).
    change (Zsum (map (footprint m') (x :: remove Z.eq_dec h t)))
      with (footprint m' x + Zsum (map (footprint m') (remove Z.eq_dec h t))).
    assert (Ex : footprint m' x = footprint m x).
    { unfold footprint. rewrite (Hs x) by now left. reflexivity. }
    rewrite E1, Ex. split; [lia|]. simpl length. rewrite E2. reflexivity.
Qed.

(** X20: on a well-formed arena [arena_info] returns; the number of blocks
    is the length of the list, every block accounts for at least its
    header, the used bytes are the gap in front of the first block plus the
    allocated bytes plus the fragmentation bytes, and they do not exceed
    the total size. *)
Theorem arena_info_accounts_for_used_bytes fuel a m l :
  well_formed a m l -> (length l <= fuel)%nat ->
  exists i,
    arena_info fuel a m = Some i /\
    total_size i = arena_size a /\
    allocated_blocks i = Z.of_nat (length l) /\
    HEADER_LENGHT * allocated_blocks i <= allocated_size i /\
    0 <= fragmentation_bytes i /\
    used_size i
    = (if head a =? 0 then 0 else head a - start_addr a)
      + allocated_size i + fragmentation_bytes i /\
    used_size i <= total_size i.
Proof.
  intros (Hst & Hsz & Hend & Hc & Ho & Hp) Hf.
  exists (spec_stats a m l).
  split; [apply (arena_info_on_list fuel a m l (start_addr a + arena_size a));
          auto; lia|].
  unfold spec_stats; cbn [total_size allocated_blocks allocated_size
                          fragmentation_bytes used_size].
  split; [reflexivity|]. split; [reflexivity|].
  split; [apply footprint_ge|].
  destruct l as [|h t].
  - simpl in Hc. rewrite Hc. simpl. lia.
  - destruct (ordered_span m (h :: t) (head a) _ _ Hc Ho) as (I1 & I2 & I3 & I4 & I5);
      [discriminate|].
    pose proof Hc as (Eh & Hh0 & _).
    destruct (Z.eqb_spec (head a) 0); [congruence|].
    split; [exact I4|]. split; lia.
Qed.

(** X21: a successful [a_malloc] shows in the statistics as one more block
    and as header plus padded size more allocated bytes. *)
Theorem arena_info_after_a_malloc fuel a m l size :
  well_formed a m l -> (length l <= fuel)%nat ->
  start_addr a + arena_size a + next_padding_size size + HEADER_LENGHT < modulus ->
  exists q a1 m1 i i1,
    a_malloc fuel a m size = Some (q, a1, m1) /\
    arena_info fuel a m = Some i /\
    arena_info (S fuel) a1 m1 = Some i1 /\
    (q <> 0 ->
     allocated_blocks i1 = allocated_blocks i + 1 /\
     allocated_size i1
     = allocated_size i + (next_padding_size size + HEADER_LENGHT) /\
     total_size i1 = total_size i).
Proof.
  intros Hwf Hf Hnw. pose proof Hwf as (Hst & Hsz & Hend & Hc & Ho & Hp).
  pose proof HEADER_LENGHT_pos as HH.
  pose proof (next_padding_size_range size) as Hnp.
  assert (Hi : arena_info fuel a m = Some (spec_stats a m l)).
  { apply (arena_info_on_list fuel a m l (start_addr a + arena_size a)); auto; lia. }
  destruct (a_malloc_outcome fuel a m l size Hwf Hf Hnw)
    as (q & a1 & m1 & E & Hz & Hs).
  exists q, a1, m1, (spec_stats a m l).
  destruct (Z.eq_dec q 0) as [Hq|Hq].
  - destruct (Hz Hq) as (-> & ->). exists (spec_stats a m l).
    split; [exact E|]. split; [exact Hi|]. split; [|intros; contradiction].
    apply (arena_info_on_list (S fuel) a m l (start_addr a + arena_size a)); auto; lia.
  - destruct (Hs Hq) as (Hq' & P & N & Hpl).
    pose proof Hpl as (_ & _ & H3 & _ & _ & _ & _ & _ & Hsa & Has & Fs & _ & _ & _ & Fl & _).
    assert (G1 : 0 <= next_padding_size size) by lia.
    assert (G2 : start_addr a + arena_size a
                 <= start_addr a + arena_size a + HEADER_LENGHT) by lia.
    assert (G3 : q - HEADER_LENGHT + HEADER_LENGHT + next_padding_size size
                 <= start_addr a + arena_size a + HEADER_LENGHT) by lia.
    destruct (placed_list a m l (next_padding_size size) (q - HEADER_LENGHT) P N
                a1 m1 Hwf G1 Hpl _ G2 G3) as (C1 & C2 & _).
    exists (spec_stats a1 m1 (insert_addr (q - HEADER_LENGHT) l)).
    split; [exact E|]. split; [exact Hi|]. split.
    + apply (arena_info_on_list (S fuel) a1 m1 _
               (start_addr a + arena_size a + HEADER_LENGHT)).
      * rewrite Hsa. lia.
      * lia.
      * exact C1.
      * rewrite Hsa. exact C2.
      * rewrite length_insert_addr. lia.
    + intros _. unfold spec_stats; cbn [total_size allocated_blocks allocated_size].
      rewrite length_insert_addr.
      rewrite (footprint_insert m m1 _ (next_padding_size size) l);
        [|intros x Hx; now destruct (Fl x Hx)|exact Fs].
      split; [lia|]. split; [reflexivity | exact Has].
Qed.

(** X22: [a_free] of a live block shows in the statistics as one block less
    and as its header plus its size less allocated bytes. *)
Theorem arena_info_after_a_free fuel a m l ptr :
  well_formed a m l -> In (ptr - HEADER_LENGHT) l -> (length l <= fuel)%nat ->
  exists i i',
    arena_info fuel a m = Some i /\
    arena_info fuel (fst (a_free a m ptr)) (snd (a_free a m ptr)) = Some i' /\
    allocated_blocks i' = allocated_blocks i - 1 /\
    allocated_size i'
    = allocated_size i - (hdr_size m (ptr - HEADER_LENGHT) + HEADER_LENGHT) /\
    total_size i' = total_size i.
Proof.
  intros Hwf Hin Hf. pose proof Hwf as (Hst & Hsz & Hend & Hc & Ho & Hp).
  destruct (a_free_wf a m l ptr Hwf Hin) as (W & _ & _ & Hsa & Has & Hfl & _).
  set (h := ptr - HEADER_LENGHT) in *.
  set (a' := fst (a_free a m ptr)) in *. set (m' := snd (a_free a m ptr)) in *.
  pose proof W as (Hst' & Hsz' & Hend' & Hc' & Ho' & _).
  destruct (footprint_remove m m' h l _ _ Ho Hin) as (F1 & F2).
  { intros x Hx. now destruct (Hfl x Hx). }
  exists (spec_stats a m l), (spec_stats a' m' (remove Z.eq_dec h l)).
  split; [apply (arena_info_on_list fuel a m l (start_addr a + arena_size a));
          auto; lia|].
  split; [apply (arena_info_on_list fuel a' m' _ (start_addr a' + arena_size a'));
          auto; lia|].
  unfold spec_stats; cbn [total_size allocated_blocks allocated_size].
  rewrite F1. unfold footprint. split; [lia|]. split; [reflexivity | exact Has].
Qed.

End Statistics.

(** * Relocation on a well-formed arena *)

Section Moving.
Context {pf : Platform}.

(** Well-formedness depends on the header bytes of the listed blocks only. *)
Lemma well_formed_frame a m m' l :
  (forall h x, In h l -> h <= x < h + HEADER_LENGHT -> m' x = m x) ->
  well_formed a m l -> well_formed a m' l.
Proof.
  intros Hfr (Hst & Hsz & Hend & Hc & Ho & Hp).
  assert (Hf : forall h, In h l ->
            hdr_size m' h = hdr_size m h /\ hdr_prev m' h = hdr_prev m h /\
            hdr_next m' h = hdr_next m h).
  { intros h Hh. destruct (header_ext m m' h) as (_ & F1 & F2 & F3 & _); [|auto].
    intros x Hx. now apply (Hfr h). }
  unfold well_formed.
  split; [exact Hst|]. split; [exact Hsz|]. split; [exact Hend|].
  split; [|split].
  - apply (chain_frame m); [|exact Hc]. intros x Hx. now destruct (Hf x Hx) as (_ & _ & ?).
  - apply (ordered_frame m m' l (start_addr a) _ (start_addr a + arena_size a));
      [|lia|lia|exact Ho].
    intros x Hx. now destruct (Hf x Hx).
  - apply (prev_linked_frame m); [|exact Hp]. intros x Hx.
    now destruct (Hf x Hx) as (_ & ? & _).
Qed.

(** The relocating branch of [a_realloc]. *)
Lemma relocating_branch fuel a m ptr size :
  HEADER_LENGHT <= ptr < modulus ->
  let h := ptr - HEADER_LENGHT in
  let np := next_padding_size size in
  hdr_size m h < np ->
  available_block_space a m h < np - hdr_size m h ->
  a_realloc fuel a m ptr size
  = match a_malloc fuel a m np with
    | None => None
    | Some (q, a1, m1) =>
        if q =? 0 then Some (0, a1, m1) else
        Some (q, fst (a_free a1 (memcpy m1 q ptr (hdr_size m h)) ptr),
                 snd (a_free a1 (memcpy m1 q ptr (hdr_size m h)) ptr))
    end.
Proof.
  intros Hptr h np Hgrow Hnofit. pose proof HEADER_LENGHT_pos as HH.
  pose proof WORDSIZE_pos as HW.
  pose proof (next_padding_size_range size) as Hnpr. fold np in Hnpr.
  pose proof (hdr_size_nonneg m h) as Hsr.
  unfold a_realloc. destruct (Z.eqb_spec ptr 0); [lia|].
  rewrite ptr_to_header_ptr_eq by lia. fold h. fold np.
  destruct (Z.leb_spec np (hdr_size m h)); [lia|].
  rewrite (wrap_small (np - hdr_size m h)) by lia.
  destruct (Z.leb_spec (np - hdr_size m h) (available_block_space a m h)); [lia|].
  destruct (a_malloc fuel a m np) as [[[q a1] m1]|]; [|reflexivity].
  destruct (q =? 0); [reflexivity|].
  destruct (a_free a1 (memcpy m1 q ptr (hdr_size m h)) ptr); reflexivity.
Qed.

(** X23: a relocating [a_realloc] whose fresh block is placed behind a live
    block and ends inside the region leaves a well-formed arena: its list
    is the old one with the new header inserted and the old one removed;
    every other block keeps its size and its data. *)
Theorem relocation_keeps_well_formed fuel a m l ptr size :
  well_formed a m l -> In (ptr - HEADER_LENGHT) l -> (length l <= fuel)%nat ->
  let h := ptr - HEADER_LENGHT in
  let np := next_padding_size size in
  start_addr a + arena_size a + np + HEADER_LENGHT < modulus ->
  hdr_size m h < np ->
  available_block_space a m h < np - hdr_size m h ->
  exists q a' m',
    a_realloc fuel a m ptr size = Some (q, a', m') /\
    (q <> 0 -> q <> start_addr a + HEADER_LENGHT ->
     q + np <= start_addr a + arena_size a ->
     well_formed a' m' (remove Z.eq_dec h (insert_addr (q - HEADER_LENGHT) l)) /\
     hdr_size m' (q - HEADER_LENGHT) = np /\
     (forall x, In x l -> x <> h ->
        hdr_size m' x = hdr_size m x /\
        forall y, x + HEADER_LENGHT <= y < block_end m x -> m' y = m y)).
Proof.
  intros Hwf Hin Hf h np Hnw Hgrow Hnofit.
  pose proof Hwf as (Hst & Hsz & Hend & Hc & Ho & Hp).
  pose proof WORDSIZE_pos as HW. pose proof HEADER_LENGHT_pos as HH.
  fold h in Hin.
  destruct (ordered_bounds _ _ _ _ _ Ho Hin) as (Hhlo & Hhhi).
  pose proof (block_end_ge m h) as Hhbe.
  pose proof (hdr_size_nonneg m h) as Hsr.
  assert (Eh : h = ptr - HEADER_LENGHT) by reflexivity.
  assert (Hptr : HEADER_LENGHT <= ptr < modulus) by lia.
  assert (Hidem : next_padding_size np = np) by apply next_padding_size_idem.
  pose proof (next_padding_size_range size) as Hnpr. fold np in Hnpr.
  rewrite (relocating_branch fuel a m ptr size Hptr Hgrow Hnofit). fold h. fold np.
  destruct (a_malloc_outcome fuel a m l np Hwf Hf) as (q & a1 & m1 & Hm & _ & Hq);
    [rewrite Hidem; exact Hnw|].
  rewrite Hidem in Hq. rewrite Hm.
  destruct (Z.eqb_spec q 0) as [E|E].
  { do 3 eexists. split; [reflexivity|]. intros; contradiction. }
  do 3 eexists. split; [reflexivity|]. intros _ Hlead Hfit.
  destruct (Hq E) as (HqH & P & N & Hpl).
  set (nb := q - HEADER_LENGHT) in *.
  assert (Enb : q = nb + HEADER_LENGHT) by (unfold nb; lia).
  pose proof Hpl as (H1 & H2 & H3 & HP0 & HP1 & HN1 & Hpos & Ht & Hsa & Has & Fs & Fp & Fn & Fc & Fl & Fr).
  assert (HPne : P <> 0).
  { intros EP. destruct (HP0 EP) as (X & _). lia. }
  assert (G1 : 0 <= np) by lia.
  assert (G2 : start_addr a + arena_size a <= start_addr a + arena_size a) by lia.
  assert (G3 : nb + HEADER_LENGHT + np <= start_addr a + arena_size a) by lia.
  destruct (placed_list a m l np nb P N a1 m1 Hwf G1 Hpl _ G2 G3) as (C1 & C2 & C3).
  specialize (C3 (or_introl HPne)).
  set (L1 := insert_addr nb l) in *.
  assert (W1 : well_formed a1 m1 L1).
  { unfold well_formed. rewrite Hsa, Has. auto 10. }
  assert (Hfresh : forall x, In x l -> nb + HEADER_LENGHT + np <= x \/ block_end m x <= nb).
  { intros x Hx. pose proof (block_end_ge m x) as Hbe.
    destruct (Hpos x Hx) as [[E1|E1]|(Hn & Hle)].
    - right. subst x. destruct (HP1 HPne) as (_ & -> & _). lia.
    - right. destruct (HP1 HPne) as (_ & -> & _).
      pose proof (block_end_ge m P). lia.
    - left. destruct (HN1 Hn). lia. }
  set (m2 := memcpy m1 q ptr (hdr_size m h)).
  assert (Hcopy : forall x y, In x L1 -> x <= y < x + HEADER_LENGHT -> m2 y = m1 y).
  { intros x y Hx Hy. unfold m2. apply memcpy_outside.
    apply In_insert_addr in Hx. destruct Hx as [->|Hx]; [lia|].
    pose proof (block_end_ge m x). destruct (Hfresh x Hx); lia. }
  assert (W2 : well_formed a1 m2 L1).
  { apply (well_formed_frame a1 m1 m2 L1); [|exact W1].
    intros x y Hx Hy. now apply (Hcopy x). }
  assert (HinL : In (ptr - HEADER_LENGHT) L1).
  { apply In_insert_addr. right. exact Hin. }
  destruct (a_free_wf a1 m2 L1 ptr W2 HinL) as (W3 & _ & _ & _ & _ & Hfl & Hfr).
  fold h in W3, Hfl, Hfr.
  assert (Hsz2 : forall x, In x L1 -> hdr_size m2 x = hdr_size m1 x).
  { intros x Hx. destruct (header_ext m1 m2 x) as (_ & F1 & _); [|exact F1].
    intros y Hy. now apply (Hcopy x). }
  cbn [fst snd].
  split; [exact W3|]. split; [|].
  - destruct (Hfl nb) as (-> & _); [apply In_insert_addr; now left|].
    rewrite Hsz2 by (apply In_insert_addr; now left). exact Fs.
  - intros x Hx Hxh. split.
    + destruct (Hfl x) as (-> & _); [apply In_insert_addr; now right|].
      rewrite Hsz2 by (apply In_insert_addr; now right). now destruct (Fl x Hx).
    + intros y Hy. pose proof (block_end_ge m x) as Hbe.
      assert (Hout : forall z, In z l -> y < z \/ z + HEADER_LENGHT <= y).
      { intros z Hz. pose proof (block_end_ge m z).
        destruct (ordered_disjoint _ _ _ _ _ _ Ho Hx Hz) as [<-|[?|?]]; lia. }
      rewrite Hfr.
      * unfold m2. rewrite memcpy_outside by (destruct (Hfresh x Hx); lia).
        apply Fr; [destruct (Hfresh x Hx); lia | exact Hout].
      * intros z Hz _. apply In_insert_addr in Hz. destruct Hz as [->|Hz].
        -- destruct (Hfresh x Hx); lia.
        -- now apply Hout.
Qed.

End Moving.

(** * Word alignment *)

Section Alignment.
Context {pf : Platform}.

Lemma aligned_iff x : x mod WORDSIZE = 0 <-> (WORDSIZE | x).
Proof. apply Z.mod_divide. pose proof WORDSIZE_pos. lia. Qed.

(** X24: in a region that starts on a word boundary, with live headers on
    word boundaries and sizes that are multiples of the word size,
    [a_malloc] returns a pointer on a word boundary and keeps the arena
    that way. *)
Theorem a_malloc_keeps_alignment fuel a m l size :
  well_formed a m l -> (length l <= fuel)%nat ->
  start_addr a + arena_size a + next_padding_size size + HEADER_LENGHT < modulus ->
  aligned a m l ->
  exists q a1 m1,
    a_malloc fuel a m size = Some (q, a1, m1) /\
    q mod WORDSIZE = 0 /\
    (q <> 0 -> aligned a1 m1 (insert_addr (q - HEADER_LENGHT) l)).
Proof.
  intros Hwf Hf Hnw (Hs0 & Hal).
  pose proof WORDSIZE_pos as HW.
  destruct (a_malloc_outcome fuel a m l size Hwf Hf Hnw)
    as (q & a1 & m1 & E & _ & Hs).
  exists q, a1, m1. split; [exact E|].
  destruct (Z.eq_dec q 0) as [->|Hq].
  { split; [apply Z.mod_0_l; lia | intros X; now elim X]. }
  destruct (Hs Hq) as (Hq' & P & N &
    (_ & _ & _ & HP0 & HP1 & _ & _ & _ & Hsa & _ & Fs & _ & _ & _ & Fl & _)).
  set (nb := q - HEADER_LENGHT) in *.
  assert (HH : (WORDSIZE | HEADER_LENGHT)).
  { exists 4. reflexivity. }
  assert (Hnp : (WORDSIZE | next_padding_size size)).
  { rewrite next_padding_size_eq. apply Z.divide_factor_l. }
  assert (Hnb : (WORDSIZE | nb)).
  { destruct (Z.eq_dec P 0) as [EP|EP].
    - destruct (HP0 EP) as (-> & _). now apply aligned_iff.
    - destruct (HP1 EP) as (I & -> & _). destruct (Hal P I) as (A1 & A2).
      apply aligned_iff in A1, A2. unfold block_end.
      repeat apply Z.divide_add_r; assumption. }
  split.
  - apply aligned_iff. replace q with (nb + HEADER_LENGHT) by (unfold nb; lia).
    now apply Z.divide_add_r.
  - intros _. split; [rewrite Hsa; exact Hs0|].
    intros h Hh. apply In_insert_addr in Hh. destruct Hh as [->|Hh].
    + rewrite Fs. split; now apply aligned_iff.
    + destruct (Fl h Hh) as (-> & _). now apply Hal.
Qed.

End Alignment.

(** * Concrete arenas on the 64-bit platform *)

Section Concrete.
#[local] Existing Instance lp64.

(** The three allocations return the data pointers of headers laid out back
    to back from the start of the region. *)
Lemma scenario_pointers :
  returned call_A = Some 4128 /\ returned call_B = Some 4168 /\
  returned call_C = Some 4208.
Proof. vm_compute. repeat split. Qed.

Lemma well_formed_ABC : well_formed arena_ABC mem_ABC [4096; 4136; 4176].
Proof. vm_compute. repeat split; discriminate. Defined.

(** C1: after [A], [B], [C] are allocated and [A] is freed, [a_malloc(8)]
    takes the leading gap: the new header at [start_addr] becomes the head
    with [prev = NULL] and [next] = the old head [4136]; but the old head
    keeps [prev = NULL] and its canary is left as it was, so it does not
    match the header's fields. *)
Theorem a_malloc_leading_gap_old_head :
  head arena_BC = 4136 /\
  returned call_D = Some 4128 /\
  head arena_DBC = 4096 /\
  hdr_prev mem_DBC 4096 = 0 /\ hdr_next mem_DBC 4096 = 4136 /\
  hdr_prev mem_DBC 4136 = 0 /\
  hdr_canary mem_DBC 4136 = hdr_canary mem_BC 4136 /\
  hdr_canary mem_DBC 4136 <> compute_canary mem_DBC 4136.
Proof. vm_compute. repeat split; discriminate. Qed.

(** C2: [a_free] of [A] relinks [B] ([prev := NULL]) without recomputing its
    canary, so the header at [4136], the head of the list, carries canary
    [88] where the checksum of its fields is [4184]; the following
    [a_malloc(8)] into the leading gap leaves a list in which
    [4096.next = 4136] while [4136.prev = NULL]. *)
Theorem invariants_broken_after_free_and_malloc :
  chain mem_BC (head arena_BC) [4136; 4176] /\
  hdr_canary mem_BC 4136 = 88 /\ compute_canary mem_BC 4136 = 4184 /\
  chain mem_DBC (head arena_DBC) [4096; 4136; 4176] /\
  hdr_next mem_DBC 4096 = 4136 /\ hdr_prev mem_DBC 4136 = 0.
Proof. vm_compute. repeat split; discriminate. Qed.

(** C3: with one block of [960] bytes in a region of [1024] bytes there is no
    leading gap and the only gap, behind the block, has [32] bytes; a request
    of [8] bytes needs [40].  [a_malloc(8)] nevertheless returns the non-null
    pointer [5120], the end of the region: the new block ends at [5128]. *)
Theorem a_malloc_succeeds_without_room :
  well_formed arena_big mem_big [4096] /\
  head arena_big = start_addr arena_big /\
  available_block_space arena_big mem_big 4096 = 32 /\
  compute_block_size (next_padding_size 8) = 40 /\
  returned (a_malloc 1 arena_big mem_big 8) = Some 5120 /\
  start_addr arena_big + arena_size arena_big = 5120 /\
  block_end (mem_after (a_malloc 1 arena_big mem_big 8) mem_big) 5088 = 5128.
Proof. vm_compute. repeat split; discriminate. Qed.

(** C4 (as stated, refuted): [arena_init] receives no bounds, so it cannot set
    them: on an arena record whose bounds were not yet written the result is
    not the specification's [initialize] for the region [(4096, 1024)]. *)
Lemma arena_init_sets_no_bounds :
  arena_init (mk_arena 0 0 0 0) <> spec_initialize 4096 1024.
Proof. discriminate. Qed.

(** C5: two relocating resizes that do not do what is claimed.

    A request that wraps: in the well-formed arena with the blocks [B]
    ([8] bytes) and [C] ([64] bytes) behind a leading gap of [40] bytes, the
    resize of [C] to [SIZE_MAX - 15] bytes needs relocation.  The block size
    wraps to [16], the allocation takes the leading gap and the call returns
    the non-null pointer [4128] instead of [NULL]; the copy of [64] bytes
    runs over the header of the live block [B] (its size and its [next]
    are [0] afterwards), and byte [32] of the old data, [170], is not byte
    [32] of the new block.

    A request in range: in the well-formed arena with the blocks [M] and
    [N] ([8] bytes each) behind a leading gap of [96] bytes, the resize of
    [M], the head of the list, to [16] bytes needs relocation and returns
    [4128], a block in the leading gap.  The release of [M] then sets
    [head] to the successor of [M]: the walk from [head] meets [N] only,
    the block just returned is not in the list, and the next request of [8]
    bytes returns [4128] again. *)
Theorem a_realloc_relocate_breaks :
  (well_formed arena_BC mem_BC_data [4136; 4176] /\
   hdr_size mem_BC_data 4176 = 64 /\
   next_padding_size (SIZE_MAX - 15) = SIZE_MAX - 15 /\
   available_block_space arena_BC mem_BC_data 4176 = 848 /\
   64 + 848 < next_padding_size (SIZE_MAX - 15) /\
   compute_block_size (next_padding_size (SIZE_MAX - 15)) = 16 /\
   returned call_reloc = Some 4128 /\
   hdr_size mem_BC_data 4136 = 8 /\ hdr_next mem_BC_data 4136 = 4176 /\
   hdr_size (mem_after call_reloc mem0) 4136 = 0 /\
   hdr_next (mem_after call_reloc mem0) 4136 = 0 /\
   32 < Z.min (hdr_size mem_BC_data 4176) (SIZE_MAX - 15) /\
   mem_BC_data (4208 + 32) = 170 /\
   mem_after call_reloc mem0 (4128 + 32) <> mem_BC_data (4208 + 32)) /\
  (well_formed arena_MN mem_MN [4192; 4232] /\
   head arena_MN = 4192 /\
   hdr_size mem_MN 4192 = 8 /\ next_padding_size 16 = 16 /\
   available_block_space arena_MN mem_MN 4192 = 0 /\
   start_addr arena_MN + arena_size arena_MN + next_padding_size 16
     + HEADER_LENGHT < modulus /\
   returned call_move = Some 4128 /\
   hdr_size mem_moved (4128 - HEADER_LENGHT) = 16 /\
   chain mem_moved (head arena_moved) [4232] /\
   returned call_again = Some 4128).
Proof.
  vm_compute. repeat split; try discriminate.
Qed.

(** ** Witnesses *)

Lemma a_realloc_relocate_witness :
  exists q a' m',
    a_realloc 3 arena_ABC mem_ABC 4128 16 = Some (q, a', m') /\ q <> 0 /\
    (forall i, 0 <= i < 8 -> m' (q + i) = mem_ABC (4128 + i)) /\
    (exists l', chain m' (head a') l' /\ ~ In 4096 l').
Proof.
  destruct (a_realloc_relocate 3 arena_ABC mem_ABC [4096; 4136; 4176] 4128 16)
    as [(Hm & _)|(q & a1 & m1 & a' & m' & _ & Hq & Hr & _ & _ & Hd & Hu)].
  - exact well_formed_ABC.
  - left. reflexivity.
  - simpl. lia.
  - vm_compute. reflexivity.
  - vm_compute. reflexivity.
  - vm_compute. reflexivity.
  - apply (f_equal returned) in Hm. vm_compute in Hm. discriminate Hm.
  - exists q, a', m'. split; [exact Hr|]. split; [exact Hq|].
    split; [exact Hd | exact Hu].
Defined.

Lemma arena_info_stats_witness :
  arena_info 2 (fst (a_free arena_ABC mem_ABC 4168))
               (snd (a_free arena_ABC mem_ABC 4168))
  = Some (mk_arena_info 1024 176 136 40 2).
Proof.
  destruct (arena_info_stats 2 (fst (a_free arena_ABC mem_ABC 4168))
              (snd (a_free arena_ABC mem_ABC 4168)) [4096; 4176] 5120)
    as (H & _).
  - vm_compute. discriminate.
  - vm_compute. reflexivity.
  - vm_compute. repeat split; discriminate.
  - vm_compute. repeat split; discriminate.
  - simpl. lia.
  - rewrite H. vm_compute. reflexivity.
Defined.

Lemma a_realloc_in_place_witness :
  (exists m',
     a_realloc 0 arena_ABC mem_ABC 4208 10 = Some (4208, arena_ABC, m') /\
     hdr_size m' 4176 = 16) /\
  (exists m',
     a_realloc 0 arena_ABC mem_ABC 4208 100 = Some (4208, arena_ABC, m') /\
     hdr_size m' 4176 = 104 /\
     hdr_canary m' 4176 = Z.lxor (Z.lxor 104 4136) 0).
Proof.
  split.
  - destruct (a_realloc_in_place 0 arena_ABC mem_ABC 4208 10) as (H & _).
    + vm_compute. split; [discriminate | reflexivity].
    + destruct H as (m' & Hr & Hs & _).
      * left. vm_compute. discriminate.
      * exists m'. split; [exact Hr | exact Hs].
  - destruct (a_realloc_in_place 0 arena_ABC mem_ABC 4208 100) as (_ & H).
    + vm_compute. split; [discriminate | reflexivity].
    + destruct (H [4096; 4136; 4176]) as (m' & Hr & Hs & _ & Hc & _).
      * exact well_formed_ABC.
      * right; right; left; reflexivity.
      * vm_compute. discriminate.
      * exists m'. split; [exact Hr|]. split; [exact Hs | exact Hc].
Defined.

Lemma a_realloc_zero_keeps_block_witness :
  exists m',
    a_realloc 0 arena_ABC mem_ABC 4208 0 = Some (4208, arena_ABC, m') /\
    hdr_size m' 4176 = 0.
Proof.
  destruct (a_realloc_zero_keeps_block 0 arena_ABC mem_ABC 4208)
    as (m' & Hr & _ & Hs & _).
  - vm_compute. split; [discriminate | reflexivity].
  - exists m'. split; [exact Hr | exact Hs].
Defined.

Lemma a_free_unlinks_witness :
  hdr_next (snd (a_free arena_ABC mem_ABC 4168)) 4096 = 4176 /\
  hdr_prev (snd (a_free arena_ABC mem_ABC 4168)) 4176 = 4096 /\
  chain (snd (a_free arena_ABC mem_ABC 4168))
        (head (fst (a_free arena_ABC mem_ABC 4168))) [4096; 4176].
Proof.
  destruct (a_free_unlinks arena_ABC mem_ABC) as (_ & H).
  destruct (H 4168) as (HP & _ & HN & _ & _ & _ & _ & Hl).
  - vm_compute. split; [discriminate | reflexivity].
  - intros _. vm_compute. discriminate.
  - intros _. vm_compute. discriminate.
  - split; [|split].
    + apply HP. vm_compute. discriminate.
    + apply HN. vm_compute. discriminate.
    + apply (Hl [4096; 4136; 4176] well_formed_ABC). right; left; reflexivity.
Defined.

Lemma next_padding_size_wraps_around_witness :
  next_padding_size SIZE_MAX = 0 /\
  exists a' m', a_malloc 0 arena0 mem0 SIZE_MAX = Some (4128, a', m') /\
                hdr_size m' 4096 = 0.
Proof.
  destruct (next_padding_size_wraps_around SIZE_MAX) as (H0 & _ & _ & Hm).
  - vm_compute. split; [reflexivity | discriminate].
  - split; [exact H0|].
    destruct (Hm 0%nat arena0 mem0) as (a' & m' & Hr & _ & _ & Hs).
    + reflexivity.
    + reflexivity.
    + vm_compute. reflexivity.
    + vm_compute. discriminate.
    + exists a', m'. split; [exact Hr | exact Hs].
Defined.

(** ** Witnesses of the further properties *)

Lemma well_formed_AC : well_formed arena_AC mem_AC [4096; 4176].
Proof. vm_compute. repeat split; discriminate. Defined.

(** A request of [8] bytes on the arena with the blocks [A], [B], [C] is
    placed behind [C]. *)
Lemma call_behind_C q a1 m1 :
  a_malloc 3 arena_ABC mem_ABC 8 = Some (q, a1, m1) -> q = 4304.
Proof.
  intros E. pose proof (f_equal returned E) as Eq. vm_compute in Eq.
  injection Eq as <-. reflexivity.
Defined.

Lemma a_malloc_fails_iff_no_room_witness :
  exists q a1 m1,
    a_malloc 3 arena_ABC mem_ABC 8 = Some (q, a1, m1) /\
    (q = 0 <-> ~ room arena_ABC mem_ABC [4096; 4136; 4176] (next_padding_size 8)).
Proof.
  destruct (a_malloc_fails_iff_no_room 3 arena_ABC mem_ABC [4096; 4136; 4176] 8)
    as (q & a1 & m1 & E & H & _).
  - exact well_formed_ABC.
  - simpl. lia.
  - vm_compute. reflexivity.
  - exists q, a1, m1. split; [exact E | exact H].
Defined.


(** A request of [16] bytes on the arena with the blocks [A] and [C] skips
    the gap between them and is placed behind [C]. *)
Lemma call_behind_gap q a1 m1 :
  a_malloc 2 arena_AC mem_AC 16 = Some (q, a1, m1) -> q = 4304.
Proof.
  intros E. pose proof (f_equal returned E) as Eq. vm_compute in Eq.
  injection Eq as <-. reflexivity.
Defined.

(** Growing [B] from [8] to [24] bytes needs a fresh block, which is placed
    behind [C]. *)
Lemma call_moves_B q a' m' :
  a_realloc 3 arena_ABC mem_ABC 4168 24 = Some (q, a', m') -> q = 4304.
Proof.
  intros E. pose proof (f_equal returned E) as Eq. vm_compute in Eq.
  injection Eq as <-. reflexivity.
Defined.

Lemma a_malloc_new_block_is_fresh_witness :
  exists q a1 m1,
    a_malloc 3 arena_ABC mem_ABC 8 = Some (q, a1, m1) /\ q = 4304 /\
    hdr_size m1 (q - HEADER_LENGHT) = next_padding_size 8 /\
    fresh_block mem_ABC [4096; 4136; 4176] (q - HEADER_LENGHT) (next_padding_size 8).
Proof.
  destruct (a_malloc_new_block_is_fresh 3 arena_ABC mem_ABC [4096; 4136; 4176] 8)
    as (q & a1 & m1 & E & H).
  - exact well_formed_ABC.
  - simpl. lia.
  - vm_compute. reflexivity.
  - pose proof (call_behind_C q a1 m1 E) as Hq.
    assert (Hq0 : q <> 0) by (rewrite Hq; discriminate).
    destruct (H Hq0) as (_ & _ & _ & _ & Hs & Hf & _).
    exists q, a1, m1. split; [exact E|]. split; [exact Hq|].
    split; [exact Hs | exact Hf].
Defined.

Lemma a_malloc_inserts_in_address_order_witness :
  exists q a1 m1,
    a_malloc 3 arena_ABC mem_ABC 8 = Some (q, a1, m1) /\ q = 4304 /\
    chain m1 (head a1) (insert_addr (q - HEADER_LENGHT) [4096; 4136; 4176]).
Proof.
  destruct (a_malloc_inserts_in_address_order 3 arena_ABC mem_ABC
              [4096; 4136; 4176] 8) as (q & a1 & m1 & E & H).
  - exact well_formed_ABC.
  - simpl. lia.
  - vm_compute. reflexivity.
  - pose proof (call_behind_C q a1 m1 E) as Hq.
    assert (Hq0 : q <> 0) by (rewrite Hq; discriminate).
    destruct (H Hq0) as (Hc & _).
    exists q, a1, m1. split; [exact E|]. split; [exact Hq | exact Hc].
Defined.

Lemma a_malloc_keeps_canaries_witness :
  exists q a1 m1,
    a_malloc 3 arena_ABC mem_ABC 8 = Some (q, a1, m1) /\ q = 4304 /\
    hdr_canary m1 (q - HEADER_LENGHT) = compute_canary m1 (q - HEADER_LENGHT) /\
    hdr_canary m1 4176 = compute_canary m1 4176.
Proof.
  destruct (a_malloc_keeps_canaries 3 arena_ABC mem_ABC [4096; 4136; 4176] 8)
    as (q & a1 & m1 & E & H).
  - exact well_formed_ABC.
  - simpl. lia.
  - vm_compute. reflexivity.
  - pose proof (call_behind_C q a1 m1 E) as Hq.
    assert (Hq0 : q <> 0) by (rewrite Hq; discriminate).
    destruct (H Hq0) as (Hn & Hl).
    exists q, a1, m1. split; [exact E|]. split; [exact Hq|]. split; [exact Hn|].
    apply Hl; [right; right; left; reflexivity|]. vm_compute. reflexivity.
Defined.

Lemma a_malloc_takes_first_fit_witness :
  exists q a1 m1,
    a_malloc 2 arena_AC mem_AC 16 = Some (q, a1, m1) /\ q = 4304 /\
    available_block_space arena_AC mem_AC 4096
    < next_padding_size 16 + HEADER_LENGHT.
Proof.
  destruct (a_malloc_takes_first_fit 2 arena_AC mem_AC [4096; 4176] 16)
    as (q & a1 & m1 & E & H).
  - exact well_formed_AC.
  - simpl. lia.
  - vm_compute. reflexivity.
  - pose proof (call_behind_gap q a1 m1 E) as Hq.
    assert (Hq0 : q <> 0) by (rewrite Hq; discriminate).
    assert (Hq1 : q <> start_addr arena_AC + HEADER_LENGHT).
    { rewrite Hq. vm_compute. discriminate. }
    destruct (H Hq0 Hq1) as (_ & _ & Hb).
    exists q, a1, m1. split; [exact E|]. split; [exact Hq|].
    apply Hb; [left; reflexivity|]. rewrite Hq. vm_compute. reflexivity.
Defined.

Lemma a_malloc_behind_keeps_well_formed_witness :
  exists q a1 m1,
    a_malloc 3 arena_ABC mem_ABC 8 = Some (q, a1, m1) /\ q = 4304 /\
    well_formed a1 m1 (insert_addr (q - HEADER_LENGHT) [4096; 4136; 4176]).
Proof.
  destruct (a_malloc_behind_keeps_well_formed 3 arena_ABC mem_ABC
              [4096; 4136; 4176] 8) as (q & a1 & m1 & E & H).
  - exact well_formed_ABC.
  - simpl. lia.
  - vm_compute. reflexivity.
  - pose proof (call_behind_C q a1 m1 E) as Hq.
    assert (Hq0 : q <> 0) by (rewrite Hq; discriminate).
    exists q, a1, m1. split; [exact E|]. split; [exact Hq|].
    apply (H Hq0).
    + right. rewrite Hq. vm_compute. discriminate.
    + rewrite Hq. vm_compute. discriminate.
Defined.

Lemma a_free_keeps_well_formed_witness :
  well_formed arena_AC mem_AC (remove Z.eq_dec (4168 - HEADER_LENGHT) [4096; 4136; 4176]).
Proof.
  destruct (a_free_keeps_well_formed arena_ABC mem_ABC [4096; 4136; 4176] 4168)
    as (H & _).
  - exact well_formed_ABC.
  - right; left; reflexivity.
  - exact H.
Defined.

Lemma a_free_twice_is_harmless_witness :
  fst (a_free arena_AC mem_AC 4168) = arena_AC /\
  forall x, snd (a_free arena_AC mem_AC 4168) x = mem_AC x.
Proof.
  apply (a_free_twice_is_harmless arena_ABC mem_ABC [4096; 4136; 4176] 4168).
  - exact well_formed_ABC.
  - right; left; reflexivity.
Defined.

Lemma a_free_after_a_malloc_restores_witness :
  exists q a1 m1,
    a_malloc 3 arena_ABC mem_ABC 8 = Some (q, a1, m1) /\ q = 4304 /\
    well_formed (fst (a_free a1 m1 q)) (snd (a_free a1 m1 q)) [4096; 4136; 4176] /\
    fst (a_free a1 m1 q) = arena_ABC.
Proof.
  destruct (a_free_after_a_malloc_restores 3 arena_ABC mem_ABC
              [4096; 4136; 4176] 8) as (q & a1 & m1 & E & H).
  - exact well_formed_ABC.
  - simpl. lia.
  - vm_compute. reflexivity.
  - pose proof (call_behind_C q a1 m1 E) as Hq.
    assert (Hq0 : q <> 0) by (rewrite Hq; discriminate).
    destruct (H Hq0) as (W & _ & Ha & _).
    exists q, a1, m1. split; [exact E|]. split; [exact Hq|]. split; [exact W|].
    apply Ha. vm_compute. reflexivity.
Defined.

Lemma a_malloc_after_a_free_succeeds_witness :
  exists q a2 m2, a_malloc 3 arena_AC mem_AC 8 = Some (q, a2, m2) /\ q <> 0.
Proof.
  apply (a_malloc_after_a_free_succeeds 3 arena_ABC mem_ABC [4096; 4136; 4176] 4168 8).
  - exact well_formed_ABC.
  - right; left; reflexivity.
  - simpl. lia.
  - vm_compute. reflexivity.
  - vm_compute. discriminate.
Defined.

Lemma a_malloc_tail_is_last_witness :
  exists q a1 m1,
    a_malloc 3 arena_ABC mem_ABC 8 = Some (q, a1, m1) /\ q = 4304 /\
    tail a1 = last (insert_addr (q - HEADER_LENGHT) [4096; 4136; 4176]) 0.
Proof.
  destruct (a_malloc_tail_is_last 3 arena_ABC mem_ABC [4096; 4136; 4176] 8)
    as (q & a1 & m1 & E & H).
  - exact well_formed_ABC.
  - simpl. lia.
  - vm_compute. reflexivity.
  - vm_compute. reflexivity.
  - pose proof (call_behind_C q a1 m1 E) as Hq.
    assert (Hq0 : q <> 0) by (rewrite Hq; discriminate).
    exists q, a1, m1. split; [exact E|]. split; [exact Hq | exact (H Hq0)].
Defined.

Lemma a_free_tail_is_last_witness :
  tail (fst (a_free arena_ABC mem_ABC 4208))
  = last (remove Z.eq_dec (4208 - HEADER_LENGHT) [4096; 4136; 4176]) 0.
Proof.
  apply (a_free_tail_is_last arena_ABC mem_ABC [4096; 4136; 4176] 4208).
  - exact well_formed_ABC.
  - right; right; left; reflexivity.
  - vm_compute. reflexivity.
Defined.

Lemma resize_in_place_keeps_well_formed_witness :
  exists m',
    a_realloc 0 arena_ABC mem_ABC 4208 100 = Some (4208, arena_ABC, m') /\
    well_formed arena_ABC m' [4096; 4136; 4176] /\
    block_end m' (4208 - HEADER_LENGHT) = 4208 + next_padding_size 100.
Proof.
  destruct (resize_in_place_keeps_well_formed 0 arena_ABC mem_ABC
              [4096; 4136; 4176] 4208 100) as (m' & E & W & B & _).
  - exact well_formed_ABC.
  - right; right; left; reflexivity.
  - right. vm_compute. discriminate.
  - exists m'. split; [exact E|]. split; [exact W | exact B].
Defined.

Lemma next_padding_size_rounds_up_witness :
  13 <= next_padding_size 13 < 13 + WORDSIZE /\
  next_padding_size 13 mod WORDSIZE = 0.
Proof.
  destruct (next_padding_size_rounds_up 13) as (H1 & H2 & _).
  - vm_compute. split; discriminate.
  - split; [exact H1 | exact H2].
Defined.

Lemma header_pointer_round_trip_witness :
  ptr_to_header_ptr (header_to_dataptr 4096) = 4096 /\
  header_to_dataptr (ptr_to_header_ptr 4096) = 4096.
Proof.
  apply (header_pointer_round_trip 4096). vm_compute. split; [discriminate | reflexivity].
Defined.

Lemma compute_canary_detects_one_field_witness :
  compute_canary (set_size mem_ABC 4136 16) 4136 <> compute_canary mem_ABC 4136.
Proof.
  apply (proj1 (compute_canary_detects_one_field mem_ABC (set_size mem_ABC 4136 16) 4136)).
  left. vm_compute. repeat split; discriminate.
Defined.

Lemma available_block_space_is_gap_witness :
  pointer_end_block mem_AC 4096 = 4096 + HEADER_LENGHT + hdr_size mem_AC 4096 /\
  available_block_space arena_AC mem_AC 4096
  = (if hdr_next mem_AC 4096 =? 0
     then start_addr arena_AC + arena_size arena_AC else hdr_next mem_AC 4096)
    - pointer_end_block mem_AC 4096.
Proof.
  destruct (available_block_space_is_gap arena_AC mem_AC [4096; 4176] 4096)
    as (H1 & H2 & _).
  - exact well_formed_AC.
  - left; reflexivity.
  - split; [exact H1 | exact H2].
Defined.

Lemma a_malloc_first_block_witness :
  exists m1,
    a_malloc 0 (arena_init (mk_arena 4096 1024 77 88)) mem0 8
    = Some (4096 + HEADER_LENGHT, mk_arena 4096 1024 4096 4096, m1) /\
    well_formed (mk_arena 4096 1024 4096 4096) m1 [4096].
Proof.
  destruct (a_malloc_first_block 0 (mk_arena 4096 1024 77 88) mem0 8) as (_ & H).
  - vm_compute. reflexivity.
  - vm_compute. discriminate.
  - vm_compute. reflexivity.
  - destruct H as (m1 & E & _ & _ & _ & _ & _ & W).
    + vm_compute. discriminate.
    + exists m1. split; [exact E | exact W].
Defined.

Lemma a_malloc_after_arena_destroy_witness :
  a_malloc 0 (arena_destroy arena_ABC) mem_ABC 8
  = Some (0, arena_destroy arena_ABC, mem_ABC).
Proof.
  apply (a_malloc_after_arena_destroy 0 arena_ABC mem_ABC 8).
  vm_compute. reflexivity.
Defined.

Lemma arena_info_accounts_for_used_bytes_witness :
  exists i,
    arena_info 2 arena_AC mem_AC = Some i /\
    used_size i
    = (if head arena_AC =? 0 then 0 else head arena_AC - start_addr arena_AC)
      + allocated_size i + fragmentation_bytes i /\
    used_size i <= total_size i.
Proof.
  destruct (arena_info_accounts_for_used_bytes 2 arena_AC mem_AC [4096; 4176])
    as (i & E & _ & _ & _ & _ & U & T).
  - exact well_formed_AC.
  - simpl. lia.
  - exists i. split; [exact E|]. split; [exact U | exact T].
Defined.

Lemma arena_info_after_a_malloc_witness :
  exists q a1 m1 i i1,
    a_malloc 3 arena_ABC mem_ABC 8 = Some (q, a1, m1) /\ q = 4304 /\
    arena_info 3 arena_ABC mem_ABC = Some i /\
    arena_info 4 a1 m1 = Some i1 /\
    allocated_blocks i1 = allocated_blocks i + 1.
Proof.
  destruct (arena_info_after_a_malloc 3 arena_ABC mem_ABC [4096; 4136; 4176] 8)
    as (q & a1 & m1 & i & i1 & E & Ei & Ei1 & H).
  - exact well_formed_ABC.
  - simpl. lia.
  - vm_compute. reflexivity.
  - pose proof (call_behind_C q a1 m1 E) as Hq.
    assert (Hq0 : q <> 0) by (rewrite Hq; discriminate).
    destruct (H Hq0) as (Hb & _).
    exists q, a1, m1, i, i1. split; [exact E|]. split; [exact Hq|].
    split; [exact Ei|]. split; [exact Ei1 | exact Hb].
Defined.

Lemma arena_info_after_a_free_witness :
  exists i i',
    arena_info 3 arena_ABC mem_ABC = Some i /\
    arena_info 3 arena_AC mem_AC = Some i' /\
    allocated_blocks i' = allocated_blocks i - 1.
Proof.
  destruct (arena_info_after_a_free 3 arena_ABC mem_ABC [4096; 4136; 4176] 4168)
    as (i & i' & E & E' & Hb & _).
  - exact well_formed_ABC.
  - right; left; reflexivity.
  - simpl. lia.
  - exists i, i'. split; [exact E|]. split; [exact E' | exact Hb].
Defined.

Lemma relocation_keeps_well_formed_witness :
  exists q a' m',
    a_realloc 3 arena_ABC mem_ABC 4168 24 = Some (q, a', m') /\ q = 4304 /\
    well_formed a' m'
      (remove Z.eq_dec (4168 - HEADER_LENGHT)
         (insert_addr (q - HEADER_LENGHT) [4096; 4136; 4176])).
Proof.
  destruct (relocation_keeps_well_formed 3 arena_ABC mem_ABC
              [4096; 4136; 4176] 4168 24) as (q & a' & m' & E & H).
  - exact well_formed_ABC.
  - right; left; reflexivity.
  - simpl. lia.
  - vm_compute. reflexivity.
  - vm_compute. reflexivity.
  - vm_compute. reflexivity.
  - pose proof (call_moves_B q a' m' E) as Hq.
    assert (Hq0 : q <> 0) by (rewrite Hq; discriminate).
    exists q, a', m'. split; [exact E|]. split; [exact Hq|].
    apply (H Hq0).
    + rewrite Hq. vm_compute. discriminate.
    + rewrite Hq. vm_compute. discriminate.
Defined.

Lemma aligned_ABC : aligned arena_ABC mem_ABC [4096; 4136; 4176].
Proof.
  split; [vm_compute; reflexivity|].
  intros h [<-|[<-|[<-|[]]]]; vm_compute; split; reflexivity.
Defined.

Lemma a_malloc_keeps_alignment_witness :
  exists q a1 m1,
    a_malloc 3 arena_ABC mem_ABC 8 = Some (q, a1, m1) /\ q = 4304 /\
    q mod WORDSIZE = 0 /\
    aligned a1 m1 (insert_addr (q - HEADER_LENGHT) [4096; 4136; 4176]).
Proof.
  destruct (a_malloc_keeps_alignment 3 arena_ABC mem_ABC [4096; 4136; 4176] 8)
    as (q & a1 & m1 & E & Hm & H).
  - exact well_formed_ABC.
  - simpl. lia.
  - vm_compute. reflexivity.
  - exact aligned_ABC.
  - pose proof (call_behind_C q a1 m1 E) as Hq.
    assert (Hq0 : q <> 0) by (rewrite Hq; discriminate).
    exists q, a1, m1. split; [exact E|]. split; [exact Hq|].
    split; [exact Hm | exact (H Hq0)].
Defined.

End Concrete.
